(** * Bookmark de-duplication tools: a shallow embedding

    The repository holds two command-line tools over Netscape bookmark
    exports:

    - [dedupe_chromium_bookmarks.py]: depth-first prune-and-dedupe that keeps
      the folder structure ([prune_and_dedupe]);
    - [dedupe_merge_netscape_bookmarks.py]: flattening into one bucket per
      normalised folder name followed by a global dedupe
      ([collect_flat_buckets], [dedupe_bookmarks_globally]).

    Both files carry the same [normalize_url], [Bookmark] and [Folder]; they
    are embedded once.  [normalize_url] is written on top of
    [urllib.parse]; the functions it calls ([urlsplit], [urlunsplit],
    [parse_qsl], [urlencode] and what these call) are embedded from
    CPython 3.11's [Lib/urllib/parse.py].

    A Python [str] is a sequence of code points: [pystr := list N]. *)

From Stdlib Require Import NArith Ascii String.
From stdpp Require Import gmap list strings.

Local Open Scope N_scope.
Set Warnings "-clear-no-such-hyp,-level-tolerance".

(** ** Python strings *)

Definition pystr := list N.

Definition ord (a : ascii) : N := N_of_ascii a.
Arguments ord _%_char.

(** An ASCII literal as a Python string. *)
Definition py (s : string) : pystr := ord <$> list_ascii_of_string s.

(** [c in chars] *)
Definition char_in (c : N) (chars : pystr) : bool := bool_decide (c ∈ chars).

(** [not s] *)
Definition is_empty {A} (l : list A) : bool :=
  match l with [] => true | _ => false end.

(** [c.isascii()] and, for an ASCII [c], [c.isalpha()]. *)
Definition isascii (c : N) : bool := c <? 128.
Definition ascii_isupper (c : N) : bool := (65 <=? c) && (c <=? 90).
Definition ascii_islower (c : N) : bool := (97 <=? c) && (c <=? 122).
Definition ascii_isalpha (c : N) : bool := ascii_isupper c || ascii_islower c.

(** [str.lower()] on an ASCII code point. *)
Definition ascii_lower (c : N) : N := if ascii_isupper c then c + 32 else c.

(** [s.lstrip(chars)], [s.rstrip(chars)], [s.strip(chars)]: the set of
    characters to strip is given by its membership test. *)
Fixpoint lstrip (p : N → bool) (s : pystr) : pystr :=
  match s with
  | [] => []
  | c :: s' => if p c then lstrip p s' else s
  end.

Fixpoint rstrip (p : N → bool) (s : pystr) : pystr :=
  match s with
  | [] => []
  | c :: s' =>
      match rstrip p s' with
      | [] => if p c then [] else [c]
      | r => c :: r
      end
  end.

Definition strip (p : N → bool) (s : pystr) : pystr := rstrip p (lstrip p s).

(** [s.startswith(prefix)], [s.endswith(c)] for a one-character [c]. *)
Fixpoint startswith (prefix s : pystr) : bool :=
  match prefix, s with
  | [], _ => true
  | p :: prefix', c :: s' => (p =? c) && startswith prefix' s'
  | _ :: _, [] => false
  end.

Definition endswith (c : N) (s : pystr) : bool :=
  match last s with Some d => d =? c | None => false end.

(** [s.find(c)] for a one-character [c]: [None] stands for [-1]. *)
Fixpoint find_char (c : N) (s : pystr) : option nat :=
  match s with
  | [] => None
  | d :: s' => if d =? c then Some 0%nat else S <$> find_char c s'
  end.

(** [s.find(c, start)] *)
Definition find_from (c : N) (start : nat) (s : pystr) : option nat :=
  (λ i, (start + i)%nat) <$> find_char c (drop start s).

(** [s.split(c, 1)] when [c in s]: the text before and after the first
    [c]; [None] when [c] does not occur. *)
Definition split_once (c : N) (s : pystr) : option (pystr * pystr) :=
  (λ i, (take i s, drop (S i) s)) <$> find_char c s.

(** [s.split(c)] for a one-character separator. *)
Fixpoint split_on (c : N) (s : pystr) : list pystr :=
  match s with
  | [] => [[]]
  | d :: s' =>
      if d =? c then [] :: split_on c s'
      else match split_on c s' with
           | h :: t => (d :: h) :: t
           | [] => [[d]]
           end
  end.

(** [sep.join(l)] *)
Fixpoint join (sep : pystr) (l : list pystr) : pystr :=
  match l with
  | [] => []
  | [x] => x
  | x :: l' => x ++ sep ++ join sep l'
  end.

(** [s.replace(a, b)] for one-character [a] and [b], and [s.replace(a, "")]. *)
Definition replace_char (a b : N) (s : pystr) : pystr :=
  (λ c, if c =? a then b else c) <$> s.

Definition remove_char (a : N) (s : pystr) : pystr :=
  List.filter (λ c, negb (c =? a)) s.

(** [netloc.rpartition(c)[2]]: what follows the last [c], or all of [s]. *)
Fixpoint after_last (c : N) (s : pystr) : pystr :=
  match s with
  | [] => []
  | d :: s' => if char_in c s' then after_last c s' else if d =? c then s' else s
  end.

(** ** The parts of the runtime that are data *)

(** [str.lower()] on arbitrary code points needs the Unicode case tables,
    [_checknetloc] calls [unicodedata.normalize], and
    [_check_bracketed_host] calls [ipaddress.ip_address] and a regular
    expression.  They are taken as an interface; the laws are the facts about
    Unicode lower-casing that the development relies on: on ASCII strings it
    is the ASCII map, it is idempotent, it maps only the empty string to the
    empty string, and an ASCII code point other than a lower-case letter
    occurs in the result only if it occurred in the argument. *)
Class PyEnv := {
  str_lower : pystr → pystr;
  nfkc : pystr → pystr;
  bracketed_host_ok : pystr → bool;
  str_lower_ascii s :
    forallb isascii s = true → str_lower s = ascii_lower <$> s;
  str_lower_idemp s : str_lower (str_lower s) = str_lower s;
  str_lower_nil s : str_lower s = [] → s = [];
  str_lower_keeps c s :
    isascii c = true → ascii_islower c = false → c ∈ str_lower s → c ∈ s;
}.

(** ** Exceptions *)

Inductive exn := ValueError | UnicodeEncodeError.

Inductive result (A : Type) : Type :=
  | Ok (a : A)
  | Raise (e : exn).
Arguments Ok {A} a.
Arguments Raise {A} e.

Global Instance result_ret : MRet result := λ A, Ok.
Global Instance result_bind : MBind result := λ A B f m,
  match m with Ok a => f a | Raise e => Raise e end.

(** ** UTF-8 *)

(** [str.encode("utf-8", "strict")]: one to four bytes per code point; a
    surrogate (and anything that is no code point) is refused. *)
Definition utf8_encode_char (c : N) : option (list N) :=
  if c <? 128 then Some [c]
  else if c <? 2048 then Some [192 + c / 64; 128 + c mod 64]
  else if c <? 65536 then
    if (55296 <=? c) && (c <=? 57343) then None
    else Some [224 + c / 4096; 128 + (c / 64) mod 64; 128 + c mod 64]
  else if c <? 1114112 then
    Some [240 + c / 262144; 128 + (c / 4096) mod 64;
          128 + (c / 64) mod 64; 128 + c mod 64]
  else None.

Definition utf8_encode (s : pystr) : result (list N) :=
  match mapM utf8_encode_char s with
  | Some bss => Ok (concat bss)
  | None => Raise UnicodeEncodeError
  end.

(** [bytes.decode("utf-8", "replace")]: every maximal ill-formed prefix of
    a sequence becomes one U+FFFD. *)
Definition REPLACEMENT : N := 65533.

Definition is_cont (b : N) : bool := (128 <=? b) && (b <=? 191).

(** The second byte allowed after the lead byte [b1] of a three-byte and of
    a four-byte sequence. *)
Definition second_of_3 (b1 b2 : N) : bool :=
  if b1 =? 224 then (160 <=? b2) && (b2 <=? 191)
  else if b1 =? 237 then (128 <=? b2) && (b2 <=? 159)
  else is_cont b2.

Definition second_of_4 (b1 b2 : N) : bool :=
  if b1 =? 240 then (144 <=? b2) && (b2 <=? 191)
  else if b1 =? 244 then (128 <=? b2) && (b2 <=? 143)
  else is_cont b2.

Fixpoint utf8_decode (bs : list N) : pystr :=
  match bs with
  | [] => []
  | b1 :: t1 =>
      if b1 <? 128 then b1 :: utf8_decode t1
      else if (194 <=? b1) && (b1 <=? 223) then
        match t1 with
        | b2 :: t2 =>
            if is_cont b2
            then ((b1 - 192) * 64 + (b2 - 128)) :: utf8_decode t2
            else REPLACEMENT :: utf8_decode t1
        | [] => [REPLACEMENT]
        end
      else if (224 <=? b1) && (b1 <=? 239) then
        match t1 with
        | b2 :: t2 =>
            if second_of_3 b1 b2 then
              match t2 with
              | b3 :: t3 =>
                  if is_cont b3
                  then ((b1 - 224) * 4096 + (b2 - 128) * 64 + (b3 - 128))
                         :: utf8_decode t3
                  else REPLACEMENT :: utf8_decode t2
              | [] => [REPLACEMENT]
              end
            else REPLACEMENT :: utf8_decode t1
        | [] => [REPLACEMENT]
        end
      else if (240 <=? b1) && (b1 <=? 244) then
        match t1 with
        | b2 :: t2 =>
            if second_of_4 b1 b2 then
              match t2 with
              | b3 :: t3 =>
                  if is_cont b3 then
                    match t3 with
                    | b4 :: t4 =>
                        if is_cont b4
                        then ((b1 - 240) * 262144 + (b2 - 128) * 4096
                              + (b3 - 128) * 64 + (b4 - 128))
                               :: utf8_decode t4
                        else REPLACEMENT :: utf8_decode t3
                    | [] => [REPLACEMENT]
                    end
                  else REPLACEMENT :: utf8_decode t2
              | [] => [REPLACEMENT]
              end
            else REPLACEMENT :: utf8_decode t1
        | [] => [REPLACEMENT]
        end
      else REPLACEMENT :: utf8_decode t1
  end.

(** ** urllib.parse: percent-encoding *)

Definition hexdig : pystr := py "0123456789ABCDEFabcdef".

(** The value of a hexadecimal digit (of [_hexdig]). *)
Definition hexval (c : N) : N :=
  if (48 <=? c) && (c <=? 57) then c - 48
  else if (65 <=? c) && (c <=? 70) then c - 55
  else c - 87.

(** The upper-case hexadecimal digit of a value below 16
    (the format [%02X]). *)
Definition hexdigit (v : N) : N := if v <? 10 then 48 + v else 55 + v.

(** [unquote_to_bytes(string)] on an ASCII string, whose UTF-8 encoding is
    the string itself: every [%xx] with two hexadecimal digits becomes the
    byte, any other [%] stays. *)
Definition unquote_item (item : list N) : list N :=
  match item with
  | h1 :: h2 :: rest =>
      if char_in h1 hexdig && char_in h2 hexdig
      then (16 * hexval h1 + hexval h2) :: rest
      else ord "%" :: item
  | _ => ord "%" :: item
  end.

Definition unquote_to_bytes (string : list N) : list N :=
  match split_on (ord "%") string with
  | bits0 :: ((_ :: _) as items) => bits0 ++ concat (unquote_item <$> items)
  | _ => string
  end.

(** [_asciire.split(string)] for [_asciire = re.compile("([\x00-\x7f]+)")]:
    the list [non0; asc1; non1; ...; asck; nonk] of the maximal ASCII runs
    [asci] and of what stands between them. *)
Fixpoint asciire_split (s : pystr) : list pystr :=
  match s with
  | [] => [[]]
  | c :: s' =>
      let bits := asciire_split s' in
      if isascii c then
        match bits with
        | [] :: asc :: rest => [] :: (c :: asc) :: rest
        | _ => [] :: [c] :: bits
        end
      else
        match bits with
        | non0 :: rest => (c :: non0) :: rest
        | [] => [[c]]
        end
  end.

(** The loop of [unquote] over [bits[1:]]. *)
Fixpoint unquote_bits (bits : list pystr) : pystr :=
  match bits with
  | asc :: non :: rest =>
      utf8_decode (unquote_to_bytes asc) ++ non ++ unquote_bits rest
  | _ => []
  end.

(** [unquote(string)] with the defaults [encoding="utf-8"],
    [errors="replace"]. *)
Definition unquote (string : pystr) : pystr :=
  if negb (char_in (ord "%") string) then string
  else match asciire_split string with
       | bits0 :: rest => bits0 ++ unquote_bits rest
       | [] => []
       end.

Definition ALWAYS_SAFE : pystr :=
  py "ABCDEFGHIJKLMNOPQRSTUVWXYZabcdefghijklmnopqrstuvwxyz0123456789_.-~".

(** [_Quoter(safe).__missing__(b)] *)
Definition quoter (safe : pystr) (b : N) : pystr :=
  if char_in b (ALWAYS_SAFE ++ safe) then [b]
  else [ord "%"; hexdigit (b / 16); hexdigit (b mod 16)].

(** [quote_from_bytes(bs, safe)] for an ASCII [safe]. *)
Definition quote_from_bytes (bs : list N) (safe : pystr) : pystr :=
  if is_empty bs then []
  else if is_empty (rstrip (λ b, char_in b (ALWAYS_SAFE ++ safe)) bs) then bs
  else concat (quoter safe <$> bs).

(** [quote(string, safe)] with [encoding] and [errors] left to their
    defaults (UTF-8, strict). *)
Definition quote (string : pystr) (safe : pystr) : result pystr :=
  if is_empty string then Ok string
  else bs ← utf8_encode string; Ok (quote_from_bytes bs safe).

(** [quote_plus(string, safe="")] *)
Definition quote_plus (string : pystr) : result pystr :=
  if negb (char_in (ord " ") string) then quote string []
  else s ← quote string (py " "); Ok (replace_char (ord " ") (ord "+") s).

(** [urlencode(query, doseq=True)] for a list of pairs of strings. *)
Definition urlencode (query : list (pystr * pystr)) : result pystr :=
  l ← mapM (M := result) (λ kv : pystr * pystr,
         k ← quote_plus kv.1;
         v ← quote_plus kv.2;
         Ok (k ++ py "=" ++ v)) query;
  Ok (join (py "&") l).

(** [parse_qsl(qs, keep_blank_values=True)] *)
Definition parse_qsl (qs : pystr) : list (pystr * pystr) :=
  let query_args := if is_empty qs then [] else split_on (ord "&") qs in
  omap (λ name_value : pystr,
    if is_empty name_value then None
    else
      let nv := match split_once (ord "=") name_value with
                | Some nv => nv
                | None => (name_value, [])
                end in
      let name := unquote (replace_char (ord "+") (ord " ") nv.1) in
      let value := unquote (replace_char (ord "+") (ord " ") nv.2) in
      Some (name, value)) query_args.

(** ** urllib.parse: splitting and joining *)

Definition uses_netloc : list pystr :=
  py <$> [""; "ftp"; "http"; "gopher"; "nntp"; "telnet"; "imap"; "wais";
          "file"; "mms"; "https"; "shttp"; "snews"; "prospero"; "rtsp";
          "rtspu"; "rsync"; "svn"; "svn+ssh"; "sftp"; "nfs"; "git";
          "git+ssh"; "ws"; "wss"]%string.

Definition scheme_chars : pystr :=
  py "abcdefghijklmnopqrstuvwxyzABCDEFGHIJKLMNOPQRSTUVWXYZ0123456789+-.".

(** [_WHATWG_C0_CONTROL_OR_SPACE]: the code points 0 to 32. *)
Definition WHATWG_C0_CONTROL_OR_SPACE : pystr := N.of_nat <$> seq 0 33.

(** [_UNSAFE_URL_BYTES_TO_REMOVE] *)
Definition UNSAFE_URL_BYTES_TO_REMOVE : pystr := [9; 13; 10].

Record SplitResult := mkSplitResult {
  scheme : pystr;
  netloc : pystr;
  path : pystr;
  query : pystr;
  fragment : pystr;
}.

(** [_splitnetloc(url, start)] *)
Definition splitnetloc (url : pystr) (start : nat) : pystr * pystr :=
  let delim :=
    foldl (λ delim c,
             match find_from c start url with
             | Some wdelim => min delim wdelim
             | None => delim
             end) (length url) (py "/?#") in
  (drop start (take delim url), drop delim url).

(** [urlunsplit((scheme, netloc, url, query, fragment))] *)
Definition urlunsplit (scheme netloc url query fragment : pystr) : pystr :=
  let url :=
    if negb (is_empty netloc)
       || (negb (is_empty scheme) && bool_decide (scheme ∈ uses_netloc)
           && negb (bool_decide (take 2 url = py "//")))
    then
      let url := if negb (is_empty url)
                    && negb (bool_decide (take 1 url = py "/"))
                 then py "/" ++ url else url in
      py "//" ++ netloc ++ url
    else url in
  let url := if negb (is_empty scheme) then scheme ++ py ":" ++ url else url in
  let url := if negb (is_empty query) then url ++ py "?" ++ query else url in
  let url := if negb (is_empty fragment) then url ++ py "#" ++ fragment
             else url in
  url.

Section with_env.
Context `{PyEnv}.

(** [_check_bracketed_host(hostname)] *)
Definition check_bracketed_host (hostname : pystr) : result unit :=
  if bracketed_host_ok hostname then Ok () else Raise ValueError.

(** [_check_bracketed_netloc(netloc)] *)
Definition check_bracketed_netloc (netloc : pystr) : result unit :=
  let hostname_and_port := after_last (ord "@") netloc in
  match split_once (ord "[") hostname_and_port with
  | Some (before_bracket, bracketed) =>
      if negb (is_empty before_bracket) then Raise ValueError
      else
        let '(hostname, port) :=
          match split_once (ord "]") bracketed with
          | Some hp => hp
          | None => (bracketed, [])
          end in
        if negb (is_empty port) && negb (startswith (py ":") port)
        then Raise ValueError
        else check_bracketed_host hostname
  | None =>
      let hostname :=
        match split_once (ord ":") hostname_and_port with
        | Some hp => hp.1
        | None => hostname_and_port
        end in
      check_bracketed_host hostname
  end.

(** [_checknetloc(netloc)] *)
Definition checknetloc (netloc : pystr) : result unit :=
  if is_empty netloc || forallb isascii netloc then Ok ()
  else
    let n := remove_char (ord "@") netloc in
    let n := remove_char (ord ":") n in
    let n := remove_char (ord "#") n in
    let n := remove_char (ord "?") n in
    let netloc2 := nfkc n in
    if bool_decide (n = netloc2) then Ok ()
    else if existsb (λ c, char_in c netloc2) (py "/?#@:")
         then Raise ValueError
         else Ok ().

(** [urlsplit(url)] with the defaults [scheme=""],
    [allow_fragments=True]. *)
Definition urlsplit (url : pystr) : result SplitResult :=
  let url := lstrip (λ c, char_in c WHATWG_C0_CONTROL_OR_SPACE) url in
  let url := foldl (λ url b, remove_char b url)
                   url UNSAFE_URL_BYTES_TO_REMOVE in
  let '(scheme, url) :=
    match find_char (ord ":") url with
    | Some i =>
        if bool_decide (0 < i)%nat
           && match url with
              | c :: _ => isascii c && ascii_isalpha c
              | [] => false
              end
           && forallb (λ c, char_in c scheme_chars) (take i url)
        then (str_lower (take i url), drop (S i) url)
        else ([], url)
    | None => ([], url)
    end in
  '(netloc, url) ←
    (if bool_decide (take 2 url = py "//") then
       let '(netloc, url) := splitnetloc url 2 in
       if (char_in (ord "[") netloc && negb (char_in (ord "]") netloc))
          || (char_in (ord "]") netloc && negb (char_in (ord "[") netloc))
       then Raise ValueError
       else
         _ ← (if char_in (ord "[") netloc && char_in (ord "]") netloc
              then check_bracketed_netloc netloc else Ok ());
         Ok (netloc, url)
     else Ok ([], url));
  let '(url, fragment) :=
    match split_once (ord "#") url with
    | Some uf => uf
    | None => (url, [])
    end in
  let '(url, query) :=
    match split_once (ord "?") url with
    | Some uq => uq
    | None => (url, [])
    end in
  _ ← checknetloc netloc;
  Ok (mkSplitResult scheme netloc url query fragment).

(** ** dedupe_chromium_bookmarks.py and
       dedupe_merge_netscape_bookmarks.py: [normalize_url] *)

Definition COMMON_TRACKING_PARAMS : list pystr :=
  py <$> ["utm_source"; "utm_medium"; "utm_campaign"; "utm_term";
          "utm_content"; "utm_id"; "gclid"; "fbclid"; "mc_cid"; "mc_eid";
          "igshid"; "ref"]%string.

(** Lines 19 and 20: the trailing-slash step on the path. *)
Definition strip_trailing_slash (path : pystr) : pystr :=
  if endswith (ord "/") path && negb (bool_decide (path = py "/"))
  then rstrip (λ c, char_in c (py "/")) path
  else path.

(** The body of the [try]: [Raise] is an exception that the [except]
    clause catches. *)
Definition normalize_url_try (u : pystr) : result pystr :=
  s ← urlsplit u;
  let scheme := str_lower (scheme s) in
  let netloc := str_lower (netloc s) in
  let path := strip_trailing_slash (path s) in
  let query_pairs := parse_qsl (query s) in
  let filtered :=
    List.filter (λ kv : pystr * pystr,
                   negb (bool_decide (kv.1 ∈ COMMON_TRACKING_PARAMS)))
                query_pairs in
  query ← urlencode filtered;
  Ok (urlunsplit scheme netloc path query []).

Definition normalize_url (u : pystr) : pystr :=
  match normalize_url_try u with
  | Ok r => if is_empty r then u else r
  | Raise _ => u
  end.

End with_env.

(** ** The bookmark tree *)

(** [Dict[str, str]]: the attributes of a tag, in insertion order. *)
Definition pyattrs := list (pystr * pystr).

Record Bookmark := mkBookmark {
  href : pystr;
  title : pystr;
  attrs : pyattrs;
}.

(** [Folder.children] is a list of [Bookmark | Folder]. *)
Inductive Folder : Type :=
  | mkFolder (name : pystr) (fattrs : pyattrs) (children : list Node)
with Node : Type :=
  | NBookmark (b : Bookmark)
  | NFolder (f : Folder).

Definition name (f : Folder) : pystr := let 'mkFolder n _ _ := f in n.
Definition fattrs (f : Folder) : pyattrs := let 'mkFolder _ a _ := f in a.
Definition children (f : Folder) : list Node := let 'mkFolder _ _ c := f in c.

Global Instance Bookmark_eq_dec : EqDecision Bookmark.
Proof. solve_decision. Defined.

(** ** dedupe_chromium_bookmarks.py: [prune_and_dedupe] *)

(** The [stats] dictionary of [main]. *)
Record Stats := mkStats {
  urls_kept : nat;
  urls_removed : nat;
  folders_pruned : nat;
}.

Definition kept1 (s : Stats) : Stats :=
  mkStats (urls_kept s + 1) (urls_removed s) (folders_pruned s).
Definition removed1 (s : Stats) : Stats :=
  mkStats (urls_kept s) (urls_removed s + 1) (folders_pruned s).
Definition pruned1 (s : Stats) : Stats :=
  mkStats (urls_kept s) (urls_removed s) (folders_pruned s + 1).

Section engines.
Context `{PyEnv}.

(** The [for ch in folder.children] loop; [rec] is the recursive call.
    The set [seen] and the dictionary [stats] are mutated in place by the
    source and threaded here. *)
Definition prune_loop
    (rec : Folder → gset pystr → Stats → option Folder * gset pystr * Stats) :
    list Node → list Node → gset pystr → Stats →
    list Node * gset pystr * Stats :=
  fix loop chs new_children seen stats :=
    match chs with
    | [] => (new_children, seen, stats)
    | ch :: chs' =>
        match ch with
        | NBookmark b =>
            let norm := normalize_url (href b) in
            if negb (is_empty norm) && negb (bool_decide (norm ∈ seen))
            then loop chs' (new_children ++ [ch]) ({[norm]} ∪ seen)
                      (kept1 stats)
            else loop chs' new_children seen (removed1 stats)
        | NFolder f =>
            let '(pruned, seen, stats) := rec f seen stats in
            match pruned with
            | Some p =>
                if negb (is_empty (children p))
                then loop chs' (new_children ++ [NFolder p]) seen stats
                else loop chs' new_children seen (pruned1 stats)
            | None => loop chs' new_children seen (pruned1 stats)
            end
        end
    end.

(** [prune_and_dedupe(folder, seen, stats)]: the folder it returns is
    [folder] itself with its [children] replaced. *)
Fixpoint prune_and_dedupe (folder : Folder) (seen : gset pystr)
    (stats : Stats) : option Folder * gset pystr * Stats :=
  match folder with
  | mkFolder name fattrs children =>
      let '(new_children, seen, stats) :=
        prune_loop prune_and_dedupe children [] seen stats in
      (Some (mkFolder name fattrs new_children), seen, stats)
  end.

(** What [main] runs: an empty [seen] and zeroed statistics. *)
Definition run_prune (root : Folder) : option Folder * Stats :=
  let '(pruned, _, stats) := prune_and_dedupe root ∅ (mkStats 0 0 0) in
  (pruned, stats).

(** ** dedupe_merge_netscape_bookmarks.py *)

Definition NBSP : N := 160.

(** [str.isspace()] of a code point, which is also what [\s] matches and
    what [str.strip()] strips. *)
Definition isspace (c : N) : bool :=
  ((9 <=? c) && (c <=? 13)) || ((28 <=? c) && (c <=? 32))
  || (c =? 133) || (c =? 160) || (c =? 5760)
  || ((8192 <=? c) && (c <=? 8202))
  || (c =? 8232) || (c =? 8233) || (c =? 8239) || (c =? 8287)
  || (c =? 12288).

(** [re.sub(r"\s+", " ", n)] *)
Fixpoint collapse_spaces (n : pystr) : pystr :=
  match n with
  | [] => []
  | c :: n' =>
      if isspace c then
        match n' with
        | d :: _ => if isspace d then collapse_spaces n'
                    else ord " " :: collapse_spaces n'
        | [] => [ord " "]
        end
      else c :: collapse_spaces n'
  end.

(** The characters of the literal ["/|-:.Â·;"] of line 115. *)
Definition FOLDER_STRIP_CHARS : pystr :=
  [ord "/"; ord "|"; ord "-"; ord ":"; ord "."; 194; 183; ord ";"].

Definition norm_folder_name (name : pystr) : pystr :=
  let n := replace_char NBSP (ord " ") name in
  let n := str_lower (strip isspace (collapse_spaces n)) in
  strip (λ c, char_in c FOLDER_STRIP_CHARS) n.

(** A bucket of [collect_flat_buckets]. *)
Record Bucket := mkBucket {
  display_name : pystr;
  bookmarks : list Bookmark;
  h3_attrs : pyattrs;
}.

(** [buckets: Dict[str, Dict]], in insertion order. *)
Definition Buckets := list (pystr * Bucket).

Fixpoint dict_get (key : pystr) (d : Buckets) : option Bucket :=
  match d with
  | [] => None
  | (k, b) :: d' => if bool_decide (k = key) then Some b else dict_get key d'
  end.

(** [d[key] = b]: an existing key keeps its place, a new one goes last. *)
Fixpoint dict_set (key : pystr) (b : Bucket) (d : Buckets) : Buckets :=
  match d with
  | [] => [(key, b)]
  | (k, b') :: d' =>
      if bool_decide (k = key) then (k, b) :: d'
      else (k, b') :: dict_set key b d'
  end.

Definition unsorted_key : pystr := py "__unsorted__".

(** The [Bookmark] items of a children list. *)
Definition bookmarks_of (items : list Node) : list Bookmark :=
  omap (λ it, match it with NBookmark b => Some b | NFolder _ => None end)
       items.

(** [add_to_bucket(folder_name, h3_attrs, items)]; [folder_name] is
    [None] for the root. *)
Definition add_to_bucket (folder_name : option pystr) (attrs : pyattrs)
    (items : list Node) (buckets : Buckets) : Buckets :=
  let key := norm_folder_name (default [] folder_name) in
  let key := if is_empty key then unsorted_key else key in
  let buckets :=
    match dict_get key buckets with
    | Some _ => buckets
    | None =>
        dict_set key
          (mkBucket (if is_empty (default [] folder_name)
                     then py "Unsorted" else default [] folder_name)
                    [] attrs)
          buckets
    end in
  match dict_get key buckets with
  | Some b =>
      let b := if is_empty (h3_attrs b)
               then mkBucket (display_name b) (bookmarks b) attrs
               else b in
      dict_set key
        (mkBucket (display_name b) (bookmarks b ++ bookmarks_of items)
                  (h3_attrs b))
        buckets
  | None => buckets
  end.

(** The loop [for ch in node.children] of [walk]; [rec] is the recursive
    call. *)
Definition walk_loop (rec : Folder → Buckets → Buckets)
    : list Node → Buckets → Buckets :=
  fix loop chs buckets :=
    match chs with
    | [] => buckets
    | NFolder ch :: chs' => loop chs' (rec ch buckets)
    | NBookmark _ :: chs' => loop chs' buckets
    end.

(** [walk(node, parent)]; [is_root] is the test [node is root]. *)
Fixpoint walk (is_root : bool) (node : Folder) (buckets : Buckets)
    : Buckets :=
  match node with
  | mkFolder name fattrs children =>
      let buckets :=
        if negb is_root then add_to_bucket (Some name) fattrs children buckets
        else add_to_bucket None [] children buckets in
      walk_loop (walk false) children buckets
  end.

Definition collect_flat_buckets (root : Folder) : Buckets :=
  walk true root [(unsorted_key, mkBucket (py "Unsorted") [] [])].

(** The statistics of [dedupe_bookmarks_globally]. *)
Record FlatStats := mkFlatStats {
  flat_kept : nat;
  flat_removed : nat;
  folders_total : nat;
}.

(** The inner loop [for bm in b["bookmarks"]]. *)
Fixpoint dedupe_list (bms new_list : list Bookmark) (seen : gset pystr)
    (stats : FlatStats) : list Bookmark * gset pystr * FlatStats :=
  match bms with
  | [] => (new_list, seen, stats)
  | bm :: bms' =>
      let norm := normalize_url (href bm) in
      if negb (is_empty norm) && negb (bool_decide (norm ∈ seen))
      then dedupe_list bms' (new_list ++ [bm]) ({[norm]} ∪ seen)
             (mkFlatStats (flat_kept stats + 1) (flat_removed stats)
                          (folders_total stats))
      else dedupe_list bms' new_list seen
             (mkFlatStats (flat_kept stats) (flat_removed stats + 1)
                          (folders_total stats))
  end.

(** The outer loop [for key, b in buckets.items()]. *)
Fixpoint dedupe_buckets (buckets : Buckets) (seen : gset pystr)
    (stats : FlatStats) : Buckets * gset pystr * FlatStats :=
  match buckets with
  | [] => ([], seen, stats)
  | (key, b) :: buckets' =>
      let '(new_list, seen, stats) :=
        dedupe_list (bookmarks b) [] seen stats in
      let b := mkBucket (display_name b) new_list (h3_attrs b) in
      let stats :=
        if negb (is_empty (bookmarks b))
        then mkFlatStats (flat_kept stats) (flat_removed stats)
                         (folders_total stats + 1)
        else stats in
      let '(rest, seen, stats) := dedupe_buckets buckets' seen stats in
      ((key, b) :: rest, seen, stats)
  end.

Definition dedupe_bookmarks_globally (buckets : Buckets)
    : Buckets * FlatStats :=
  let '(buckets, _, stats) :=
    dedupe_buckets buckets ∅ (mkFlatStats 0 0 0) in
  (buckets, stats).

(** What [main] runs. *)
Definition run_flatten (root : Folder) : Buckets * FlatStats :=
  dedupe_bookmarks_globally (collect_flat_buckets root).

End engines.

(** ** The vocabulary of the specification *)

(** The bookmarks of a tree in document order: a folder's bookmarks stand
    where the folder stands among its siblings. *)
Definition nodes_bookmarks (rec : Folder → list Bookmark) (cs : list Node)
    : list Bookmark :=
  concat ((λ c, match c with NBookmark b => [b] | NFolder g => rec g end)
            <$> cs).

Fixpoint doc_bookmarks (f : Folder) : list Bookmark :=
  match f with
  | mkFolder _ _ cs => nodes_bookmarks doc_bookmarks cs
  end.

(** The folders below a folder (the folder itself is not one of them), in
    the order in which a depth-first walk enters them. *)
Definition nodes_folders (rec : Folder → list Folder) (cs : list Node)
    : list Folder :=
  concat ((λ c, match c with NBookmark _ => [] | NFolder g => g :: rec g end)
            <$> cs).

Fixpoint subfolders (f : Folder) : list Folder :=
  match f with
  | mkFolder _ _ cs => nodes_folders subfolders cs
  end.

(** The elements of [l] whose position satisfies [keep]. *)
Fixpoint select {A} (keep : nat → bool) (l : list A) : list A :=
  match l with
  | [] => []
  | x :: l' => (if keep 0%nat then [x] else []) ++ select (keep ∘ S) l'
  end.

(** "First occurrence wins": position [i] of a list of keys survives when
    its key is not empty, was not seen before the list started, and stands
    at no earlier position of the list. *)
Definition survives (seen : gset pystr) (keys : list pystr) (i : nat) : bool :=
  match keys !! i with
  | Some k =>
      negb (is_empty k) && negb (bool_decide (k ∈ seen))
      && negb (bool_decide (k ∈ take i keys))
  | None => false
  end.

(** The set [seen] after a bookmark with key [k], and after a list of
    them: only a key that is not empty is ever added. *)
Definition see (seen : gset pystr) (k : pystr) : gset pystr :=
  if negb (is_empty k) && negb (bool_decide (k ∈ seen)) then {[k]} ∪ seen
  else seen.

Definition seen_after (seen : gset pystr) (ks : list pystr) : gset pystr :=
  foldl see seen ks.

(** "Keep the recursed folder only if it ends up with at least one
    surviving child": the tree in which the bookmark at position [i] of the
    document order stays exactly when [keep i], and a folder below the root
    stays exactly when one of its children stays. *)
Definition structural_children (rec : (nat → bool) → Folder → Folder)
    : (nat → bool) → list Node → list Node :=
  fix go keep cs :=
    match cs with
    | [] => []
    | NBookmark b :: cs' =>
        (if keep 0%nat then [NBookmark b] else []) ++ go (keep ∘ S) cs'
    | NFolder g :: cs' =>
        (let g' := rec keep g in
         if is_empty (children g') then [] else [NFolder g'])
        ++ go (λ i, keep (length (doc_bookmarks g) + i)%nat) cs'
    end.

Fixpoint structural_prune (keep : nat → bool) (f : Folder) : Folder :=
  match f with
  | mkFolder n a cs => mkFolder n a (structural_children structural_prune keep cs)
  end.

Section vocabulary.
Context `{PyEnv}.

(** The deduplication key of a bookmark. *)
Definition key (b : Bookmark) : pystr := normalize_url (href b).

(** The survivors of a list of bookmarks under "first occurrence wins". *)
Definition first_occurrences (seen : gset pystr) (l : list Bookmark)
    : list Bookmark :=
  select (survives seen (key <$> l)) l.

(** The key under which [add_to_bucket] files a folder name. *)
Definition bucket_key (folder_name : pystr) : pystr :=
  let k := norm_folder_name folder_name in
  if is_empty k then unsorted_key else k.

(** The folders below [root] that [add_to_bucket] files under [k], in
    the order of the walk. *)
Definition folders_of_bucket (k : pystr) (root : Folder) : list Folder :=
  List.filter (λ f, bool_decide (bucket_key (name f) = k)) (subfolders root).

(** What [add_to_bucket] does for a folder below the root. *)
Definition add_folder (buckets : Buckets) (f : Folder) : Buckets :=
  add_to_bucket (Some (name f)) (fattrs f) (children f) buckets.

(** The bookmarks that are children of [f] itself. *)
Definition direct (f : Folder) : list Bookmark := bookmarks_of (children f).


(** The bucket that [add_to_bucket] creates for a folder whose key is
    new, what it does to the bucket of a folder, and the two in one. *)
Definition fresh_bucket (f : Folder) : Bucket :=
  mkBucket (if is_empty (name f) then py "Unsorted" else name f) [] (fattrs f).

Definition fill (f : Folder) (b : Bucket) : Bucket :=
  mkBucket (display_name b) (bookmarks b ++ direct f)
           (if is_empty (h3_attrs b) then fattrs f else h3_attrs b).

Definition merge (f : Folder) (ob : option Bucket) : Bucket :=
  fill f (default (fresh_bucket f) ob).

(** The number of buckets that are not empty. *)
Definition nonempty_buckets (bs : Buckets) : nat :=
  length (List.filter
            (λ kb : pystr * Bucket, negb (is_empty (bookmarks kb.2))) bs).

(** The attributes of the first folder of a list that has any. *)
Definition first_attrs (fs : list Folder) : pyattrs :=
  match list_find (λ f, fattrs f ≠ []) fs with
  | Some (_, f) => fattrs f
  | None => []
  end.

(** The order in which names are met for the first time; the reserved
    key comes first. *)
Definition discovery_order (ks : list pystr) : list pystr :=
  foldl (λ acc k, if bool_decide (k ∈ acc) then acc else acc ++ [k])
        [unsorted_key] ks.

(** The bookmarks of all buckets, bucket after bucket: the order in which
    the flatten tool visits them. *)
Definition all_bookmarks (buckets : Buckets) : list Bookmark :=
  concat ((λ kb : pystr * Bucket, bookmarks kb.2) <$> buckets).

Definition flat_order (root : Folder) : list Bookmark :=
  all_bookmarks (collect_flat_buckets root).

(** The buckets after the global dedupe, in the words of the
    specification: a bucket keeps its key, display name and attributes,
    and of its bookmarks those that are first occurrences. *)
Fixpoint buckets_survivors (seen : gset pystr) (buckets : Buckets)
    : Buckets :=
  match buckets with
  | [] => []
  | (k, b) :: buckets' =>
      (k, mkBucket (display_name b)
                   (first_occurrences seen (bookmarks b)) (h3_attrs b))
      :: buckets_survivors (seen_after seen (key <$> bookmarks b)) buckets'
  end.

End vocabulary.

(** ** [escape_html] and the writers: [dump_folder],
       [write_netscape_html], [dump_flat_html], [write_flat_file] *)

(** [s.replace(a, new)] for a one-character [a]. *)
Definition replace_with (a : N) (new s : pystr) : pystr :=
  concat ((λ c, if c =? a then new else [c]) <$> s).

(** The double quote and the line feed. *)
Definition DQUOTE : N := 34.
Definition LF : N := 10.

(** [escape_html(t)]: four replacements, one after the other. *)
Definition escape_html (t : pystr) : pystr :=
  replace_with DQUOTE (py "&quot;")
    (replace_with (ord ">") (py "&gt;")
       (replace_with (ord "<") (py "&lt;")
          (replace_with (ord "&") (py "&amp;") t))).

(** [s or d] for strings. *)
Definition or_else (s d : pystr) : pystr := if is_empty s then d else s.

(** [d.get(k)] on the attributes of a tag; a [dict] holds a key once. *)
Fixpoint attrs_get (k : pystr) (d : pyattrs) : option pystr :=
  match d with
  | [] => None
  | (k', v) :: d' => if bool_decide (k' = k) then Some v else attrs_get k d'
  end.

(** The attribute names that the writers look for. *)
Definition H3_ATTRS : list pystr :=
  py <$> ["ADD_DATE"; "LAST_MODIFIED"; "PERSONAL_TOOLBAR_FOLDER"]%string.

Definition A_ATTRS : list pystr :=
  py <$> ["ADD_DATE"; "ICON"; "ICON_URI"; "LAST_MODIFIED"]%string.

Section writers.
Context `{PyEnv}.

(** [d.get(k) or d.get(k.lower())]: [None] stays [None], and an empty
    value gives way to the lower-case key. *)
Definition attr_value (d : pyattrs) (k : pystr) : option pystr :=
  match attrs_get k d with
  | Some v => if is_empty v then attrs_get (str_lower k) d else Some v
  | None => attrs_get (str_lower k) d
  end.

(** The loop [for k in (...)] that collects [K="value"] for every
    attribute that is present. *)
Definition attr_strings (d : pyattrs) (ks : list pystr) : list pystr :=
  omap (λ k, (λ v, k ++ py "=" ++ [DQUOTE] ++ escape_html v ++ [DQUOTE])
               <$> attr_value d k) ks.

(** The line [f'{ind}<DT><H3{attrs_str}>{name}</H3>'] of a folder or of a
    bucket. *)
Definition h3_line (ind name : pystr) (a : pyattrs) : pystr :=
  let name := escape_html (or_else name (py "Untitled")) in
  let h3_attrs := attr_strings a H3_ATTRS in
  let attrs_str :=
    if is_empty h3_attrs then [] else py " " ++ join (py " ") h3_attrs in
  ind ++ py "<DT><H3" ++ attrs_str ++ py ">" ++ name ++ py "</H3>".

(** The line [f'{ind}<DT><A {" ".join(a_attrs)}>{title}</A>'] of a
    bookmark. *)
Definition a_line (ind : pystr) (b : Bookmark) : pystr :=
  let href_ := escape_html (or_else (href b) []) in
  let title_ :=
    escape_html (or_else (or_else (title b) (href b)) (py "Untitled")) in
  let a_attrs :=
    (py "HREF=" ++ [DQUOTE] ++ href_ ++ [DQUOTE])
    :: attr_strings (attrs b) A_ATTRS in
  ind ++ py "<DT><A " ++ join (py " ") a_attrs ++ py ">" ++ title_ ++ py "</A>".

(** The loop [for ch in folder.children] of [dump_folder]: the list
    [out]; [rec] is the recursive call. *)
Definition dump_loop (rec : Folder → nat → pystr) (indent : nat)
    (ind : pystr) : list Node → list pystr :=
  fix loop chs :=
    match chs with
    | [] => []
    | NFolder ch :: chs' =>
        [h3_line ind (name ch) (fattrs ch);
         ind ++ py "<DL><p>";
         rec ch (indent + 1)%nat;
         ind ++ py "</DL><p>"] ++ loop chs'
    | NBookmark ch :: chs' => a_line ind ch :: loop chs'
    end.

(** [dump_folder(folder, indent)] *)
Fixpoint dump_folder (folder : Folder) (indent : nat) : pystr :=
  match folder with
  | mkFolder _ _ children =>
      join [LF]
        (dump_loop dump_folder indent (concat (replicate indent (py "  ")))
           children)
  end.

(** The header that both tools write, up to the title. *)
Definition file_header (title_ : pystr) : pystr :=
  py "<!DOCTYPE NETSCAPE-Bookmark-file-1>" ++ [LF]
  ++ py "<!-- This is an automatically generated file." ++ [LF]
  ++ py "     It will be read and overwritten. Do Not Edit! -->" ++ [LF]
  ++ py "<TITLE>" ++ title_ ++ py "</TITLE>" ++ [LF]
  ++ py "<H1>Bookmarks</H1>" ++ [LF]
  ++ py "<DL><p>" ++ [LF].

Definition file_footer : pystr := [LF] ++ py "</DL><p>" ++ [LF].

(** The text that [write_netscape_html(folder, out_path)] writes. *)
Definition write_netscape_html (folder : Folder) : pystr :=
  file_header (py "Bookmarks") ++ dump_folder folder 1 ++ file_footer.

(** The loop [for key, b in buckets.items()] of [dump_flat_html]: the list
    [lines]. *)
Fixpoint flat_lines (buckets : Buckets) : list pystr :=
  match buckets with
  | [] => []
  | (_, b) :: buckets' =>
      if is_empty (bookmarks b) then flat_lines buckets'
      else
        [h3_line [] (display_name b) (h3_attrs b); py "<DL><p>"]
        ++ (a_line (py "  ") <$> bookmarks b)
        ++ [py "</DL><p>"]
        ++ flat_lines buckets'
  end.

(** [dump_flat_html(buckets)] *)
Definition dump_flat_html (buckets : Buckets) : pystr :=
  join [LF] (flat_lines buckets).

(** The text that [write_flat_file(buckets, out_path)] writes. *)
Definition write_flat_file (buckets : Buckets) : pystr :=
  file_header (py "Bookmarks (Flattened)") ++ dump_flat_html buckets
  ++ file_footer.

(** What the two [main] functions write for a parsed tree. *)
Definition prune_output (root : Folder) : option pystr :=
  write_netscape_html <$> (run_prune root).1.

Definition flatten_output (root : Folder) : pystr :=
  write_flat_file (run_flatten root).1.

End writers.

(** * Auxiliary definitions *)

(** Turns boolean comparisons into propositions, for [lia]. *)
Ltac nbool :=
  repeat (rewrite ?andb_true_iff, ?andb_false_iff, ?orb_true_iff, ?orb_false_iff,
            ?negb_true_iff, ?negb_false_iff,
            ?N.leb_le, ?N.leb_gt, ?N.ltb_lt, ?N.ltb_ge, ?N.eqb_eq, ?N.eqb_neq in * ).

(** ** The runtime on ASCII

    An environment that is right on ASCII strings without brackets:
    [str.lower] is the ASCII map, and the two checks that are made of
    non-ASCII or bracketed hosts only are not modelled.  It serves to
    evaluate the functions on literals. *)
Definition ascii_env : PyEnv.
Proof.
  refine {| str_lower s := ascii_lower <$> s;
            nfkc s := s;
            bracketed_host_ok _ := true |}.
  - done.
  - intros s. rewrite <-list_fmap_compose. apply list_fmap_ext. intros _ c _. simpl.
    unfold ascii_lower. destruct (ascii_isupper c) eqn:E; [|by rewrite E].
    destruct (ascii_isupper (c + 32)) eqn:E'; [|done].
    unfold ascii_isupper in *. nbool. lia.
  - intros s. by destruct s.
  - intros c s _ Hl [x [-> Hx]]%list_elem_of_fmap.
    unfold ascii_lower in *. destruct (ascii_isupper x) eqn:E; [|done].
    exfalso. unfold ascii_islower, ascii_isupper in *. nbool. lia.
Defined.

(** ** The statements proved of the prune engine *)

Section prune_spec.
Context `{PyEnv}.

(** The keys of the bookmarks of a children list, in document order. *)
Definition keys_of (cs : list Node) : list pystr :=
  key <$> nodes_bookmarks doc_bookmarks cs.

(** What the loop and the function do, for every [seen] and [stats] they
    start from. *)

Definition loop_spec (cs : list Node) : Prop :=
  ∀ new seen stats,
    let r := prune_loop prune_and_dedupe cs new seen stats in
    let outc := structural_children structural_prune (survives seen (keys_of cs)) cs in
    r.1.1 = new ++ outc ∧ r.1.2 = seen_after seen (keys_of cs) ∧
    urls_kept r.2 = (urls_kept stats + length (nodes_bookmarks doc_bookmarks outc))%nat ∧
    (urls_removed r.2 + length (nodes_bookmarks doc_bookmarks outc)
      = urls_removed stats + length (nodes_bookmarks doc_bookmarks cs))%nat ∧
    (folders_pruned r.2 + length (nodes_folders subfolders outc)
      = folders_pruned stats + length (nodes_folders subfolders cs))%nat.

Definition folder_spec (f : Folder) : Prop :=
  ∀ seen stats,
    let r := prune_and_dedupe f seen stats in
    let out := structural_prune (survives seen (key <$> doc_bookmarks f)) f in
    r.1.1 = Some out ∧ r.1.2 = seen_after seen (key <$> doc_bookmarks f) ∧
    urls_kept r.2 = (urls_kept stats + length (doc_bookmarks out))%nat ∧
    (urls_removed r.2 + length (doc_bookmarks out)
      = urls_removed stats + length (doc_bookmarks f))%nat ∧
    (folders_pruned r.2 + length (subfolders out)
      = folders_pruned stats + length (subfolders f))%nat.

End prune_spec.

(** ** The shape of what [urlsplit] parses *)

(** The first two statements of [urlsplit]. *)
Definition clean_url (u : pystr) : pystr :=
  foldl (λ url b, remove_char b url)
        (lstrip (λ c, char_in c WHATWG_C0_CONTROL_OR_SPACE) u)
        UNSAFE_URL_BYTES_TO_REMOVE.

(** A string that the two statements leave as it is. *)
Definition is_clean (w : pystr) : Prop :=
  match w with
  | c :: _ => char_in c WHATWG_C0_CONTROL_OR_SPACE = false
  | [] => True
  end ∧
  ∀ c, c ∈ w → char_in c UNSAFE_URL_BYTES_TO_REMOVE = false.

(** The test under which [urlsplit] takes a scheme off the URL. *)
Definition has_scheme (w : pystr) : bool :=
  match find_char (ord ":") w with
  | Some i =>
      bool_decide (0 < i)%nat
      && match w with
         | c :: _ => isascii c && ascii_isalpha c
         | [] => false
         end
      && forallb (λ c, char_in c scheme_chars) (take i w)
  | None => false
  end.

(** A string that [urlsplit] takes as a scheme when it stands before a
    colon. *)
Definition scheme_ok (x : pystr) : Prop :=
  match x with
  | c :: _ => isascii c && ascii_isalpha c = true
  | [] => False
  end ∧
  ∀ c, c ∈ x → char_in c scheme_chars = true.

(** A part that may be absent, after its separator. *)
Definition opt_part (sep : pystr) (x : option pystr) : pystr :=
  match x with Some s => sep ++ s | None => [] end.

(** A URL put together from its parts. *)
Definition assemble (sx nx : option pystr) (p : pystr) (qx fx : option pystr)
    : pystr :=
  match sx with Some x => x ++ py ":" | None => [] end
  ++ opt_part (py "//") nx ++ p ++ opt_part (py "?") qx ++ opt_part (py "#") fx.

(** The parts are those that [urlsplit] finds. *)
Record Shape (sx nx : option pystr) (p : pystr) (qx fx : option pystr)
    : Prop := {
  sh_scheme :
    match sx with
    | Some x => scheme_ok x
    | None => has_scheme (assemble None nx p qx fx) = false
    end;
  sh_netloc :
    match nx with
    | Some n => (∀ c, c ∈ n → char_in c (py "/?#") = false)
                ∧ (p = [] ∨ ∃ p', p = ord "/" :: p')
    | None => take 2 p ≠ py "//"
    end;
  sh_path : ∀ c, c ∈ p → char_in c (py "?#") = false;
  sh_query : ∀ q, qx = Some q → ord "#" ∉ q;
}.

(** [_splitnetloc] stops at the first delimiter. *)
Fixpoint span_delim (s : pystr) : pystr * pystr :=
  match s with
  | [] => ([], [])
  | c :: s' =>
      if char_in c (py "/?#") then ([], s)
      else let '(n, r) := span_delim s' in (c :: n, r)
  end.

(** The earliest of the three positions that [_splitnetloc] looks for. *)
Definition first_delim (s : pystr) : nat := length (span_delim s).1.

Section url_steps.
Context `{PyEnv}.

(** The steps of [urlsplit] on a cleaned URL. *)
Definition scheme_step (url : pystr) : pystr * pystr :=
  if has_scheme url
  then match find_char (ord ":") url with
       | Some i => (str_lower (take i url), drop (S i) url)
       | None => ([], url)
       end
  else ([], url).

(** The checks of the brackets of an authority. *)
Definition bracket_checks (netloc : pystr) : result unit :=
  if (char_in (ord "[") netloc && negb (char_in (ord "]") netloc))
     || (char_in (ord "]") netloc && negb (char_in (ord "[") netloc))
  then Raise ValueError
  else if char_in (ord "[") netloc && char_in (ord "]") netloc
       then check_bracketed_netloc netloc else Ok ().

(** The part after [//], up to the first of [/], [?] and [#]. *)
Definition netloc_step (url : pystr) : pystr * pystr :=
  if bool_decide (take 2 url = py "//") then splitnetloc url 2 else ([], url).

(** [url.split(c, 1)] when [c] occurs, [url] and the empty string when it
    does not. *)
Definition cut_at (c : N) (url : pystr) : pystr * pystr :=
  match split_once c url with
  | Some uf => uf
  | None => (url, [])
  end.

(** Path, query and fragment. *)
Definition tail_step (url : pystr) : pystr * pystr * pystr :=
  let '(url, fragment) := cut_at (ord "#") url in
  let '(url, query) := cut_at (ord "?") url in
  (url, query, fragment).

(** All that can make [urlsplit] raise. *)
Definition netloc_ok (netloc : pystr) : result unit :=
  _ ← bracket_checks netloc; checknetloc netloc.

End url_steps.

(** ** Percent-encoding *)

(** [unquote_to_bytes] as a function of the split at [%]. *)
Definition unquote_join (bits : list (list N)) : list N :=
  match bits with
  | bits0 :: items => bits0 ++ concat (unquote_item <$> items)
  | [] => []
  end.

(** The characters that [quote_plus] writes. *)
Definition QUOTED_CHARS : pystr := ALWAYS_SAFE ++ py "%+".

(** The body of the loop of [parse_qsl]. *)
Definition parse_item (name_value : pystr) : option (pystr * pystr) :=
  if is_empty name_value then None
  else
    let nv := match split_once (ord "=") name_value with
              | Some nv => nv
              | None => (name_value, [])
              end in
    Some (unquote (replace_char (ord "+") (ord " ") nv.1),
          unquote (replace_char (ord "+") (ord " ") nv.2)).

(** [item] is what [urlencode] writes for the pair [kv]. *)
Definition encoded_item (kv : pystr * pystr) (item : pystr) : Prop :=
  ∃ k v, quote_plus kv.1 = Ok k ∧ quote_plus kv.2 = Ok v ∧ item = k ++ py "=" ++ v.

(** ** What [urlunsplit] writes, and clean strings *)

(** A part that [urlunsplit] leaves out when it is empty. *)
Definition nonempty (s : pystr) : option pystr :=
  if is_empty s then None else Some s.

(** The two tests of [urlunsplit]. *)
Definition with_netloc (sc n p : pystr) : bool :=
  negb (is_empty n)
  || (negb (is_empty sc) && bool_decide (sc ∈ uses_netloc)
      && negb (bool_decide (take 2 p = py "//"))).

(** The path that follows an authority. *)
Definition rooted (p : pystr) : pystr :=
  if negb (is_empty p) && negb (bool_decide (take 1 p = py "/"))
  then py "/" ++ p else p.

(** The set of characters of [rstrip("/")]. *)
Definition is_slash (c : N) : bool := char_in c (py "/").

(** The two parts of [is_clean]. *)
Definition head_ok (w : pystr) : Prop :=
  match w with
  | c :: _ => char_in c WHATWG_C0_CONTROL_OR_SPACE = false
  | [] => True
  end.

Definition safe_chars (w : pystr) : Prop :=
  ∀ c, c ∈ w → char_in c UNSAFE_URL_BYTES_TO_REMOVE = false.

(** The pairs that [normalize_url] keeps. *)
Definition keep (kv : pystr * pystr) : bool :=
  negb (bool_decide (kv.1 ∈ COMMON_TRACKING_PARAMS)).

(** ** ASCII URLs without brackets *)

(** The strings on which nothing of the runtime is consulted beyond
    [str.lower] on ASCII. *)
Definition plain_char (c : N) : bool := isascii c && negb (char_in c (py "[]")).

Definition plain (u : pystr) : bool := forallb plain_char u.

(** ** A tree on which the two engines differ *)

(** A bookmark without attributes. *)
Definition bm (h t : string) : Bookmark := mkBookmark (py h) (py t) [].

Definition work_folder : Folder :=
  mkFolder (py "Work") [] [NBookmark (bm "http://y.org/" "Y")].

Definition personal_folder : Folder :=
  mkFolder (py "Personal") [] [NBookmark (bm "http://x.org/a" "first")].

Definition work_again_folder : Folder :=
  mkFolder (py "WORK ") [(py "ADD_DATE", py "1")]
    [NBookmark (bm "http://x.org/a/?utm_source=n" "second")].

Definition example_tree : Folder :=
  mkFolder (py "ROOT") []
    [NFolder work_folder; NFolder personal_folder; NFolder work_again_folder].

(** A folder whose name normalizes to nothing, a folder whose name
    normalizes to the reserved key, and a tree that holds both. *)
Definition dashes_folder : Folder :=
  mkFolder (py "---") [(py "ADD_DATE", py "7")]
    [NBookmark (bm "http://a.org/" "A")].

Definition reserved_name_folder : Folder :=
  mkFolder (py "__Unsorted__") [(py "ADD_DATE", py "9")]
    [NBookmark (bm "http://b.org/" "B")].

Definition collision_tree : Folder :=
  mkFolder (py "ROOT") [] [NFolder dashes_folder; NFolder reserved_name_folder].

(** ** Counting characters *)

(** The number of times that [c] occurs in [s]. *)
Definition occurrences (c : N) (s : pystr) : nat :=
  length (List.filter (λ d, d =? c) s).

(** The two characters that delimit a tag. *)
Definition bracket (c : N) : Prop := c = ord "<" ∨ c = ord ">".

(** ** Whitespace in folder names *)

(** A string of whitespace characters. *)
Definition blank (ws : pystr) : Prop := forallb isspace ws = true.

(** What [collapse_spaces] writes for a whitespace character that is
    followed by [n]. *)
Definition space_then (n : pystr) : pystr :=
  match n with
  | d :: _ => if isspace d then collapse_spaces n else ord " " :: collapse_spaces n
  | [] => [ord " "]
  end.

(** * Lemmas and theorems *)

(** ** The prune engine *)

(** Induction on a folder, with the hypothesis for the folders among its
    children. *)
Lemma Folder_nested_ind (P : Folder → Prop) :
  (∀ n a cs,
     Forall (λ c, match c with NFolder g => P g | NBookmark _ => True end) cs →
     P (mkFolder n a cs)) →
  ∀ f, P f.
Proof.
  intros IH. fix rec 1. intros [n a cs]. apply IH.
  induction cs as [|[b|g] cs IHcs]; constructor; auto.
Qed.

Lemma select_ext {A} (k1 k2 : nat → bool) (l : list A) :
  (∀ i, (i < length l)%nat → k1 i = k2 i) → select k1 l = select k2 l.
Proof.
  revert k1 k2. induction l as [|x l IH]; intros k1 k2 E; [done|]. simpl.
  rewrite (E 0%nat) by (simpl; lia). f_equal. apply IH. intros i Hi. apply E. simpl. lia.
Qed.

Lemma select_app {A} (keep : nat → bool) (l1 l2 : list A) :
  select keep (l1 ++ l2) = select keep l1 ++ select (λ i, keep (length l1 + i)%nat) l2.
Proof.
  revert keep. induction l1 as [|x l1 IH]; intros keep; simpl.
  - done.
  - rewrite IH, <-app_assoc. done.
Qed.

Lemma select_length_le {A} keep (l : list A) : (length (select keep l) ≤ length l)%nat.
Proof.
  revert keep; induction l as [|x l IH]; intros keep; simpl; [done|].
  rewrite length_app. specialize (IH (keep ∘ S)). destruct (keep 0%nat); simpl; lia.
Qed.

Lemma doc_bookmarks_cons_b n a b cs :
  doc_bookmarks (mkFolder n a (NBookmark b :: cs)) = b :: doc_bookmarks (mkFolder n a cs).
Proof. done. Qed.
Lemma doc_bookmarks_cons_f n a g cs :
  doc_bookmarks (mkFolder n a (NFolder g :: cs)) = doc_bookmarks g ++ doc_bookmarks (mkFolder n a cs).
Proof. done. Qed.

Lemma nodes_bookmarks_cons_b rec b cs :
  nodes_bookmarks rec (NBookmark b :: cs) = b :: nodes_bookmarks rec cs.
Proof. done. Qed.
Lemma nodes_bookmarks_cons_f rec g cs :
  nodes_bookmarks rec (NFolder g :: cs) = rec g ++ nodes_bookmarks rec cs.
Proof. done. Qed.

Lemma nodes_folders_cons_f rec g cs :
  nodes_folders rec (NFolder g :: cs) = (g :: rec g) ++ nodes_folders rec cs.
Proof. done. Qed.

Lemma structural_children_ext k1 k2 cs :
  Forall (λ c, match c with
     | NFolder g => ∀ k1 k2, (∀ i, (i < length (doc_bookmarks g))%nat → k1 i = k2 i) →
                      structural_prune k1 g = structural_prune k2 g
     | NBookmark _ => True end) cs →
  (∀ i, (i < length (nodes_bookmarks doc_bookmarks cs))%nat → k1 i = k2 i) →
  structural_children structural_prune k1 cs = structural_children structural_prune k2 cs.
Proof.
  intros Hall. revert k1 k2. induction Hall as [|[b|g] cs Hg Hall IH]; intros k1 k2 E; [done|..].
  - rewrite nodes_bookmarks_cons_b in E. simpl in *.
    rewrite (E 0%nat) by lia. f_equal.
    apply IH. intros i Hi. apply E. lia.
  - rewrite nodes_bookmarks_cons_f, length_app in E. simpl.
    rewrite (Hg k1 k2) by (intros; apply E; lia). f_equal.
    apply IH. intros i Hi. apply E. lia.
Qed.

Lemma structural_prune_ext f : ∀ k1 k2,
  (∀ i, (i < length (doc_bookmarks f))%nat → k1 i = k2 i) →
  structural_prune k1 f = structural_prune k2 f.
Proof.
  induction f as [n a cs IH] using Folder_nested_ind. intros k1 k2 E. simpl.
  f_equal. by apply structural_children_ext.
Qed.

Lemma structural_children_ext' k1 k2 cs :
  (∀ i, (i < length (nodes_bookmarks doc_bookmarks cs))%nat → k1 i = k2 i) →
  structural_children structural_prune k1 cs = structural_children structural_prune k2 cs.
Proof.
  apply structural_children_ext. apply Forall_forall. intros [b|g] _; [done|].
  apply structural_prune_ext.
Qed.

Lemma is_empty_true {A} (l : list A) : is_empty l = true ↔ l = [].
Proof. by destruct l. Qed.
Lemma is_empty_false {A} (l : list A) : is_empty l = false ↔ l ≠ [].
Proof. by destruct l. Qed.

Lemma survives_true seen keys i :
  survives seen keys i = true ↔
  ∃ k, keys !! i = Some k ∧ k ≠ [] ∧ k ∉ seen ∧ k ∉ take i keys.
Proof.
  unfold survives. destruct (keys !! i) as [k|]; [|naive_solver].
  rewrite !andb_true_iff, !negb_true_iff, !bool_decide_eq_false, is_empty_false.
  naive_solver.
Qed.

Lemma elem_of_see k' seen k :
  k' ∈ see seen k ↔ k' ∈ seen ∨ (k' = k ∧ k ≠ []).
Proof.
  unfold see. destruct (is_empty k) eqn:Ek; simpl.
  { apply is_empty_true in Ek. naive_solver. }
  apply is_empty_false in Ek.
  destruct (bool_decide (k ∈ seen)) eqn:Es; simpl.
  - apply bool_decide_eq_true in Es. naive_solver.
  - rewrite elem_of_union, elem_of_singleton. naive_solver.
Qed.

Lemma survives_0 seen k ks :
  survives seen (k :: ks) 0 = negb (is_empty k) && negb (bool_decide (k ∈ seen)).
Proof. unfold survives. simpl. by rewrite andb_true_r. Qed.

Lemma survives_S seen k ks i :
  survives seen (k :: ks) (S i) = survives (see seen k) ks i.
Proof.
  apply eq_true_iff_eq. rewrite !survives_true.
  change ((k :: ks) !! S i) with (ks !! i).
  change (take (S i) (k :: ks)) with (k :: take i ks).
  split; intros (ki & ? & ? & ? & Hn); exists ki.
  - rewrite elem_of_see. rewrite elem_of_cons in Hn. naive_solver.
  - rewrite elem_of_see in *. rewrite elem_of_cons. naive_solver.
Qed.

Lemma survives_app_r seen ks1 ks2 i :
  survives seen (ks1 ++ ks2) (length ks1 + i) = survives (seen_after seen ks1) ks2 i.
Proof.
  revert seen. induction ks1 as [|k ks1 IH]; intros seen; [done|].
  simpl. by rewrite survives_S, IH.
Qed.

Lemma survives_app_l seen ks1 ks2 i :
  (i < length ks1)%nat → survives seen (ks1 ++ ks2) i = survives seen ks1 i.
Proof.
  intros Hi. unfold survives. rewrite lookup_app_l by done.
  rewrite take_app_le by lia. done.
Qed.

Lemma seen_after_app seen ks1 ks2 :
  seen_after seen (ks1 ++ ks2) = seen_after (seen_after seen ks1) ks2.
Proof. apply foldl_app. Qed.

Arguments nodes_bookmarks : simpl never.
Arguments nodes_folders : simpl never.
Arguments structural_children : simpl never.
Arguments prune_loop : simpl never.

Lemma structural_children_cons_b rec keep b cs :
  structural_children rec keep (NBookmark b :: cs)
  = (if keep 0%nat then [NBookmark b] else []) ++ structural_children rec (keep ∘ S) cs.
Proof. done. Qed.
Lemma structural_children_cons_f rec keep g cs :
  structural_children rec keep (NFolder g :: cs)
  = (if is_empty (children (rec keep g)) then [] else [NFolder (rec keep g)])
    ++ structural_children rec (λ i, keep (length (doc_bookmarks g) + i)%nat) cs.
Proof. done. Qed.

Section prune.
Context `{PyEnv}.

Lemma prune_loop_cons_b rec b cs new seen stats :
  prune_loop rec (NBookmark b :: cs) new seen stats
  = if negb (is_empty (key b)) && negb (bool_decide (key b ∈ seen))
    then prune_loop rec cs (new ++ [NBookmark b]) ({[key b]} ∪ seen) (kept1 stats)
    else prune_loop rec cs new seen (removed1 stats).
Proof. done. Qed.
Lemma prune_loop_cons_f rec g cs new seen stats :
  prune_loop rec (NFolder g :: cs) new seen stats
  = let '(pruned, seen, stats) := rec g seen stats in
    match pruned with
    | Some p =>
        if negb (is_empty (children p))
        then prune_loop rec cs (new ++ [NFolder p]) seen stats
        else prune_loop rec cs new seen (pruned1 stats)
    | None => prune_loop rec cs new seen (pruned1 stats)
    end.
Proof. done. Qed.

Lemma prune_loop_spec cs :
  Forall (λ c, match c with NFolder g => folder_spec g | NBookmark _ => True end) cs →
  loop_spec cs.
Proof.
  induction 1 as [|[b|g] cs Hg Hall IH]; intros new seen stats.
  - simpl. rewrite app_nil_r. done.
  - (* a bookmark *)
    unfold keys_of. rewrite nodes_bookmarks_cons_b, fmap_cons. fold (keys_of cs).
    rewrite structural_children_cons_b, survives_0.
    rewrite (structural_children_ext' (_ ∘ S) (survives (see seen (key b)) (keys_of cs)))
      by (intros; apply survives_S).
    rewrite prune_loop_cons_b. unfold seen_after. cbn [foldl]. fold (seen_after (see seen (key b)) (keys_of cs)).
    unfold see.
    destruct (negb (is_empty (key b)) && negb (bool_decide (key b ∈ seen))) eqn:E.
    + specialize (IH (new ++ [NBookmark b]) ({[key b]} ∪ seen) (kept1 stats)).
      cbv zeta in IH. destruct IH as (-> & -> & -> & IH4 & IH5).
      rewrite <-app_assoc. cbn [app]. rewrite !nodes_bookmarks_cons_b. simpl in *.
      repeat split; try done; lia.
    + specialize (IH new seen (removed1 stats)).
      cbv zeta in IH. destruct IH as (-> & -> & -> & IH4 & IH5).
      rewrite ?nodes_bookmarks_cons_b. simpl in *. repeat split; try done; lia.
  - (* a folder *)
    unfold keys_of. rewrite nodes_bookmarks_cons_f, fmap_app. fold (keys_of cs).
    rewrite structural_children_cons_f, prune_loop_cons_f.
    specialize (Hg seen stats). cbv zeta in Hg.
    destruct (prune_and_dedupe g seen stats) as [[p seen1] stats1].
    simpl in Hg. destruct Hg as (-> & -> & Hk & Hr & Hp).
    rewrite (structural_prune_ext g (survives seen ((key <$> doc_bookmarks g) ++ keys_of cs))
               (survives seen (key <$> doc_bookmarks g)))
      by (intros i Hi; apply survives_app_l; by rewrite length_fmap).
    set (g' := structural_prune _ g) in *.
    rewrite (structural_children_ext' _
               (survives (seen_after seen (key <$> doc_bookmarks g)) (keys_of cs))).
    2:{ intros i _. rewrite <-survives_app_r. by rewrite length_fmap. }
    rewrite seen_after_app. rewrite ?nodes_folders_cons_f, ?nodes_bookmarks_cons_f.
    destruct (is_empty (children g')) eqn:E; cbn [negb].
    + specialize (IH new (seen_after seen (key <$> doc_bookmarks g)) (pruned1 stats1)).
      cbv zeta in IH. destruct IH as (-> & -> & -> & IH4 & IH5).
      assert (doc_bookmarks g' = [] ∧ subfolders g' = []) as [Eb Ef].
      { destruct g' as [? ? [|? ?]]; done. }
      rewrite Eb, Ef in *. simpl in *.
      simpl; rewrite ?length_app; simpl; rewrite ?length_app. repeat split; try done; lia.
    + specialize (IH (new ++ [NFolder g']) (seen_after seen (key <$> doc_bookmarks g)) stats1).
      cbv zeta in IH. destruct IH as (-> & -> & -> & IH4 & IH5).
      rewrite <-app_assoc. cbn [app].
      rewrite ?nodes_bookmarks_cons_f, ?nodes_folders_cons_f.
      simpl; rewrite ?length_app; simpl; rewrite ?length_app. repeat split; try done; lia.
Qed.

Lemma prune_folder_spec f : folder_spec f.
Proof.
  induction f as [n a cs IH] using Folder_nested_ind. intros seen stats.
  pose proof (prune_loop_spec cs IH [] seen stats) as L. cbv zeta in L.
  cbn [prune_and_dedupe].
  destruct (prune_loop prune_and_dedupe cs [] seen stats) as [[nc seen1] stats1].
  simpl in L. destruct L as (-> & -> & Hk & Hr & Hp). simpl. done.
Qed.
End prune.

Lemma nodes_bookmarks_app rec cs1 cs2 :
  nodes_bookmarks rec (cs1 ++ cs2) = nodes_bookmarks rec cs1 ++ nodes_bookmarks rec cs2.
Proof. unfold nodes_bookmarks. by rewrite fmap_app, concat_app. Qed.
Lemma nodes_folders_app rec cs1 cs2 :
  nodes_folders rec (cs1 ++ cs2) = nodes_folders rec cs1 ++ nodes_folders rec cs2.
Proof. unfold nodes_folders. by rewrite fmap_app, concat_app. Qed.

Lemma structural_children_bookmarks keep cs :
  Forall (λ c, match c with
     | NFolder g => ∀ keep, doc_bookmarks (structural_prune keep g) = select keep (doc_bookmarks g)
     | NBookmark _ => True end) cs →
  nodes_bookmarks doc_bookmarks (structural_children structural_prune keep cs)
  = select keep (nodes_bookmarks doc_bookmarks cs).
Proof.
  intros Hall. revert keep. induction Hall as [|[b|g] cs Hg Hall IH]; intros keep; [done|..].
  - rewrite structural_children_cons_b, nodes_bookmarks_app, IH, nodes_bookmarks_cons_b.
    simpl. by destruct (keep 0%nat).
  - rewrite structural_children_cons_f, nodes_bookmarks_app, IH, nodes_bookmarks_cons_f.
    rewrite select_app. f_equal. specialize (Hg keep).
    destruct (is_empty _) eqn:E; [|by rewrite nodes_bookmarks_cons_f, app_nil_r].
    rewrite <-Hg. destruct (structural_prune keep g) as [? ? [|? ?]]; done.
Qed.

Lemma structural_prune_bookmarks keep f :
  doc_bookmarks (structural_prune keep f) = select keep (doc_bookmarks f).
Proof.
  revert keep. induction f as [n a cs IH] using Folder_nested_ind. intros keep.
  simpl. by apply structural_children_bookmarks.
Qed.

Lemma nonempty_folder_has_bookmark f :
  Forall (λ h, children h ≠ []) (subfolders f) → children f ≠ [] → doc_bookmarks f ≠ [].
Proof.
  induction f as [n a cs IH] using Folder_nested_ind. simpl. intros Hsub Hc.
  destruct cs as [|[b|g] cs]; [done|done|].
  rewrite nodes_bookmarks_cons_f. rewrite nodes_folders_cons_f in Hsub.
  apply Forall_app in Hsub as [Hg _]. apply Forall_cons in Hg as [Hg1 Hg2].
  apply Forall_cons in IH as [IHg _]. specialize (IHg Hg2 Hg1).
  destruct (doc_bookmarks g); done.
Qed.

Lemma structural_children_nonempty keep cs :
  Forall (λ c, match c with
     | NFolder g => ∀ keep,
         Forall (λ h, children h ≠ [] ∧ doc_bookmarks h ≠ [])
                (subfolders (structural_prune keep g))
     | NBookmark _ => True end) cs →
  Forall (λ h, children h ≠ [] ∧ doc_bookmarks h ≠ [])
    (nodes_folders subfolders (structural_children structural_prune keep cs)).
Proof.
  intros Hall. revert keep. induction Hall as [|[b|g] cs Hg Hall IH]; intros keep.
  - constructor.
  - rewrite structural_children_cons_b, nodes_folders_app. apply Forall_app. split; [|apply IH].
    destruct (keep 0%nat); constructor.
  - rewrite structural_children_cons_f, nodes_folders_app. apply Forall_app. split; [|apply IH].
    destruct (is_empty _) eqn:E; [constructor|].
    rewrite nodes_folders_cons_f, app_nil_r. apply is_empty_false in E.
    constructor; [|apply Hg]. split; [done|].
    apply nonempty_folder_has_bookmark; [|done].
    eapply Forall_impl; [apply Hg|]. by intros h [? _].
Qed.

(** No folder of the pruned tree is empty. *)
Lemma structural_prune_nonempty keep f :
  Forall (λ h, children h ≠ [] ∧ doc_bookmarks h ≠ []) (subfolders (structural_prune keep f)).
Proof.
  revert keep. induction f as [n a cs IH] using Folder_nested_ind. intros keep.
  simpl. by apply structural_children_nonempty.
Qed.

(** A folder keeps a child exactly when a bookmark below it stays. *)
Lemma structural_prune_children keep f :
  children (structural_prune keep f) ≠ [] ↔ select keep (doc_bookmarks f) ≠ [].
Proof.
  rewrite <-structural_prune_bookmarks. split.
  - apply nonempty_folder_has_bookmark.
    eapply Forall_impl; [apply structural_prune_nonempty|]. by intros h [? _].
  - intros Hb Hc. apply Hb. destruct (structural_prune keep f) as [n a cs].
    simpl in Hc. by subst cs.
Qed.

Section first_occ.
Context `{PyEnv}.

Lemma first_occurrences_cons seen b l :
  first_occurrences seen (b :: l)
  = (if negb (is_empty (key b)) && negb (bool_decide (key b ∈ seen)) then [b] else [])
    ++ first_occurrences (see seen (key b)) l.
Proof.
  unfold first_occurrences. rewrite fmap_cons. cbn [select]. rewrite survives_0.
  f_equal. apply select_ext. intros i _. apply survives_S.
Qed.

Lemma first_occurrences_app seen l1 l2 :
  first_occurrences seen (l1 ++ l2)
  = first_occurrences seen l1 ++ first_occurrences (seen_after seen (key <$> l1)) l2.
Proof.
  unfold first_occurrences. rewrite fmap_app, select_app. f_equal.
  - apply select_ext. intros i Hi. apply survives_app_l. by rewrite length_fmap.
  - apply select_ext. intros i _. rewrite <-survives_app_r. by rewrite length_fmap.
Qed.

(** Of the bookmarks with a given non-empty key, the first one is the
    only survivor. *)
Lemma first_occurrences_filter seen l k :
  k ≠ [] →
  filter (λ b, key b = k) (first_occurrences seen l)
  = if bool_decide (k ∈ seen) then []
    else match list_find (λ b, key b = k) l with
         | Some (_, b) => [b]
         | None => []
         end.
Proof.
  intros Hk. revert seen. induction l as [|b l IH]; intros seen.
  { by destruct (bool_decide _). }
  rewrite first_occurrences_cons, filter_app, IH. cbn [list_find].
  destruct (decide (key b = k)) as [Eb|Eb].
  - subst k. apply is_empty_false in Hk. rewrite Hk. cbn [negb andb].
    destruct (decide (key b ∈ seen)) as [Es|Es].
    + repeat rewrite (bool_decide_eq_true_2 (key b ∈ seen)) by done. cbn [negb].
      rewrite bool_decide_eq_true_2; [by rewrite filter_nil|]. apply elem_of_see. by left.
    + repeat rewrite (bool_decide_eq_false_2 (key b ∈ seen)) by done. cbn [negb].
      rewrite bool_decide_eq_true_2.
      2:{ apply elem_of_see. right. split; [done|]. by apply is_empty_false. }
      rewrite filter_cons_True by done. by rewrite filter_nil.
  - assert (filter (λ b0, key b0 = k)
              (if negb (is_empty (key b)) && negb (bool_decide (key b ∈ seen))
               then [b] else []) = []) as ->.
    { destruct (_ && _); [|done]. by rewrite filter_cons_False. }
    cbn [app]. rewrite (bool_decide_ext (k ∈ see seen (key b)) (k ∈ seen)).
    2:{ rewrite elem_of_see. naive_solver. }
    destruct (decide (k ∈ seen)) as [Es|Es].
    + by repeat rewrite (bool_decide_eq_true_2 (k ∈ seen)) by done.
    + repeat rewrite (bool_decide_eq_false_2 (k ∈ seen)) by done.
      destruct (list_find _ l) as [[i b']|]; done.
Qed.

Lemma first_occurrences_nonempty_key seen l :
  Forall (λ b, key b ≠ []) (first_occurrences seen l).
Proof.
  revert seen. induction l as [|b l IH]; intros seen; [constructor|].
  rewrite first_occurrences_cons. apply Forall_app. split; [|apply IH].
  destruct (is_empty (key b)) eqn:E; [constructor|].
  destruct (negb _ && _); constructor; [by apply is_empty_false|constructor].
Qed.

Lemma first_occurrences_length seen l :
  (length (first_occurrences seen l) + length (filter (λ b, key b = []) l) ≤ length l)%nat.
Proof.
  revert seen. induction l as [|b l IH]; intros seen; [done|].
  rewrite first_occurrences_cons, length_app. specialize (IH (see seen (key b))).
  destruct (decide (key b = [])) as [E|E].
  - rewrite filter_cons_True by done. rewrite E in IH |- *. simpl. lia.
  - rewrite filter_cons_False by done. destruct (_ && _); simpl; lia.
Qed.
End first_occ.

(** ** The flatten engine *)

Arguments walk_loop : simpl never.

Lemma dict_get_set_eq k b d : dict_get k (dict_set k b d) = Some b.
Proof.
  induction d as [|[k' b'] d IH]; simpl.
  - by rewrite bool_decide_eq_true_2.
  - destruct (decide (k' = k)) as [->|Hne].
    + rewrite bool_decide_eq_true_2 by done. simpl. by rewrite bool_decide_eq_true_2.
    + rewrite bool_decide_eq_false_2 by done. simpl. by rewrite bool_decide_eq_false_2.
Qed.

Lemma dict_get_set_ne k k' b d : k ≠ k' → dict_get k (dict_set k' b d) = dict_get k d.
Proof.
  intros Hne. induction d as [|[k1 b1] d IH]; simpl.
  - by rewrite bool_decide_eq_false_2.
  - destruct (decide (k1 = k')) as [->|Hne'].
    + rewrite bool_decide_eq_true_2 by done. simpl. by rewrite !bool_decide_eq_false_2.
    + rewrite (bool_decide_eq_false_2 (k1 = k')) by done. simpl. by rewrite IH.
Qed.

Lemma dict_get_None k d : dict_get k d = None ↔ k ∉ d.*1.
Proof.
  induction d as [|[k1 b1] d IH]; simpl.
  - split; [intros _; apply not_elem_of_nil|done].
  - rewrite not_elem_of_cons. destruct (decide (k1 = k)) as [->|Hne].
    + rewrite bool_decide_eq_true_2 by done. naive_solver.
    + rewrite bool_decide_eq_false_2 by done. naive_solver.
Qed.

Lemma dict_keys_set k b d :
  (dict_set k b d).*1 = if bool_decide (k ∈ d.*1) then d.*1 else d.*1 ++ [k].
Proof.
  induction d as [|[k1 b1] d IH].
  - done.
  - cbn [dict_set]. destruct (decide (k1 = k)) as [->|Hne].
    + rewrite bool_decide_eq_true_2 by done. rewrite !fmap_cons. cbn [fst].
      by rewrite bool_decide_eq_true_2 by apply list_elem_of_here.
    + rewrite bool_decide_eq_false_2 by done. rewrite !fmap_cons. cbn [fst]. rewrite IH.
      rewrite (bool_decide_ext (k ∈ k1 :: d.*1) (k ∈ d.*1)).
      2:{ rewrite elem_of_cons. naive_solver. }
      by destruct (bool_decide (k ∈ d.*1)).
Qed.

Section flat.
Context `{PyEnv}.

Lemma norm_folder_name_nil : norm_folder_name [] = [].
Proof.
  unfold norm_folder_name. simpl. rewrite (str_lower_ascii []) by done. done.
Qed.

Lemma merge_unfold f ob : merge f ob = fill f (default (fresh_bucket f) ob).
Proof. done. Qed.

Lemma merge_some f b : merge f (Some b) = fill f b.
Proof. done. Qed.
Lemma merge_none f : merge f None = fill f (fresh_bucket f).
Proof. done. Qed.

Lemma add_folder_unfold bs f :
  add_folder bs f
  = match dict_get (bucket_key (name f)) bs with
    | Some b => dict_set (bucket_key (name f)) (fill f b) bs
    | None =>
        dict_set (bucket_key (name f)) (fill f (fresh_bucket f))
          (dict_set (bucket_key (name f)) (fresh_bucket f) bs)
    end.
Proof.
  unfold add_folder, add_to_bucket.
  cbv beta iota zeta delta [default from_option id].
  change (if is_empty (norm_folder_name (name f)) then unsorted_key
          else norm_folder_name (name f)) with (bucket_key (name f)).
  destruct (dict_get (bucket_key (name f)) bs) as [b|] eqn:E.
  - cbv beta iota. rewrite E. unfold fill. by destruct (is_empty (h3_attrs b)).
  - cbv beta iota. rewrite dict_get_set_eq. unfold fill, fresh_bucket. cbn [h3_attrs display_name bookmarks].
    by destruct (is_empty (fattrs f)).
Qed.

Lemma add_folder_get_eq bs f :
  dict_get (bucket_key (name f)) (add_folder bs f)
  = Some (merge f (dict_get (bucket_key (name f)) bs)).
Proof.
  rewrite add_folder_unfold, merge_unfold.
  destruct (dict_get (bucket_key (name f)) bs) as [b|] eqn:E;
    by rewrite dict_get_set_eq.
Qed.

Lemma add_folder_get_ne bs f k :
  k ≠ bucket_key (name f) → dict_get k (add_folder bs f) = dict_get k bs.
Proof.
  intros Hne. rewrite add_folder_unfold.
  destruct (dict_get (bucket_key (name f)) bs) as [b|] eqn:E;
    by rewrite !dict_get_set_ne.
Qed.

Lemma add_folder_keys bs f :
  (add_folder bs f).*1
  = if bool_decide (bucket_key (name f) ∈ bs.*1) then bs.*1
    else bs.*1 ++ [bucket_key (name f)].
Proof.
  rewrite add_folder_unfold.
  destruct (dict_get (bucket_key (name f)) bs) as [b|] eqn:E.
  - rewrite dict_keys_set. by destruct (bool_decide _).
  - rewrite !dict_keys_set.
    apply dict_get_None in E. rewrite (bool_decide_eq_false_2 _ E).
    rewrite bool_decide_eq_true_2; [done|]. apply elem_of_app. right. apply list_elem_of_here.
Qed.

Lemma walk_loop_foldl cs bs :
  Forall (λ c, match c with
     | NFolder g => ∀ bs, walk false g bs = foldl add_folder bs (g :: subfolders g)
     | NBookmark _ => True end) cs →
  walk_loop (walk false) cs bs = foldl add_folder bs (nodes_folders subfolders cs).
Proof.
  intros Hall. revert bs. induction Hall as [|[b|g] cs Hg Hall IH]; intros bs; [done|..].
  - apply IH.
  - rewrite nodes_folders_cons_f, foldl_app, <-Hg. apply IH.
Qed.

Lemma walk_false_foldl f bs :
  walk false f bs = foldl add_folder bs (f :: subfolders f).
Proof.
  revert bs. induction f as [n a cs IH] using Folder_nested_ind. intros bs.
  cbn [walk negb]. by rewrite walk_loop_foldl.
Qed.

Lemma collect_flat_buckets_foldl root :
  collect_flat_buckets root
  = foldl add_folder
      [(unsorted_key, mkBucket (py "Unsorted") (bookmarks_of (children root)) [])]
      (subfolders root).
Proof.
  destruct root as [n a cs]. unfold collect_flat_buckets. cbn [walk negb].
  rewrite walk_loop_foldl.
  2:{ apply Forall_forall. intros [b|g] _; [done|]. intros. apply walk_false_foldl. }
  f_equal. unfold add_to_bucket.
  cbv beta iota zeta delta [default from_option id]. rewrite norm_folder_name_nil. done.
Qed.

Lemma foldl_add_keys bs fs :
  (foldl add_folder bs fs).*1
  = foldl (λ acc k, if bool_decide (k ∈ acc) then acc else acc ++ [k])
          bs.*1 ((λ f, bucket_key (name f)) <$> fs).
Proof.
  revert bs. induction fs as [|f fs IH]; intros bs; [done|].
  cbn [foldl fmap list_fmap]. rewrite IH, add_folder_keys. done.
Qed.

Lemma foldl_add_get bs fs k :
  dict_get k (foldl add_folder bs fs)
  = foldl (λ ob f, Some (merge f ob)) (dict_get k bs)
          (List.filter (λ f, bool_decide (bucket_key (name f) = k)) fs).
Proof.
  revert bs. induction fs as [|f fs IH]; intros bs; [done|].
  cbn [foldl List.filter]. rewrite IH.
  destruct (decide (bucket_key (name f) = k)) as [<-|Hne].
  - rewrite bool_decide_eq_true_2 by done. cbn [foldl]. by rewrite add_folder_get_eq.
  - rewrite bool_decide_eq_false_2 by done. by rewrite add_folder_get_ne.
Qed.

Lemma first_attrs_cons f fs :
  first_attrs (f :: fs) = if is_empty (fattrs f) then first_attrs fs else fattrs f.
Proof.
  unfold first_attrs. cbn [list_find].
  destruct (fattrs f) as [|x a] eqn:E; cbn [is_empty].
  - rewrite decide_False by naive_solver.
    destruct (list_find _ fs) as [[i g]|]; done.
  - rewrite decide_True by done. done.
Qed.

Lemma foldl_merge_some b0 fs :
  foldl (λ ob f, Some (merge f ob)) (Some b0) fs
  = Some (mkBucket (display_name b0)
            (bookmarks b0 ++ concat (direct <$> fs))
            (if is_empty (h3_attrs b0) then first_attrs fs else h3_attrs b0)).
Proof.
  revert b0. induction fs as [|f fs IH]; intros b0.
  - cbn [foldl fmap list_fmap concat]. rewrite app_nil_r. destruct b0 as [d b a].
    cbn. by destruct a.
  - cbn [foldl]. rewrite merge_some, IH.
    unfold fill. cbn [display_name bookmarks h3_attrs].
    rewrite fmap_cons. cbn [concat]. rewrite <-app_assoc.
    rewrite first_attrs_cons. do 2 f_equal.
    destruct (h3_attrs b0) as [|x a]; cbn [is_empty]; [|done].
    by destruct (fattrs f).
Qed.

Lemma foldl_merge_none f fs :
  foldl (λ ob f, Some (merge f ob)) None (f :: fs)
  = Some (mkBucket (if is_empty (name f) then py "Unsorted" else name f)
            (concat (direct <$> (f :: fs))) (first_attrs (f :: fs))).
Proof.
  cbn [foldl]. rewrite foldl_merge_some, merge_none.
  unfold fill, fresh_bucket. cbn [display_name bookmarks h3_attrs app].
  rewrite first_attrs_cons. by destruct (fattrs f).
Qed.

Lemma bucket_key_nil_name f k :
  bucket_key (name f) = k → k ≠ unsorted_key → is_empty (name f) = false.
Proof.
  intros <- Hne. destruct (name f); [|done]. exfalso. apply Hne.
  unfold bucket_key. by rewrite norm_folder_name_nil.
Qed.

Lemma folders_of_bucket_key k root f :
  f ∈ folders_of_bucket k root → bucket_key (name f) = k.
Proof.
  unfold folders_of_bucket. rewrite list_elem_of_In, filter_In.
  intros [_ E]. by apply bool_decide_eq_true in E.
Qed.

(** One bucket per key, in the order of discovery. *)
Lemma collect_keys root :
  (collect_flat_buckets root).*1
  = discovery_order ((λ f, bucket_key (name f)) <$> subfolders root).
Proof. rewrite collect_flat_buckets_foldl, foldl_add_keys. done. Qed.

Lemma collect_get_unsorted root :
  dict_get unsorted_key (collect_flat_buckets root)
  = Some (mkBucket (py "Unsorted")
            (direct root ++ concat (direct <$> folders_of_bucket unsorted_key root))
            (first_attrs (folders_of_bucket unsorted_key root))).
Proof.
  rewrite collect_flat_buckets_foldl, foldl_add_get. cbn [dict_get].
  rewrite bool_decide_eq_true_2 by done. by rewrite foldl_merge_some.
Qed.

Lemma collect_get_named root k f fs :
  k ≠ unsorted_key → folders_of_bucket k root = f :: fs →
  dict_get k (collect_flat_buckets root)
  = Some (mkBucket (name f) (concat (direct <$> (f :: fs))) (first_attrs (f :: fs))).
Proof.
  intros Hne E. rewrite collect_flat_buckets_foldl, foldl_add_get. cbn [dict_get].
  rewrite bool_decide_eq_false_2 by done. fold (folders_of_bucket k root).
  rewrite E, foldl_merge_none.
  rewrite (bucket_key_nil_name f k); [done| |done].
  apply (folders_of_bucket_key k root). rewrite E. apply list_elem_of_here.
Qed.

Lemma collect_get_none root k :
  k ≠ unsorted_key → folders_of_bucket k root = [] →
  dict_get k (collect_flat_buckets root) = None.
Proof.
  intros Hne E. rewrite collect_flat_buckets_foldl, foldl_add_get. cbn [dict_get].
  rewrite bool_decide_eq_false_2 by done. fold (folders_of_bucket k root).
  by rewrite E.
Qed.
End flat.

Section dedupe.
Context `{PyEnv}.

Lemma dedupe_list_spec bms : ∀ new seen stats,
  let r := dedupe_list bms new seen stats in
  r.1.1 = new ++ first_occurrences seen bms ∧
  r.1.2 = seen_after seen (key <$> bms) ∧
  flat_kept r.2 = (flat_kept stats + length (first_occurrences seen bms))%nat ∧
  (flat_removed r.2 + length (first_occurrences seen bms)
    = flat_removed stats + length bms)%nat ∧
  folders_total r.2 = folders_total stats.
Proof.
  induction bms as [|bm bms IH]; intros new seen stats.
  - simpl. rewrite app_nil_r. unfold first_occurrences. simpl. repeat split; lia.
  - cbn [dedupe_list]. fold (key bm). rewrite first_occurrences_cons.
    rewrite fmap_cons. unfold seen_after. cbn [foldl].
    fold (seen_after (see seen (key bm)) (key <$> bms)). unfold see.
    destruct (negb (is_empty (key bm)) && negb (bool_decide (key bm ∈ seen))) eqn:E.
    + specialize (IH (new ++ [bm]) ({[key bm]} ∪ seen)
                    (mkFlatStats (flat_kept stats + 1) (flat_removed stats)
                                 (folders_total stats))).
      cbv zeta in IH. destruct IH as (-> & -> & -> & IH4 & ->).
      rewrite <-app_assoc. simpl in *. repeat split; try done; lia.
    + specialize (IH new seen
                    (mkFlatStats (flat_kept stats) (flat_removed stats + 1)
                                 (folders_total stats))).
      cbv zeta in IH. destruct IH as (-> & -> & -> & IH4 & ->).
      simpl in *. repeat split; try done; lia.
Qed.

Lemma all_bookmarks_cons k b bs :
  all_bookmarks ((k, b) :: bs) = bookmarks b ++ all_bookmarks bs.
Proof. done. Qed.

Lemma all_bookmarks_app bs1 bs2 :
  all_bookmarks (bs1 ++ bs2) = all_bookmarks bs1 ++ all_bookmarks bs2.
Proof. unfold all_bookmarks. by rewrite fmap_app, concat_app. Qed.

Lemma dedupe_buckets_spec bs : ∀ seen stats,
  let r := dedupe_buckets bs seen stats in
  r.1.1 = buckets_survivors seen bs ∧
  r.1.2 = seen_after seen (key <$> all_bookmarks bs) ∧
  flat_kept r.2 = (flat_kept stats + length (all_bookmarks r.1.1))%nat ∧
  (flat_removed r.2 + length (all_bookmarks r.1.1)
    = flat_removed stats + length (all_bookmarks bs))%nat ∧
  folders_total r.2 = (folders_total stats + nonempty_buckets r.1.1)%nat.
Proof.
  induction bs as [|[k b] bs IH]; intros seen stats.
  - cbn. repeat split; try done; lia.
  - cbn [dedupe_buckets buckets_survivors].
    pose proof (dedupe_list_spec (bookmarks b) [] seen stats) as L. cbv zeta in L.
    destruct (dedupe_list (bookmarks b) [] seen stats) as [[nl seen1] stats1].
    simpl in L. destruct L as (-> & -> & Lk & Lr & Lt).
    cbn [bookmarks display_name h3_attrs].
    set (stats2 := if negb (is_empty (first_occurrences seen (bookmarks b)))
                   then _ else stats1).
    specialize (IH (seen_after seen (key <$> bookmarks b)) stats2). cbv zeta in IH.
    destruct (dedupe_buckets bs _ stats2) as [[rest seen2] stats3].
    simpl in IH. destruct IH as (-> & -> & IHk & IHr & IHt).
    cbn [fst snd]. rewrite !all_bookmarks_cons, fmap_app, seen_after_app, !length_app.
    cbn [bookmarks]. unfold nonempty_buckets in *. cbn [List.filter snd bookmarks].
    assert (flat_kept stats2 = flat_kept stats1 ∧ flat_removed stats2 = flat_removed stats1
            ∧ folders_total stats2
              = (folders_total stats1
                 + if negb (is_empty (first_occurrences seen (bookmarks b)))
                   then 1 else 0)%nat) as (E1 & E2 & E3).
    { unfold stats2. destruct (negb _); simpl; repeat split; lia. }
    destruct (negb (is_empty (first_occurrences seen (bookmarks b)))); simpl;
      repeat split; try done; lia.
Qed.

Lemma buckets_survivors_all seen bs :
  all_bookmarks (buckets_survivors seen bs) = first_occurrences seen (all_bookmarks bs).
Proof.
  revert seen. induction bs as [|[k b] bs IH]; intros seen; [done|].
  cbn [buckets_survivors]. rewrite !all_bookmarks_cons, first_occurrences_app, IH. done.
Qed.

End dedupe.

Section permutation.
Context `{PyEnv}.

Lemma bookmarks_of_cons_b b cs : bookmarks_of (NBookmark b :: cs) = b :: bookmarks_of cs.
Proof. done. Qed.
Lemma bookmarks_of_cons_f g cs : bookmarks_of (NFolder g :: cs) = bookmarks_of cs.
Proof. done. Qed.

Lemma nodes_bookmarks_perm cs :
  Forall (λ c, match c with
     | NFolder g => doc_bookmarks g ≡ₚ direct g ++ concat (direct <$> subfolders g)
     | NBookmark _ => True end) cs →
  nodes_bookmarks doc_bookmarks cs
  ≡ₚ bookmarks_of cs ++ concat (direct <$> nodes_folders subfolders cs).
Proof.
  induction 1 as [|[b|g] cs Hg Hall IH]; [done|..].
  - rewrite nodes_bookmarks_cons_b, bookmarks_of_cons_b. simpl. by rewrite IH.
  - rewrite nodes_bookmarks_cons_f, bookmarks_of_cons_f, nodes_folders_cons_f.
    rewrite fmap_app, concat_app, fmap_cons. cbn [concat]. rewrite Hg, IH.
    solve_Permutation.
Qed.

Lemma doc_bookmarks_perm f :
  doc_bookmarks f ≡ₚ direct f ++ concat (direct <$> subfolders f).
Proof.
  induction f as [n a cs IH] using Folder_nested_ind. by apply nodes_bookmarks_perm.
Qed.

Lemma all_bookmarks_set_some k b b' d extra :
  dict_get k d = Some b → bookmarks b' = bookmarks b ++ extra →
  all_bookmarks (dict_set k b' d) ≡ₚ all_bookmarks d ++ extra.
Proof.
  intros Hg Hb. induction d as [|[k1 b1] d IH]; [done|]. simpl in Hg. cbn [dict_set].
  destruct (decide (k1 = k)) as [->|Hne].
  - rewrite bool_decide_eq_true_2 in Hg |- * by done. injection Hg as ->.
    rewrite !all_bookmarks_cons, Hb. solve_Permutation.
  - rewrite bool_decide_eq_false_2 in Hg |- * by done.
    rewrite !all_bookmarks_cons, (IH Hg). by rewrite app_assoc.
Qed.

Lemma all_bookmarks_set_none k b' d :
  dict_get k d = None → all_bookmarks (dict_set k b' d) = all_bookmarks d ++ bookmarks b'.
Proof.
  intros Hg. induction d as [|[k1 b1] d IH].
  - cbn. by rewrite app_nil_r.
  - simpl in Hg. cbn [dict_set]. destruct (decide (k1 = k)) as [->|Hne].
    + by rewrite bool_decide_eq_true_2 in Hg by done.
    + rewrite bool_decide_eq_false_2 in Hg |- * by done.
      rewrite !all_bookmarks_cons, (IH Hg). by rewrite app_assoc.
Qed.

Lemma all_bookmarks_add_folder bs f :
  all_bookmarks (add_folder bs f) ≡ₚ all_bookmarks bs ++ direct f.
Proof.
  rewrite add_folder_unfold. destruct (dict_get _ bs) as [b|] eqn:E.
  - by apply (all_bookmarks_set_some _ b).
  - rewrite (all_bookmarks_set_some _ (fresh_bucket f) _ _ (direct f)).
    + rewrite all_bookmarks_set_none by done. cbn. by rewrite app_nil_r.
    + apply dict_get_set_eq.
    + done.
Qed.

Lemma all_bookmarks_foldl bs fs :
  all_bookmarks (foldl add_folder bs fs) ≡ₚ all_bookmarks bs ++ concat (direct <$> fs).
Proof.
  revert bs. induction fs as [|f fs IH]; intros bs.
  - cbn. by rewrite app_nil_r.
  - cbn [foldl]. rewrite IH, all_bookmarks_add_folder, fmap_cons. cbn [concat].
    by rewrite app_assoc.
Qed.

(** Every bookmark of the tree is in exactly one bucket. *)
Lemma flat_order_perm root : flat_order root ≡ₚ doc_bookmarks root.
Proof.
  unfold flat_order. rewrite collect_flat_buckets_foldl, all_bookmarks_foldl.
  rewrite doc_bookmarks_perm. cbn. by rewrite app_nil_r.
Qed.
End permutation.

(** ** What the two engines return *)

Section theorems.
Context `{PyEnv}.

Lemma run_prune_spec root :
  let out := structural_prune (survives ∅ (key <$> doc_bookmarks root)) root in
  (run_prune root).1 = Some out ∧
  urls_kept (run_prune root).2 = length (doc_bookmarks out) ∧
  (urls_removed (run_prune root).2 + length (doc_bookmarks out)
    = length (doc_bookmarks root))%nat ∧
  (folders_pruned (run_prune root).2 + length (subfolders out)
    = length (subfolders root))%nat.
Proof.
  pose proof (prune_folder_spec root ∅ (mkStats 0 0 0)) as P. cbv zeta in P.
  unfold run_prune. destruct (prune_and_dedupe root ∅ _) as [[p seen] stats].
  simpl in *. destruct P as (-> & _ & -> & ? & ?). done.
Qed.

Lemma survives_first (l : list Bookmark) i b :
  l !! i = Some b →
  survives ∅ (key <$> l) i = true ↔
  key b ≠ [] ∧ ∀ j b', (j < i)%nat → l !! j = Some b' → key b' ≠ key b.
Proof.
  intros Hi. rewrite survives_true. rewrite list_lookup_fmap, Hi. simpl. split.
  - intros (k & [= <-] & Hk & _ & Hn). split; [done|]. intros j b' Hj Hb' E.
    apply Hn. apply list_elem_of_lookup. exists j.
    rewrite lookup_take_lt by done. rewrite list_lookup_fmap, Hb'. simpl. by rewrite E.
  - intros [Hk Hn]. exists (key b). repeat split; [done|apply not_elem_of_empty|].
    intros [j Hj]%list_elem_of_lookup.
    assert (j < i)%nat as Hlt.
    { apply lookup_lt_Some in Hj. rewrite length_take in Hj. lia. }
    rewrite lookup_take_lt, list_lookup_fmap in Hj by done.
    destruct (l !! j) as [b'|] eqn:Eb; [|done]. simpl in Hj. injection Hj as Hj.
    by apply (Hn j b').
Qed.

(** C1: dedupe-and-prune, first occurrence wins.  The prune engine reads
    the bookmarks in document order (depth first, [doc_bookmarks]).  The
    bookmarks of the tree it returns are, in that order, those of the input
    whose key is not empty and is the key of no bookmark before them in the
    document, whatever folders they are in.  So of the bookmarks with one
    non-empty key exactly the first of the document is in the output, with
    its own title and attributes; every bookmark that is not in the output
    is counted in [urls_removed]. *)
Theorem prune_first_occurrence_wins (root : Folder) :
  ∃ out,
    (run_prune root).1 = Some out ∧
    doc_bookmarks out
      = select (survives ∅ (key <$> doc_bookmarks root)) (doc_bookmarks root) ∧
    (∀ i b, doc_bookmarks root !! i = Some b →
       survives ∅ (key <$> doc_bookmarks root) i = true ↔
       key b ≠ [] ∧
       ∀ j b', (j < i)%nat → doc_bookmarks root !! j = Some b' → key b' ≠ key b) ∧
    (∀ k i b, k ≠ [] →
       list_find (λ b, key b = k) (doc_bookmarks root) = Some (i, b) →
       filter (λ b', key b' = k) (doc_bookmarks out) = [b]) ∧
    urls_kept (run_prune root).2 = length (doc_bookmarks out) ∧
    (urls_removed (run_prune root).2 + length (doc_bookmarks out)
      = length (doc_bookmarks root))%nat.
Proof.
  pose proof (run_prune_spec root) as (Hout & Hk & Hr & _).
  eexists. split; [exact Hout|]. rewrite structural_prune_bookmarks in *.
  split_and!; try done.
  - intros i b Hi. by apply survives_first.
  - intros k i b Hne Hf.
    change (select _ _) with (first_occurrences ∅ (doc_bookmarks root)).
    rewrite first_occurrences_filter by done.
    rewrite bool_decide_eq_false_2 by apply not_elem_of_empty. by rewrite Hf.
Qed.

(** C3: structural pruning.  The prune engine returns the root, never
    [None], with its name and attributes; below the root a folder stays
    exactly when one of its children stays ([structural_prune]), which is
    when a bookmark below it survives, so that every folder of the output
    has a child and holds a surviving bookmark;
    every folder that is gone is counted once in [folders_pruned], and
    the two URL counters count bookmarks only. *)
Theorem prune_structural (root : Folder) :
  ∃ out,
    (run_prune root).1 = Some out ∧
    name out = name root ∧ fattrs out = fattrs root ∧
    out = structural_prune (survives ∅ (key <$> doc_bookmarks root)) root ∧
    (∀ keep g,
       children (structural_prune keep g) ≠ [] ↔
       select keep (doc_bookmarks g) ≠ []) ∧
    Forall (λ g, children g ≠ [] ∧ doc_bookmarks g ≠ []) (subfolders out) ∧
    (folders_pruned (run_prune root).2 + length (subfolders out)
      = length (subfolders root))%nat ∧
    urls_kept (run_prune root).2 = length (doc_bookmarks out) ∧
    (urls_kept (run_prune root).2 + urls_removed (run_prune root).2
      = length (doc_bookmarks root))%nat.
Proof.
  pose proof (run_prune_spec root) as (Hout & Hk & Hr & Hp).
  eexists. split; [exact Hout|]. split_and!; try done.
  - by destruct root.
  - by destruct root.
  - apply structural_prune_children.
  - apply structural_prune_nonempty.
  - lia.
Qed.

Lemma run_flatten_spec root :
  (run_flatten root).1 = buckets_survivors ∅ (collect_flat_buckets root) ∧
  flat_kept (run_flatten root).2 = length (all_bookmarks (run_flatten root).1) ∧
  (flat_removed (run_flatten root).2 + length (all_bookmarks (run_flatten root).1)
    = length (flat_order root))%nat ∧
  folders_total (run_flatten root).2 = nonempty_buckets (run_flatten root).1.
Proof.
  pose proof (dedupe_buckets_spec (collect_flat_buckets root) ∅ (mkFlatStats 0 0 0)) as P.
  cbv zeta in P. unfold run_flatten, dedupe_bookmarks_globally, flat_order.
  destruct (dedupe_buckets _ ∅ _) as [[bs seen] stats].
  simpl in *. destruct P as (-> & _ & -> & ? & ->). done.
Qed.

Lemma discovery_order_NoDup ks : NoDup (discovery_order ks).
Proof.
  unfold discovery_order.
  assert (NoDup [unsorted_key]) as Hinit by (apply NoDup_singleton).
  revert Hinit. generalize [unsorted_key]. induction ks as [|k ks IH]; intros acc Hacc; [done|].
  cbn [foldl]. apply IH. destruct (decide (k ∈ acc)) as [Hk|Hk].
  - by rewrite bool_decide_eq_true_2.
  - rewrite bool_decide_eq_false_2 by done. apply NoDup_app. split_and!; [done| |apply NoDup_singleton].
    intros x Hx ->%list_elem_of_singleton. done.
Qed.

Lemma elem_of_folders_of_bucket root f :
  f ∈ subfolders root → f ∈ folders_of_bucket (bucket_key (name f)) root.
Proof.
  intros Hf. unfold folders_of_bucket. rewrite list_elem_of_In, filter_In, <-list_elem_of_In.
  split; [done|]. by apply bool_decide_eq_true.
Qed.

Lemma elem_of_folders_of_bucket_iff root k f :
  f ∈ folders_of_bucket k root ↔ f ∈ subfolders root ∧ bucket_key (name f) = k.
Proof.
  unfold folders_of_bucket. rewrite list_elem_of_In, filter_In, <-list_elem_of_In.
  by rewrite bool_decide_eq_true.
Qed.

(** The names that are filed under the reserved key: those that normalize
    to nothing, and those that normalize to the reserved key itself. *)
Lemma bucket_key_reserved n :
  bucket_key n = unsorted_key ↔
  norm_folder_name n = [] ∨ norm_folder_name n = unsorted_key.
Proof.
  unfold bucket_key. cbv zeta. destruct (is_empty (norm_folder_name n)) eqn:E.
  - apply is_empty_true in E. split; [by left|done].
  - apply is_empty_false in E. split; [by right|]. by intros [?|?].
Qed.

Lemma bucket_key_named n k :
  k ≠ unsorted_key → bucket_key n = k ↔ norm_folder_name n = k ∧ k ≠ [].
Proof.
  intros Hk. unfold bucket_key. cbv zeta.
  destruct (is_empty (norm_folder_name n)) eqn:E.
  - apply is_empty_true in E. rewrite E. split; [by intros <-|]. by intros [<- ?].
  - apply is_empty_false in E. split; [by intros <-|]. by intros [? _].
Qed.

Lemma elem_of_concat_direct (x : Bookmark) f fs :
  f ∈ fs → x ∈ direct f → x ∈ concat (direct <$> fs).
Proof.
  intros Hf Hx. rewrite list_elem_of_In, in_concat. exists (direct f).
  rewrite <-!list_elem_of_In. split; [|done]. apply list_elem_of_fmap. by exists f.
Qed.

Lemma bucket_of_folder root f :
  f ∈ subfolders root →
  ∃ b, dict_get (bucket_key (name f)) (collect_flat_buckets root) = Some b ∧
       ∀ x, x ∈ direct f → x ∈ bookmarks b.
Proof.
  intros Hf. pose proof (elem_of_folders_of_bucket root f Hf) as Hin.
  destruct (decide (bucket_key (name f) = unsorted_key)) as [E|E].
  - rewrite E in *. rewrite collect_get_unsorted. eexists. split; [done|].
    intros x Hx. cbn [bookmarks]. apply elem_of_app. right.
    by apply (elem_of_concat_direct x f).
  - destruct (folders_of_bucket (bucket_key (name f)) root) as [|f1 fs] eqn:Efs.
    { by apply not_elem_of_nil in Hin. }
    rewrite (collect_get_named root _ f1 fs) by done. eexists. split; [done|].
    intros x Hx. cbn [bookmarks]. by apply (elem_of_concat_direct x f).
Qed.




(** C4 (amended): bucket merging.  The buckets are the reserved one and
    then one for each normalized folder name, in the order in which the walk
    meets the names; two folders with the same normalized name are filed in
    one bucket, which holds the bookmarks of both.  A folder is filed under
    the reserved key [__unsorted__] exactly when its normalized name is
    empty or is the reserved key itself (as that of a folder called
    [__Unsorted__]), and under any other key exactly when this key is its
    normalized name.  The display name of a bucket other than the reserved
    one is the name of the first folder met with that normalized name; its
    attributes are those of the first such folder that has any, which need
    not be the first folder.  The reserved bucket is called [Unsorted]
    whatever the names of its folders, holds the bookmarks directly under
    the root and then those of its folders, and takes its attributes from
    the first of these folders that has any. *)
Theorem flat_buckets_merge (root : Folder) :
  let bs := collect_flat_buckets root in
  bs.*1 = discovery_order ((λ f, bucket_key (name f)) <$> subfolders root) ∧
  NoDup bs.*1 ∧
  (∀ f g, f ∈ subfolders root → g ∈ subfolders root →
     norm_folder_name (name f) = norm_folder_name (name g) →
     bucket_key (name f) = bucket_key (name g) ∧
     ∃ b, dict_get (bucket_key (name f)) bs = Some b ∧
          ∀ x, x ∈ direct f ∨ x ∈ direct g → x ∈ bookmarks b) ∧
  (∀ k f fs, k ≠ unsorted_key → folders_of_bucket k root = f :: fs →
     dict_get k bs
     = Some (mkBucket (name f) (concat (direct <$> f :: fs)) (first_attrs (f :: fs)))) ∧
  dict_get unsorted_key bs
  = Some (mkBucket (py "Unsorted")
            (direct root ++ concat (direct <$> folders_of_bucket unsorted_key root))
            (first_attrs (folders_of_bucket unsorted_key root))) ∧
  (∀ k, k ≠ unsorted_key → folders_of_bucket k root = [] → dict_get k bs = None) ∧
  (∀ k f, f ∈ folders_of_bucket k root ↔
          f ∈ subfolders root ∧ bucket_key (name f) = k) ∧
  (∀ n, bucket_key n = unsorted_key ↔
        norm_folder_name n = [] ∨ norm_folder_name n = unsorted_key) ∧
  (∀ n k, k ≠ unsorted_key →
          (bucket_key n = k ↔ norm_folder_name n = k ∧ k ≠ [])).
Proof.
  cbv zeta. split_and!.
  - apply collect_keys.
  - rewrite collect_keys. apply discovery_order_NoDup.
  - intros f g Hf Hg E.
    assert (bucket_key (name f) = bucket_key (name g)) as Ek.
    { unfold bucket_key. by rewrite E. }
    split; [done|].
    destruct (bucket_of_folder root f Hf) as (b & Hb & Hbf).
    destruct (bucket_of_folder root g Hg) as (b' & Hb' & Hbg).
    rewrite <-Ek, Hb in Hb'. injection Hb' as <-.
    exists b. split; [done|]. intros x [Hx|Hx]; auto.
  - intros k f fs. apply collect_get_named.
  - apply collect_get_unsorted.
  - apply collect_get_none.
  - intros k f. apply elem_of_folders_of_bucket_iff.
  - apply bucket_key_reserved.
  - intros n k. apply bucket_key_named.
Qed.


(** C10: statistics conservation.  After either engine,
    [urls_kept + urls_removed] is the number of bookmarks of the tree: the
    flatten engine files every bookmark in exactly one bucket, its order
    being a rearrangement of the document order. *)
Theorem stats_conservation (root : Folder) :
  (urls_kept (run_prune root).2 + urls_removed (run_prune root).2
    = length (doc_bookmarks root))%nat ∧
  (flat_kept (run_flatten root).2 + flat_removed (run_flatten root).2
    = length (doc_bookmarks root))%nat ∧
  flat_order root ≡ₚ doc_bookmarks root ∧
  length (flat_order root) = length (doc_bookmarks root).
Proof.
  pose proof (run_prune_spec root) as (_ & Hk & Hr & _).
  pose proof (run_flatten_spec root) as (_ & Fk & Fr & _).
  pose proof (flat_order_perm root) as Hp.
  split_and!; [lia| |done|by rewrite Hp]. rewrite <-Hp. lia.
Qed.
End theorems.

(** ** [normalize_url]: the fallback and the empty key *)

Section norm.
Context `{PyEnv}.

Lemma str_lower_nil_eq : str_lower [] = [].
Proof. by rewrite (str_lower_ascii []). Qed.

Lemma urlsplit_nil : urlsplit [] = Ok (mkSplitResult [] [] [] [] []).
Proof. reflexivity. Qed.

Lemma normalize_url_try_nil : normalize_url_try [] = Ok [].
Proof.
  unfold normalize_url_try. rewrite urlsplit_nil. cbn [mbind result_bind scheme netloc].
  rewrite !str_lower_nil_eq. reflexivity.
Qed.

Lemma normalize_url_nil : normalize_url [] = [].
Proof. unfold normalize_url. by rewrite normalize_url_try_nil. Qed.

Lemma normalize_url_eq_nil u : normalize_url u = [] ↔ u = [].
Proof.
  split; [|intros ->; apply normalize_url_nil].
  unfold normalize_url. destruct (normalize_url_try u) as [r|e]; [|done].
  destruct r; simpl; [done|discriminate].
Qed.

(** C8: total fallback.  [normalize_url] is a function of every string:
    whatever the body of its [try] raises is caught.  When the body raises,
    which happens when [urlsplit] refuses the URL or when [urlencode]
    refuses the pairs that are kept, and in no other case, the input is
    returned as it is; when the body returns a string, this string is
    returned, or the input when the string is empty. *)
Theorem normalize_url_fallback (u : pystr) :
  match normalize_url_try u with
  | Raise _ => normalize_url u = u
  | Ok r => normalize_url u = if is_empty r then u else r
  end ∧
  (∀ e, urlsplit u = Raise e → normalize_url u = u) ∧
  (∀ s e, urlsplit u = Ok s →
          urlencode (List.filter keep (parse_qsl (query s))) = Raise e →
          normalize_url u = u) ∧
  (∀ e, normalize_url_try u = Raise e ↔
        urlsplit u = Raise e ∨
        ∃ s, urlsplit u = Ok s ∧
             urlencode (List.filter keep (parse_qsl (query s))) = Raise e).
Proof.
  assert (∀ e, normalize_url_try u = Raise e ↔
               urlsplit u = Raise e ∨
               ∃ s, urlsplit u = Ok s ∧
                    urlencode (List.filter keep (parse_qsl (query s))) = Raise e) as Hiff.
  { intros e. unfold normalize_url_try. fold keep.
    destruct (urlsplit u) as [s|e1]; cbn [mbind result_bind].
    - destruct (urlencode _) as [q|e2] eqn:Eq; cbn [mbind result_bind].
      + split; [done|]. intros [?|(s' & [= <-] & E)]; [done|]. congruence.
      + split.
        * intros [= <-]. right. by exists s.
        * intros [?|(s' & [= <-] & E)]; [done|]. congruence.
    - split; [intros [= <-]; by left|]. intros [[= <-]|(s' & ? & _)]; done. }
  split_and!; [|..|done].
  - unfold normalize_url. by destruct (normalize_url_try u).
  - intros e He. unfold normalize_url.
    by rewrite (proj2 (Hiff e) (or_introl He)).
  - intros s e Hs He. unfold normalize_url.
    rewrite (proj2 (Hiff e)); [done|]. right. by exists s.
Qed.

Lemma key_nil b : key b = [] ↔ href b = [].
Proof. apply normalize_url_eq_nil. Qed.

Lemma first_occurrences_href seen l :
  Forall (λ b, href b ≠ []) (first_occurrences seen l).
Proof.
  eapply Forall_impl; [apply first_occurrences_nonempty_key|].
  intros b Hb Hh. by apply Hb, key_nil.
Qed.

Lemma first_occurrences_length_href seen l :
  (length (first_occurrences seen l) + length (filter (λ b, href b = []) l) ≤ length l)%nat.
Proof.
  pose proof (first_occurrences_length seen l) as L.
  rewrite (list_filter_iff (λ b, href b = []) (λ b, key b = [])); [done|].
  intros b. symmetry. apply key_nil.
Qed.

(** C9: the empty key.  [normalize_url] returns the empty string exactly
    for the empty string, so that the bookmarks with an empty key are those
    with an empty [href]; no such bookmark is in the output of either
    engine, and each of them is counted in [urls_removed], whether another
    bookmark has its [href] or not. *)
Theorem empty_key_always_dropped (root : Folder) :
  (∀ u, normalize_url u = [] ↔ u = []) ∧
  (∀ b, key b = [] ↔ href b = []) ∧
  (∃ out, (run_prune root).1 = Some out ∧
          Forall (λ b, href b ≠ []) (doc_bookmarks out)) ∧
  (length (filter (λ b, href b = []) (doc_bookmarks root))
    ≤ urls_removed (run_prune root).2)%nat ∧
  Forall (λ b, href b ≠ []) (all_bookmarks (run_flatten root).1) ∧
  (length (filter (λ b, href b = []) (doc_bookmarks root))
    ≤ flat_removed (run_flatten root).2)%nat.
Proof.
  pose proof (run_prune_spec root) as (Hout & Hk & Hr & _).
  pose proof (run_flatten_spec root) as (Fout & Fk & Fr & _).
  rewrite structural_prune_bookmarks in *.
  split_and!.
  - apply normalize_url_eq_nil.
  - apply key_nil.
  - eexists. split; [exact Hout|]. rewrite structural_prune_bookmarks.
    apply first_occurrences_href.
  - pose proof (first_occurrences_length_href ∅ (doc_bookmarks root)) as L.
    unfold first_occurrences in L. lia.
  - rewrite Fout, buckets_survivors_all. apply first_occurrences_href.
  - rewrite Fout, buckets_survivors_all in Fr.
    pose proof (first_occurrences_length_href ∅ (flat_order root)) as L.
    unfold flat_order in *. rewrite <-(flat_order_perm root). unfold flat_order. lia.
Qed.
End norm.

(** Both exceptions of the [try] body are reachable. *)
Example normalize_url_try_raises :
  @normalize_url_try ascii_env (py "http://[::1") = Raise ValueError ∧
  @normalize_url ascii_env (py "http://[::1") = py "http://[::1" ∧
  @normalize_url_try ascii_env (py "?a=" ++ [55296]) = Raise UnicodeEncodeError ∧
  @normalize_url ascii_env (py "?a=" ++ [55296]) = py "?a=" ++ [55296].
Proof. vm_compute. done. Qed.

(** ** Strings *)

Arguments ord : simpl never.
Arguments py : simpl never.

(** Replaces the character and string literals by their code points. *)
Ltac eval_ord :=
  repeat match goal with
    | |- context [ord ?a] =>
        let v := eval vm_compute in (ord a) in change (ord a) with v
    | H : context [ord ?a] |- _ =>
        let v := eval vm_compute in (ord a) in change (ord a) with v in H
    | |- context [py ?s] =>
        let v := eval vm_compute in (py s) in change (py s) with v
    | H : context [py ?s] |- _ =>
        let v := eval vm_compute in (py s) in change (py s) with v in H
    end.

Lemma char_in_nil c : char_in c [] = false.
Proof. done. Qed.

Lemma char_in_cons c x l : char_in c (x :: l) = (c =? x) || char_in c l.
Proof.
  unfold char_in. apply eq_true_iff_eq.
  rewrite orb_true_iff, !bool_decide_eq_true, N.eqb_eq, elem_of_cons. done.
Qed.

Lemma char_in_true c l : char_in c l = true ↔ c ∈ l.
Proof. apply bool_decide_eq_true. Qed.

Lemma char_in_false c l : char_in c l = false ↔ c ∉ l.
Proof. apply bool_decide_eq_false. Qed.

Lemma char_in_app c l1 l2 : char_in c (l1 ++ l2) = char_in c l1 || char_in c l2.
Proof.
  apply eq_true_iff_eq. rewrite orb_true_iff, !char_in_true, elem_of_app. done.
Qed.

(** A property of every character of a literal set, by evaluation. *)
Lemma char_in_forallb (P : N → bool) (chars : pystr) c :
  forallb P chars = true → char_in c chars = true → P c = true.
Proof.
  rewrite forallb_forall. intros HP Hc%char_in_true%list_elem_of_In. by apply HP.
Qed.

(** Turns a membership test in a literal set into comparisons. *)
Ltac char_cases :=
  eval_ord; rewrite ?char_in_cons, ?char_in_nil in *; nbool.

Lemma find_char_None c s : find_char c s = None ↔ c ∉ s.
Proof.
  induction s as [|d s IH]; simpl.
  - split; [intros _; apply not_elem_of_nil|done].
  - rewrite not_elem_of_cons. destruct (N.eqb_spec d c) as [->|Hne].
    + naive_solver.
    + destruct (find_char c s); simpl.
      * split; [done|]. intros [_ Hn]. by apply IH in Hn.
      * split; [|done]. intros _. split; [done|]. by apply IH.
Qed.

Lemma find_char_app c a b : c ∉ a → find_char c (a ++ c :: b) = Some (length a).
Proof.
  induction a as [|d a IH]; simpl; intros Hn.
  - by rewrite N.eqb_refl.
  - apply not_elem_of_cons in Hn as [Hd Hn]. rewrite (proj2 (N.eqb_neq d c)) by done.
    by rewrite IH.
Qed.

Lemma find_char_Some c s i :
  find_char c s = Some i → s = take i s ++ c :: drop (S i) s ∧ c ∉ take i s.
Proof.
  revert i. induction s as [|d s IH]; intros i; simpl; [done|].
  destruct (N.eqb_spec d c) as [->|Hne].
  - intros [= <-]. simpl. rewrite drop_0. split; [done|apply not_elem_of_nil].
  - destruct (find_char c s) as [j|]; simpl; [|done]. intros [= <-].
    destruct (IH j eq_refl) as [E Hn]. simpl. rewrite not_elem_of_cons.
    split; [by f_equal|done].
Qed.

Lemma find_char_lt c s i : find_char c s = Some i → (i < length s)%nat.
Proof.
  revert i. induction s as [|d s IH]; intros i; simpl; [done|].
  destruct (d =? c); [intros [= <-]; lia|].
  destruct (find_char c s) as [j|]; simpl; [|done]. intros [= <-].
  specialize (IH j eq_refl). lia.
Qed.

Lemma split_once_Some c s a b :
  split_once c s = Some (a, b) ↔ s = a ++ c :: b ∧ c ∉ a.
Proof.
  unfold split_once. split.
  - destruct (find_char c s) as [i|] eqn:E; [|done]. simpl. intros [= <- <-].
    by apply find_char_Some.
  - intros [-> Hn]. rewrite find_char_app by done. simpl.
    rewrite take_app_length. do 2 f_equal.
    rewrite drop_app_ge by lia. replace (S (length a) - length a)%nat with 1%nat by lia.
    done.
Qed.

Lemma split_once_None c s : split_once c s = None ↔ c ∉ s.
Proof.
  unfold split_once. rewrite <-find_char_None. by destruct (find_char c s).
Qed.

Lemma split_once_app c a b : c ∉ a → split_once c (a ++ c :: b) = Some (a, b).
Proof. intros. by apply split_once_Some. Qed.

Lemma lstrip_id p s :
  match s with c :: _ => p c = false | [] => True end → lstrip p s = s.
Proof. destruct s as [|c s]; simpl; [done|]. by intros ->. Qed.

Lemma lstrip_head p s :
  match lstrip p s with c :: _ => p c = false | [] => True end.
Proof.
  induction s as [|c s IH]; simpl; [done|]. destruct (p c) eqn:E; [done|]. done.
Qed.

Lemma remove_char_id a s : a ∉ s → remove_char a s = s.
Proof.
  induction s as [|c s IH]; simpl; [done|]. intros [Hc Hs]%not_elem_of_cons.
  rewrite (proj2 (N.eqb_neq c a)) by done. simpl. by rewrite IH.
Qed.

Lemma elem_of_remove_char c a s : c ∈ remove_char a s ↔ c ∈ s ∧ c ≠ a.
Proof.
  unfold remove_char. rewrite list_elem_of_In, filter_In, <-list_elem_of_In.
  by rewrite negb_true_iff, N.eqb_neq.
Qed.

Lemma remove_char_head a s :
  match s with c :: _ => c ≠ a | [] => True end →
  head (remove_char a s) = head s.
Proof.
  destruct s as [|c s]; simpl; [done|]. intros Hc.
  by rewrite (proj2 (N.eqb_neq c a)) by done.
Qed.

(** [rstrip] *)
Lemma rstrip_nil_iff p s : rstrip p s = [] ↔ forallb p s = true.
Proof.
  induction s as [|c s IH]; simpl; [done|].
  destruct (rstrip p s) as [|d r] eqn:E.
  - destruct (p c); simpl; [|done]. split; [|done]. intros _. by apply IH.
  - split; [done|]. intros [_ Hs]%andb_true_iff. by apply IH in Hs.
Qed.

Lemma rstrip_app_strip p s t : forallb p t = true → rstrip p (s ++ t) = rstrip p s.
Proof.
  intros Ht. induction s as [|c s IH]; simpl.
  - by apply rstrip_nil_iff.
  - by rewrite IH.
Qed.

Lemma rstrip_id p s :
  match last s with Some c => p c = false | None => True end → rstrip p s = s.
Proof.
  induction s as [|c s IH]; simpl; [done|].
  destruct s as [|d s]; simpl in *.
  - by intros ->.
  - intros Hl. rewrite IH by done. done.
Qed.

Lemma rstrip_last p s :
  match last (rstrip p s) with Some c => p c = false | None => True end.
Proof.
  induction s as [|c s IH]; simpl; [done|].
  destruct (rstrip p s) as [|d r] eqn:E.
  - destruct (p c) eqn:Ec; simpl; done.
  - simpl in *. done.
Qed.

Lemma rstrip_idemp p s : rstrip p (rstrip p s) = rstrip p s.
Proof. apply rstrip_id, rstrip_last. Qed.

Lemma rstrip_prefix p s : ∃ t, s = rstrip p s ++ t ∧ forallb p t = true.
Proof.
  induction s as [|c s (t & E & Ht)]; simpl.
  - by exists [].
  - destruct (rstrip p s) as [|d r] eqn:Er.
    + destruct (p c) eqn:Ec.
      * exists (c :: t). simpl in *. subst t. by rewrite Ec, Ht.
      * exists t. simpl in *. by subst t.
    + exists t. split; [|done]. simpl. by f_equal.
Qed.

Lemma rstrip_head p s c r : rstrip p s = c :: r → ∃ s', s = c :: s'.
Proof.
  destruct (rstrip_prefix p s) as (t & E & _). intros Er. rewrite Er in E.
  eexists. exact E.
Qed.

Lemma last_app_replicate_S {A} (l : list A) n c : last (l ++ replicate (S n) c) = Some c.
Proof.
  rewrite replicate_S_end, app_assoc, last_snoc. done.
Qed.

Lemma endswith_true c s : endswith c s = true ↔ last s = Some c.
Proof.
  unfold endswith. destruct (last s) as [d|]; [|done]. rewrite N.eqb_eq. naive_solver.
Qed.

(** ** [urlsplit] on a URL put together from its parts *)

Lemma clean_url_id w : is_clean w → clean_url w = w.
Proof.
  intros [Hh Hu]. unfold clean_url. rewrite lstrip_id by done.
  unfold UNSAFE_URL_BYTES_TO_REMOVE in *. cbn [foldl].
  assert (∀ c, c ∈ [9; 13; 10] → c ∉ w) as Hn.
  { intros c Hc Hw. apply Hu in Hw. by apply char_in_false in Hw. }
  rewrite (remove_char_id 9 w), (remove_char_id 13 w), (remove_char_id 10 w);
    [done|..]; apply Hn; repeat constructor.
Qed.

Lemma clean_url_is_clean u : is_clean (clean_url u).
Proof.
  unfold clean_url, UNSAFE_URL_BYTES_TO_REMOVE. cbn [foldl].
  set (w := lstrip _ u).
  pose proof (lstrip_head (λ c, char_in c WHATWG_C0_CONTROL_OR_SPACE) u) as Hh.
  fold w in Hh. split.
  - destruct w as [|c w']; [done|].
    assert (c ≠ 9 ∧ c ≠ 13 ∧ c ≠ 10) as (H1 & H2 & H3).
    { split_and!; intros ->; vm_compute in Hh; done. }
    cbn [remove_char List.filter].
    rewrite (proj2 (N.eqb_neq c 9)) by done. cbn [negb List.filter].
    rewrite (proj2 (N.eqb_neq c 13)) by done. cbn [negb List.filter].
    rewrite (proj2 (N.eqb_neq c 10)) by done. cbn [negb]. done.
  - intros c Hc. rewrite !elem_of_remove_char in Hc. destruct Hc as [[[_ H1] H2] H3].
    unfold UNSAFE_URL_BYTES_TO_REMOVE. rewrite !char_in_cons, char_in_nil. nbool. done.
Qed.

Lemma clean_url_idemp u : clean_url (clean_url u) = clean_url u.
Proof. apply clean_url_id, clean_url_is_clean. Qed.

Lemma span_delim_app n r :
  (∀ c, c ∈ n → char_in c (py "/?#") = false) →
  match r with c :: _ => char_in c (py "/?#") = true | [] => True end →
  span_delim (n ++ r) = (n, r).
Proof.
  intros Hn Hr. induction n as [|c n IH]; simpl.
  - destruct r as [|c r]; [done|]. simpl. by rewrite Hr.
  - rewrite (Hn c) by apply list_elem_of_here. rewrite IH; [done|].
    intros d Hd. apply Hn. by apply list_elem_of_further.
Qed.

Lemma span_delim_spec s :
  let '(n, r) := span_delim s in
  s = n ++ r ∧ (∀ c, c ∈ n → char_in c (py "/?#") = false) ∧
  match r with c :: _ => char_in c (py "/?#") = true | [] => True end.
Proof.
  induction s as [|c s IH]; simpl.
  - split_and!; [done| |done]. by intros c Hc%not_elem_of_nil.
  - destruct (char_in c (py "/?#")) eqn:E.
    + split_and!; [done| |done]. by intros d Hd%not_elem_of_nil.
    + destruct (span_delim s) as [n r]. destruct IH as (-> & Hn & Hr).
      split_and!; [done| |done]. intros d [->|Hd]%elem_of_cons; auto.
Qed.

Lemma find_char_delim c s i :
  char_in c (py "/?#") = true → find_char c s = Some i → (first_delim s ≤ i)%nat.
Proof.
  intros Hc. revert i. unfold first_delim. induction s as [|d s IH]; intros i; simpl; [done|].
  destruct (char_in d (py "/?#")) eqn:Ed; simpl; [lia|].
  destruct (N.eqb_spec d c) as [->|Hne]; [congruence|].
  destruct (find_char c s) as [j|]; simpl; [|done]. intros [= <-].
  specialize (IH j eq_refl). destruct (span_delim s). simpl in *. lia.
Qed.

Lemma first_delim_le s : (first_delim s ≤ length s)%nat.
Proof.
  unfold first_delim. pose proof (span_delim_spec s) as P.
  destruct (span_delim s) as [n r]. destruct P as (-> & _). simpl.
  rewrite length_app. lia.
Qed.

Lemma first_delim_found s :
  (first_delim s < length s)%nat →
  ∃ c, char_in c (py "/?#") = true ∧ find_char c s = Some (first_delim s).
Proof.
  unfold first_delim. pose proof (span_delim_spec s) as P.
  destruct (span_delim s) as [n r]. destruct P as (-> & Hn & Hr). simpl.
  rewrite length_app. intros Hlt. destruct r as [|c r]; [simpl in Hlt; lia|].
  exists c. split; [done|]. apply find_char_app. intros Hc. apply Hn in Hc. congruence.
Qed.

Lemma splitnetloc_span x y s :
  splitnetloc (x :: y :: s) 2 = span_delim s.
Proof.
  unfold splitnetloc.
  set (delim := foldl _ _ _).
  assert (delim = 2 + first_delim s)%nat as ->.
  { unfold delim, find_from. change (drop 2 (x :: y :: s)) with s.
    change (py "/?#") with [47; 63; 35]. cbn [foldl length].
    pose proof (first_delim_le s) as Hle.
    pose proof (find_char_delim 47 s) as H1. pose proof (find_char_delim 63 s) as H2.
    pose proof (find_char_delim 35 s) as H3.
    pose proof (first_delim_found s) as Hf.
    destruct (decide (first_delim s < length s)%nat) as [Hlt|Hge].
    - destruct (Hf Hlt) as (c & Hc & Hfc).
      change (py "/?#") with [47; 63; 35] in Hc.
      rewrite !char_in_cons, char_in_nil in Hc. nbool.
      destruct (find_char 47 s) as [i1|] eqn:E1; destruct (find_char 63 s) as [i2|] eqn:E2;
        destruct (find_char 35 s) as [i3|] eqn:E3; simpl;
        try (specialize (H1 _ eq_refl eq_refl)); try (specialize (H2 _ eq_refl eq_refl));
        try (specialize (H3 _ eq_refl eq_refl));
        destruct Hc as [->|[->|[->|?]]]; simplify_eq; lia.
    - destruct (find_char 47 s) as [i1|] eqn:E1.
      { apply find_char_lt in E1 as ?. specialize (H1 _ eq_refl eq_refl). lia. }
      destruct (find_char 63 s) as [i2|] eqn:E2.
      { apply find_char_lt in E2 as ?. specialize (H2 _ eq_refl eq_refl). lia. }
      destruct (find_char 35 s) as [i3|] eqn:E3.
      { apply find_char_lt in E3 as ?. specialize (H3 _ eq_refl eq_refl). lia. }
      simpl. lia. }
  unfold first_delim. pose proof (span_delim_spec s) as P.
  destruct (span_delim s) as [n r]. destruct P as (-> & _). simpl.
  rewrite take_app_length, drop_app_length. done.
Qed.

Section split.
Context `{PyEnv}.

Lemma urlsplit_unfold u :
  urlsplit u
  = let '(sc, url) := scheme_step (clean_url u) in
    let '(n, url) := netloc_step url in
    let '(p, q, f) := tail_step url in
    _ ← netloc_ok n; Ok (mkSplitResult sc n p q f).
Proof.
  unfold urlsplit. cbv zeta. fold (clean_url u). generalize (clean_url u). intros w.
  unfold scheme_step, has_scheme.
  assert (∀ sc url,
    ('(netloc, url0) ←
       (if bool_decide (take 2 url = py "//") then
          let '(netloc, url0) := splitnetloc url 2 in
          if char_in (ord "[") netloc && negb (char_in (ord "]") netloc)
             || char_in (ord "]") netloc && negb (char_in (ord "[") netloc)
          then Raise ValueError
          else
            _ ← (if char_in (ord "[") netloc && char_in (ord "]") netloc
                 then check_bracketed_netloc netloc else Ok ());
            Ok (netloc, url0)
        else Ok ([], url));
     let '(url1, fragment) :=
       match split_once (ord "#") url0 with
       | Some uf => uf
       | None => (url0, [])
       end in
     let '(url2, query) :=
       match split_once (ord "?") url1 with
       | Some uq => uq
       | None => (url1, [])
       end in
     _ ← checknetloc netloc; Ok (mkSplitResult sc netloc url2 query fragment))
    = (let '(n, url0) := netloc_step url in
       let '(p, q, f) := tail_step url0 in
       _ ← netloc_ok n; Ok (mkSplitResult sc n p q f))) as Hrest.
  { intros sc url. unfold netloc_step, tail_step, cut_at, netloc_ok, bracket_checks.
    destruct (bool_decide (take 2 url = py "//")).
    - destruct (splitnetloc url 2) as [n url0].
      destruct (_ || _); [cbn [mbind result_bind]; by repeat case_match|].
      destruct (_ && _); [|cbn [mbind result_bind]; by repeat case_match].
      destruct (check_bracketed_netloc n) as [[]|e];
        cbn [mbind result_bind]; by repeat case_match.
    - cbn [mbind result_bind]. by repeat case_match. }
  destruct (find_char (ord ":") w) as [i|]; [|apply Hrest].
  destruct (_ && _ && _); apply Hrest.
Qed.

Lemma colon_not_scheme_char (x : pystr) :
  (∀ c, c ∈ x → char_in c scheme_chars = true) → ord ":" ∉ x.
Proof. intros Hx Hc. apply Hx in Hc. vm_compute in Hc. done. Qed.

Lemma scheme_step_some (x rest : pystr) :
  scheme_ok x → scheme_step (x ++ py ":" ++ rest) = (str_lower x, rest).
Proof.
  intros [Hh Hx]. pose proof (colon_not_scheme_char x Hx) as Hc.
  unfold scheme_step, has_scheme. change (py ":" ++ rest) with (ord ":" :: rest).
  rewrite find_char_app by done. rewrite take_app_length.
  rewrite drop_app_ge by lia. replace (S (length x) - length x)%nat with 1%nat by lia.
  destruct x as [|c x]; [done|]. cbn [app length]. rewrite Hh.
  rewrite bool_decide_eq_true_2 by lia.
  rewrite (proj2 (forallb_forall _ _)); [done|].
  intros d Hd. apply Hx. by apply list_elem_of_In.
Qed.

Lemma scheme_step_none w : has_scheme w = false → scheme_step w = ([], w).
Proof. unfold scheme_step. by intros ->. Qed.

Lemma netloc_ok_nil : netloc_ok [] = Ok ().
Proof. reflexivity. Qed.

Lemma tail_step_assemble (p : pystr) (qx fx : option pystr) :
  (∀ c, c ∈ p → char_in c (py "?#") = false) →
  (∀ q, qx = Some q → ord "#" ∉ q) →
  tail_step (p ++ opt_part (py "?") qx ++ opt_part (py "#") fx)
  = (p, default [] qx, default [] fx).
Proof.
  intros Hp Hq. unfold tail_step.
  assert (ord "#" ∉ p ++ opt_part (py "?") qx) as Hn.
  { rewrite elem_of_app. intros [Hc|Hc].
    - apply Hp in Hc. vm_compute in Hc. done.
    - destruct qx as [q|]; [|by apply not_elem_of_nil in Hc].
      change (opt_part (py "?") (Some q)) with (ord "?" :: q) in Hc.
      apply elem_of_cons in Hc as [Hc|Hc]; [vm_compute in Hc; done|].
      by apply (Hq q). }
  assert (ord "?" ∉ p) as Hn'.
  { intros Hc. apply Hp in Hc. vm_compute in Hc. done. }
  assert (cut_at (ord "#") (p ++ opt_part (py "?") qx ++ opt_part (py "#") fx)
          = (p ++ opt_part (py "?") qx, default [] fx)) as ->.
  { unfold cut_at. destruct fx as [f|].
    - change (opt_part (py "#") (Some f)) with (ord "#" :: f).
      rewrite app_assoc, split_once_app by done. done.
    - cbn [opt_part default]. rewrite !app_nil_r.
      by rewrite (proj2 (split_once_None _ _) Hn). }
  unfold cut_at. destruct qx as [q|].
  - change (opt_part (py "?") (Some q)) with (ord "?" :: q).
    rewrite split_once_app by done. done.
  - cbn [opt_part default]. rewrite app_nil_r.
    by rewrite (proj2 (split_once_None _ _) Hn').
Qed.

Lemma take2_slashes (p t : pystr) :
  take 2 p ≠ py "//" → (∀ c, c ∈ p → char_in c (py "?#") = false) →
  match t with c :: _ => c = ord "?" ∨ c = ord "#" | [] => True end →
  take 2 (p ++ t) ≠ py "//".
Proof.
  intros Hp Hc Ht. destruct p as [|a [|b p]]; cbn [app take].
  - destruct t as [|c [|d t]]; [done| |]; destruct Ht as [-> | ->]; vm_compute; congruence.
  - destruct t as [|c t]; [done|]. destruct Ht as [-> | ->]; vm_compute; congruence.
  - exact Hp.
Qed.

Lemma opt_tail_head (qx fx : option pystr) :
  match opt_part (py "?") qx ++ opt_part (py "#") fx with
  | c :: _ => c = ord "?" ∨ c = ord "#"
  | [] => True
  end.
Proof.
  destruct qx, fx; unfold opt_part;
    try change (py "?") with [ord "?"]; try change (py "#") with [ord "#"];
    cbn [app]; auto.
Qed.

Lemma netloc_step_some (n p : pystr) (qx fx : option pystr) :
  (∀ c, c ∈ n → char_in c (py "/?#") = false) →
  (p = [] ∨ ∃ p', p = ord "/" :: p') →
  netloc_step (py "//" ++ n ++ p ++ opt_part (py "?") qx ++ opt_part (py "#") fx)
  = (n, p ++ opt_part (py "?") qx ++ opt_part (py "#") fx).
Proof.
  intros Hn Hp. unfold netloc_step. change (py "//" ++ ?r) with (47 :: 47 :: r).
  rewrite bool_decide_eq_true_2 by done. rewrite splitnetloc_span.
  apply span_delim_app; [done|].
  destruct Hp as [->|[p' ->]]; [|done]. cbn [app].
  pose proof (opt_tail_head qx fx) as Ht.
  destruct (opt_part (py "?") qx ++ opt_part (py "#") fx) as [|c t]; [done|].
  destruct Ht as [-> | ->]; done.
Qed.

(** Lemma A: what [urlsplit] finds in a URL put together from its
    parts. *)
Lemma urlsplit_assemble sx nx p qx fx :
  is_clean (assemble sx nx p qx fx) → Shape sx nx p qx fx →
  urlsplit (assemble sx nx p qx fx)
  = _ ← netloc_ok (default [] nx);
    Ok (mkSplitResult (from_option str_lower [] sx) (default [] nx) p
          (default [] qx) (default [] fx)).
Proof.
  intros Hclean [Hs Hn Hp Hq]. rewrite urlsplit_unfold, clean_url_id by done.
  assert (scheme_step (assemble sx nx p qx fx)
          = (from_option str_lower [] sx, assemble None nx p qx fx)) as ->.
  { destruct sx as [x|]; [|by apply scheme_step_none].
    unfold assemble. rewrite <-app_assoc. by apply scheme_step_some. }
  unfold assemble. cbn [app].
  destruct nx as [n|].
  - destruct Hn as [Hn1 Hn2]. change (opt_part (py "//") (Some n)) with (py "//" ++ n).
    rewrite <-!app_assoc, netloc_step_some by done.
    by rewrite tail_step_assemble.
  - cbn [opt_part app default]. unfold netloc_step.
    rewrite bool_decide_eq_false_2.
    2:{ apply take2_slashes; [done..|]. apply opt_tail_head. }
    rewrite tail_step_assemble by done. done.
Qed.
End split.

Lemma tail_decompose (r : pystr) :
  ∃ p qx fx,
    r = p ++ opt_part (py "?") qx ++ opt_part (py "#") fx ∧
    (∀ c, c ∈ p → char_in c (py "?#") = false) ∧
    (∀ q, qx = Some q → ord "#" ∉ q).
Proof.
  assert (∃ r1 fx, r = r1 ++ opt_part (py "#") fx ∧ ord "#" ∉ r1) as (r1 & fx & -> & Hr1).
  { destruct (split_once (ord "#") r) as [[a b]|] eqn:E.
    - apply split_once_Some in E as [-> Ha]. by exists a, (Some b).
    - apply split_once_None in E. exists r, None. by rewrite app_nil_r. }
  assert (∃ p qx, r1 = p ++ opt_part (py "?") qx ∧ ord "?" ∉ p) as (p & qx & -> & Hp).
  { destruct (split_once (ord "?") r1) as [[a b]|] eqn:E.
    - apply split_once_Some in E as [-> Ha]. by exists a, (Some b).
    - apply split_once_None in E. exists r1, None. by rewrite app_nil_r. }
  exists p, qx, fx. rewrite <-app_assoc. split_and!; [done|..].
  - intros c Hc. change (py "?#") with [ord "?"; ord "#"].
    rewrite !char_in_cons, char_in_nil. nbool.
    split; [by intros ->|]. split; [|done]. intros ->. apply Hr1, elem_of_app. by left.
  - intros q -> Hq. apply Hr1, elem_of_app. right.
    change (opt_part (py "?") (Some q)) with (ord "?" :: q). by apply list_elem_of_further.
Qed.

Lemma scheme_decompose (w : pystr) :
  has_scheme w = true → ∃ x rest, w = x ++ py ":" ++ rest ∧ scheme_ok x.
Proof.
  unfold has_scheme. destruct (find_char (ord ":") w) as [i|] eqn:E; [|done].
  intros [[Hi Hh]%andb_true_iff Hall]%andb_true_iff.
  apply bool_decide_eq_true in Hi. apply find_char_Some in E as [E _].
  exists (take i w), (drop (S i) w). split; [done|]. split.
  - destruct w as [|c w]; [done|]. destruct i as [|i]; [lia|]. done.
  - intros c Hc. rewrite forallb_forall in Hall. apply Hall. by apply list_elem_of_In.
Qed.

(** Lemma B: every string is a URL put together from its parts. *)
Lemma assemble_decompose (w : pystr) :
  ∃ sx nx p qx fx, w = assemble sx nx p qx fx ∧ Shape sx nx p qx fx.
Proof.
  assert (∀ rest : pystr, ∃ nx p qx fx,
            rest = assemble None nx p qx fx ∧
            match nx with
            | Some n => (∀ c, c ∈ n → char_in c (py "/?#") = false)
                        ∧ (p = [] ∨ ∃ p', p = ord "/" :: p')
            | None => take 2 p ≠ py "//"
            end ∧
            (∀ c, c ∈ p → char_in c (py "?#") = false) ∧
            (∀ q, qx = Some q → ord "#" ∉ q)) as Hrest.
  { intros rest. destruct (decide (take 2 rest = py "//")) as [E|E].
    - destruct rest as [|a [|b s]]; [done..|]. injection E as -> ->.
      pose proof (span_delim_spec s) as P. destruct (span_delim s) as [n r].
      destruct P as (-> & Hn & Hr).
      destruct (tail_decompose r) as (p & qx & fx & -> & Hp & Hq).
      exists (Some n), p, qx, fx. split_and!; [done|done| |done|done].
      destruct p as [|c p]; [by left|right]. exists p. f_equal.
      cbn [app] in Hr. specialize (Hp c (list_elem_of_here _ _)).
      change (py "/?#") with [ord "/"; ord "?"; ord "#"] in Hr.
      change (py "?#") with [ord "?"; ord "#"] in Hp.
      rewrite !char_in_cons, char_in_nil in Hr. rewrite !char_in_cons, char_in_nil in Hp.
      nbool. destruct Hr as [?|[?|[?|?]]]; naive_solver.
    - destruct (tail_decompose rest) as (p & qx & fx & -> & Hp & Hq).
      exists None, p, qx, fx. split_and!; [done| |done|done].
      intros Ep. apply E. destruct p as [|a [|b p]]; [done..|]. done. }
  destruct (has_scheme w) eqn:Es.
  - destruct (scheme_decompose w Es) as (x & rest & -> & Hx).
    destruct (Hrest rest) as (nx & p & qx & fx & -> & Hn & Hp & Hq).
    exists (Some x), nx, p, qx, fx. split; [|by split].
    unfold assemble. by rewrite <-app_assoc.
  - destruct (Hrest w) as (nx & p & qx & fx & E & Hn & Hp & Hq).
    exists None, nx, p, qx, fx. split; [done|]. split; [|done..]. by rewrite <-E.
Qed.

Section parsed.
Context `{PyEnv}.

(** What is known of a URL that [urlsplit] accepts. *)
Lemma urlsplit_Ok u s :
  urlsplit u = Ok s →
  ∃ sx nx qx fx,
    clean_url u = assemble sx nx (path s) qx fx ∧
    Shape sx nx (path s) qx fx ∧
    scheme s = from_option str_lower [] sx ∧ netloc s = default [] nx ∧
    query s = default [] qx ∧ fragment s = default [] fx ∧
    netloc_ok (netloc s) = Ok ().
Proof.
  intros Hu.
  assert (urlsplit (clean_url u) = Ok s) as Hw.
  { by rewrite urlsplit_unfold, clean_url_idemp, <-urlsplit_unfold. }
  destruct (assemble_decompose (clean_url u)) as (sx & nx & p & qx & fx & E & Hs).
  rewrite E in Hw. rewrite urlsplit_assemble in Hw; [|by rewrite <-E; apply clean_url_is_clean|done].
  destruct (netloc_ok (default [] nx)) as [[]|e] eqn:Eok; [|done].
  cbn [mbind result_bind] in Hw. injection Hw as <-. cbn [path scheme netloc query fragment].
  by exists sx, nx, qx, fx.
Qed.
End parsed.

(** ** UTF-8: decoding what was encoded *)

Local Ltac Zify.zify_post_hook ::= Z.to_euclidean_division_equations.

Ltac bcase :=
  match goal with
  | |- context [?a <=? ?b] => destruct (N.leb_spec a b); try lia
  | |- context [?a <? ?b] => destruct (N.ltb_spec a b); try lia
  | |- context [?a =? ?b] => destruct (N.eqb_spec a b); try lia
  end; cbn [andb orb negb].

Lemma utf8_decode_encode_char c bs rest :
  utf8_encode_char c = Some bs → utf8_decode (bs ++ rest) = c :: utf8_decode rest.
Proof.
  unfold utf8_encode_char.
  destruct (N.ltb_spec c 128) as [H1|H1].
  { intros [= <-]. cbn [app utf8_decode]. by rewrite (proj2 (N.ltb_lt c 128)). }
  destruct (N.ltb_spec c 2048) as [H2|H2].
  { intros [= <-].
    assert (∃ a d, c / 64 = a ∧ c mod 64 = d ∧ c = a * 64 + d ∧ 2 ≤ a < 32 ∧ d < 64)
      as (a & d & -> & -> & -> & Ha & Hd) by (eexists _, _; split_and!; [done|done|lia..]).
    cbn [app utf8_decode]. unfold is_cont. repeat bcase. f_equal. lia. }
  destruct (N.ltb_spec c 65536) as [H3|H3].
  { destruct ((55296 <=? c) && (c <=? 57343)) eqn:Es; [done|]. intros [= <-].
    assert (c < 55296 ∨ 57343 < c) as Hns by (nbool; lia).
    assert (∃ a b d, c / 4096 = a ∧ (c / 64) mod 64 = b ∧ c mod 64 = d ∧
                     c = a * 4096 + b * 64 + d ∧ a < 16 ∧ b < 64 ∧ d < 64)
      as (a & b & d & -> & -> & -> & Hc & Ha & Hb & Hd)
      by (eexists _, _, _; split_and!; [done|done|done|lia..]).
    clear Es H1. subst c.
    cbn [app utf8_decode]. unfold second_of_3, is_cont.
    repeat bcase. all: f_equal; lia. }
  destruct (N.ltb_spec c 1114112) as [H4|H4]; [|done].
  intros [= <-].
  assert (∃ a b d e, c / 262144 = a ∧ (c / 4096) mod 64 = b ∧ (c / 64) mod 64 = d ∧
                     c mod 64 = e ∧ c = a * 262144 + b * 4096 + d * 64 + e ∧
                     a < 5 ∧ b < 64 ∧ d < 64 ∧ e < 64)
    as (a & b & d & e & -> & -> & -> & -> & Hc & Ha & Hb & Hd & He)
    by (eexists _, _, _, _; split_and!; [done|done|done|done|lia..]).
  clear H1 H2. subst c.
  cbn [app utf8_decode]. unfold second_of_4, is_cont.
  repeat bcase. all: f_equal; lia.
Qed.

Lemma mapM_cons_Some {A B} (f : A → option B) x l ys :
  mapM f (x :: l) = Some ys ↔ ∃ y ys', f x = Some y ∧ mapM f l = Some ys' ∧ ys = y :: ys'.
Proof.
  cbn [mapM]. destruct (f x) as [y|]; simpl.
  - destruct (mapM f l) as [ys'|]; simpl.
    + split.
      * intros [= <-]. by exists y, ys'.
      * intros (y' & ys'' & [= <-] & [= <-] & ->). done.
    + split; [done|]. intros (? & ? & _ & ? & _). done.
  - split; [done|]. intros (? & ? & ? & _). done.
Qed.

Lemma utf8_decode_encode s bs : utf8_encode s = Ok bs → utf8_decode bs = s.
Proof.
  unfold utf8_encode. destruct (mapM utf8_encode_char s) as [bss|] eqn:E; [|done].
  intros [= <-]. revert bss E. induction s as [|c s IH]; intros bss E.
  - by injection E as <-.
  - apply mapM_cons_Some in E as (y & ys & Ey & Eys & ->). cbn [concat].
    rewrite (utf8_decode_encode_char c y) by done. f_equal. by apply IH.
Qed.

Lemma utf8_encode_char_byte c bs b :
  utf8_encode_char c = Some bs → b ∈ bs → b < 256.
Proof.
  unfold utf8_encode_char. repeat case_match; try done; intros [= <-] Hb;
    repeat (apply elem_of_cons in Hb as [->|Hb]); try (by apply not_elem_of_nil in Hb);
    nbool; lia.
Qed.

Lemma utf8_encode_byte s bs b : utf8_encode s = Ok bs → b ∈ bs → b < 256.
Proof.
  unfold utf8_encode. destruct (mapM utf8_encode_char s) as [bss|] eqn:E; [|done].
  intros [= <-]. revert bss E. induction s as [|c s IH]; intros bss E.
  - injection E as <-. by intros ?%not_elem_of_nil.
  - apply mapM_cons_Some in E as (y & ys & Ey & Eys & ->). cbn [concat].
    intros [Hb|Hb]%elem_of_app; [by apply (utf8_encode_char_byte c y)|by apply (IH ys)].
Qed.

Lemma utf8_encode_nil_inv s : utf8_encode s = Ok [] → s = [].
Proof. intros E%utf8_decode_encode. done. Qed.

Lemma utf8_decode_ascii e : forallb isascii e = true → utf8_decode e = e.
Proof.
  induction e as [|c e IH]; [done|]. cbn [forallb utf8_decode]. unfold isascii at 1.
  intros [Hc He]%andb_true_iff. rewrite Hc. by rewrite IH.
Qed.

(** ** Percent-encoding: [parse_qsl] reads back what [urlencode] wrote *)

(** Hexadecimal digits *)
Lemma below_16 (P : N → bool) v :
  forallb P (N.of_nat <$> seq 0 16) = true → v < 16 → P v = true.
Proof.
  rewrite forallb_forall. intros HP Hv. apply HP, list_elem_of_In, list_elem_of_fmap.
  exists (N.to_nat v). split; [lia|]. apply list_elem_of_In, in_seq. lia.
Qed.

Lemma hexdigit_hexdig v : v < 16 → char_in (hexdigit v) hexdig = true.
Proof. apply (below_16 (λ v, char_in (hexdigit v) hexdig)). by vm_compute. Qed.

Lemma hexval_hexdigit v : v < 16 → hexval (hexdigit v) = v.
Proof.
  intros Hv. unfold hexval, hexdigit. destruct (N.ltb_spec v 10).
  - rewrite (proj2 (N.leb_le 48 _)), (proj2 (N.leb_le _ 57)) by lia. simpl. lia.
  - rewrite (proj2 (N.leb_gt _ 57)) by lia. rewrite andb_false_r.
    rewrite (proj2 (N.leb_le 65 _)), (proj2 (N.leb_le _ 70)) by lia. simpl. lia.
Qed.

Lemma hexdigit_safe v : v < 16 → char_in (hexdigit v) ALWAYS_SAFE = true.
Proof. apply (below_16 (λ v, char_in (hexdigit v) ALWAYS_SAFE)). by vm_compute. Qed.

Lemma split_on_nonempty c s : split_on c s ≠ [].
Proof. destruct s as [|d s]; simpl; [done|]. by repeat case_match. Qed.

Lemma split_on_single c s b : split_on c s = [b] → b = s ∧ c ∉ s.
Proof.
  revert b. induction s as [|d s IH]; intros b; simpl.
  - intros [= <-]. split; [done|apply not_elem_of_nil].
  - destruct (N.eqb_spec d c) as [->|Hne].
    { intros [= <- E]. by apply split_on_nonempty in E. }
    destruct (split_on c s) as [|h [|? ?]] eqn:E; [|intros [= <-]|done].
    + by apply split_on_nonempty in E.
    + destruct (IH h eq_refl) as [-> Hn]. split; [done|].
      by apply not_elem_of_cons.
Qed.

Lemma unquote_to_bytes_join s : unquote_to_bytes s = unquote_join (split_on (ord "%") s).
Proof.
  unfold unquote_to_bytes, unquote_join.
  destruct (split_on (ord "%") s) as [|b0 [|i1 items]] eqn:E.
  - by apply split_on_nonempty in E.
  - apply split_on_single in E as [-> _]. cbn. by rewrite app_nil_r.
  - done.
Qed.

Lemma unquote_join_cons c s :
  c ≠ ord "%" →
  unquote_join (split_on (ord "%") (c :: s)) = c :: unquote_join (split_on (ord "%") s).
Proof.
  intros Hc. cbn [split_on]. rewrite (proj2 (N.eqb_neq _ _) Hc).
  destruct (split_on (ord "%") s) as [|h t] eqn:E; [by apply split_on_nonempty in E|].
  done.
Qed.

Lemma unquote_join_escape h1 h2 s :
  char_in h1 hexdig = true → char_in h2 hexdig = true →
  unquote_join (split_on (ord "%") (ord "%" :: h1 :: h2 :: s))
  = (16 * hexval h1 + hexval h2) :: unquote_join (split_on (ord "%") s).
Proof.
  intros H1 H2.
  assert (h1 ≠ ord "%" ∧ h2 ≠ ord "%") as [N1 N2].
  { split; intros ->; vm_compute in H1, H2; done. }
  cbn [split_on]. rewrite N.eqb_refl.
  rewrite (proj2 (N.eqb_neq _ _) N1), (proj2 (N.eqb_neq _ _) N2).
  destruct (split_on (ord "%") s) as [|h t] eqn:E; [by apply split_on_nonempty in E|].
  cbn [unquote_join app fmap list_fmap concat unquote_item]. by rewrite H1, H2.
Qed.

Section quoting.
Variable safe : pystr.
Hypothesis safe_ascii : ∀ c, c ∈ safe → isascii c = true.
Hypothesis safe_percent : ord "%" ∉ safe.

Lemma quoter_unquote bs :
  (∀ b, b ∈ bs → b < 256) →
  unquote_join (split_on (ord "%") (concat (quoter safe <$> bs))) = bs.
Proof.
  induction bs as [|b bs IH]; intros Hb; [done|].
  rewrite fmap_cons. cbn [concat]. unfold quoter at 1.
  assert (b < 256) as Hb1 by (apply Hb, list_elem_of_here).
  specialize (IH (λ b' Hb', Hb b' (list_elem_of_further _ _ _ Hb'))).
  destruct (char_in b (ALWAYS_SAFE ++ safe)) eqn:Es.
  - cbn [app]. rewrite unquote_join_cons; [by rewrite IH|].
    intros ->. rewrite char_in_app in Es. apply orb_true_iff in Es as [Es|Es].
    + vm_compute in Es. done.
    + by apply char_in_true in Es.
  - cbn [app].
    rewrite unquote_join_escape.
    + rewrite IH. f_equal. rewrite !hexval_hexdigit by lia. lia.
    + apply hexdigit_hexdig. lia.
    + apply hexdigit_hexdig. lia.
Qed.

Lemma quote_from_bytes_concat bs :
  quote_from_bytes bs safe = concat (quoter safe <$> bs).
Proof.
  unfold quote_from_bytes. destruct bs as [|b bs]; [done|]. cbn [is_empty].
  destruct (is_empty (rstrip _ (b :: bs))) eqn:E; [|done].
  apply is_empty_true, rstrip_nil_iff in E.
  generalize dependent (b :: bs). clear b bs. intros bs E.
  induction bs as [|b bs IH]; [done|]. cbn [forallb] in E.
  apply andb_true_iff in E as [Eb E]. rewrite fmap_cons. cbn [concat].
  unfold quoter at 1. rewrite Eb. cbn [app]. f_equal. by apply IH.
Qed.

Lemma quoter_chars bs c :
  (∀ b, b ∈ bs → b < 256) →
  c ∈ concat (quoter safe <$> bs) →
  char_in c (ALWAYS_SAFE ++ safe) = true ∨ c = ord "%".
Proof.
  induction bs as [|b bs IH]; intros Hb; [by intros ?%not_elem_of_nil|].
  rewrite fmap_cons. cbn [concat]. intros [Hc|Hc]%elem_of_app.
  - assert (b < 256) as Hb1 by (apply Hb, list_elem_of_here).
    unfold quoter in Hc. destruct (char_in b (ALWAYS_SAFE ++ safe)) eqn:Es.
    + apply list_elem_of_singleton in Hc as ->. by left.
    + repeat (apply elem_of_cons in Hc as [->|Hc]); [by right|left..|by apply not_elem_of_nil in Hc];
        rewrite char_in_app; apply orb_true_iff; left; apply hexdigit_safe; lia.
  - apply IH; [|done]. intros b' Hb'. by apply Hb, list_elem_of_further.
Qed.
End quoting.

Lemma split_on_notin c s : c ∉ s → split_on c s = [s].
Proof.
  induction s as [|d s IH]; [done|]. intros [Hd Hs]%not_elem_of_cons. cbn [split_on].
  rewrite (proj2 (N.eqb_neq d c)) by done. by rewrite IH.
Qed.

Lemma split_on_app c a b : c ∉ a → split_on c (a ++ c :: b) = a :: split_on c b.
Proof.
  induction a as [|d a IH]; intros Ha; cbn [app split_on].
  - by rewrite N.eqb_refl.
  - apply not_elem_of_cons in Ha as [Hd Ha].
    rewrite (proj2 (N.eqb_neq d c)) by done. by rewrite IH.
Qed.

Lemma split_on_join c items :
  items ≠ [] → Forall (λ item, c ∉ item) items → split_on c (join [c] items) = items.
Proof.
  intros Hne Hall. induction Hall as [|x items Hx Hall IH]; [done|].
  destruct items as [|y items].
  - cbn [join]. by apply split_on_notin.
  - change (join [c] (x :: y :: items)) with (x ++ c :: join [c] (y :: items)).
    rewrite split_on_app by done. by rewrite IH.
Qed.

Lemma asciire_split_ascii e :
  e ≠ [] → forallb isascii e = true → asciire_split e = [[]; e; []].
Proof.
  induction e as [|c e IH]; [done|]. intros _ Ha. cbn [forallb] in Ha.
  apply andb_true_iff in Ha as [Hc He].
  destruct (decide (e = [])) as [->|Hne].
  - cbn. by rewrite Hc.
  - specialize (IH Hne He). cbn [asciire_split]. by rewrite IH, Hc.
Qed.

Lemma always_safe_ascii c : char_in c ALWAYS_SAFE = true → isascii c = true.
Proof. apply char_in_forallb. by vm_compute. Qed.

Lemma quoted_unquote safe bs :
  (∀ c, c ∈ safe → isascii c = true) → ord "%" ∉ safe →
  (∀ b, b ∈ bs → b < 256) →
  unquote (concat (quoter safe <$> bs)) = utf8_decode bs.
Proof.
  intros Hsafe Hpc Hbs. set (e := concat (quoter safe <$> bs)).
  pose proof (quoter_unquote safe Hpc bs Hbs) as Hj. fold e in Hj.
  assert (forallb isascii e = true) as Hascii.
  { apply forallb_forall. intros c Hc%list_elem_of_In.
    apply (quoter_chars safe bs c Hbs) in Hc as [Hc| ->]; [|done].
    rewrite char_in_app in Hc. apply orb_true_iff in Hc as [Hc|Hc].
    - by apply always_safe_ascii.
    - by apply Hsafe, char_in_true. }
  unfold unquote. destruct (char_in (ord "%") e) eqn:Ep; cbn [negb].
  - assert (e ≠ []) as Hne by (intros E; rewrite E in Ep; done).
    rewrite asciire_split_ascii by done. cbn [unquote_bits app].
    by rewrite unquote_to_bytes_join, Hj, !app_nil_r.
  - apply char_in_false in Ep. rewrite split_on_notin in Hj by done.
    cbn in Hj. rewrite app_nil_r in Hj. rewrite <-Hj.
    by rewrite utf8_decode_ascii.
Qed.

Lemma quote_inv s safe e :
  quote s safe = Ok e →
  ∃ bs, utf8_encode s = Ok bs ∧ e = concat (quoter safe <$> bs).
Proof.
  unfold quote. destruct s as [|c s]; [intros [= <-]; by exists []|]. cbn [is_empty].
  destruct (utf8_encode (c :: s)) as [bs|] eqn:E; [|done]. cbn. intros [= <-].
  exists bs. by rewrite quote_from_bytes_concat.
Qed.

Lemma quote_unquote s safe e :
  (∀ c, c ∈ safe → isascii c = true) → ord "%" ∉ safe →
  quote s safe = Ok e → unquote e = s.
Proof.
  intros Hsafe Hpc (bs & Hbs & ->)%quote_inv.
  rewrite quoted_unquote; [by apply utf8_decode_encode|done..|].
  intros b Hb. by apply (utf8_encode_byte s bs).
Qed.

Lemma quote_chars s safe e c :
  quote s safe = Ok e → c ∈ e → char_in c (ALWAYS_SAFE ++ safe) = true ∨ c = ord "%".
Proof.
  intros (bs & Hbs & ->)%quote_inv Hc. apply (quoter_chars safe bs c); [|done].
  intros b Hb. by apply (utf8_encode_byte s bs).
Qed.

Lemma replace_char_id a b s : a ∉ s → replace_char a b s = s.
Proof.
  induction s as [|c s IH]; [done|]. intros [Hc Hs]%not_elem_of_cons.
  unfold replace_char in *. rewrite fmap_cons, IH by done.
  by rewrite (proj2 (N.eqb_neq c a)) by done.
Qed.

Lemma replace_char_inv a b s : b ∉ s → replace_char b a (replace_char a b s) = s.
Proof.
  induction s as [|c s IH]; [done|]. intros [Hc Hs]%not_elem_of_cons.
  unfold replace_char in *. rewrite !fmap_cons, IH by done. f_equal.
  destruct (N.eqb_spec c a) as [->|Hne].
  - by rewrite N.eqb_refl.
  - by rewrite (proj2 (N.eqb_neq c b)) by done.
Qed.

Lemma elem_of_replace_char c a b s :
  c ∈ replace_char a b s → c = b ∨ (c ∈ s ∧ c ≠ a).
Proof.
  unfold replace_char. intros (d & -> & Hd)%list_elem_of_fmap.
  destruct (N.eqb_spec d a) as [->|Hne]; [by left|by right].
Qed.

Lemma quote_plus_chars s e c :
  quote_plus s = Ok e → c ∈ e → char_in c QUOTED_CHARS = true.
Proof.
  unfold quote_plus, QUOTED_CHARS. rewrite char_in_app.
  destruct (char_in (ord " ") s); cbn [negb].
  - destruct (quote s (py " ")) as [e0|] eqn:E; [|done]. cbn. intros [= <-] Hc.
    apply elem_of_replace_char in Hc as [->|[Hc Hne]]; [done|].
    apply (quote_chars _ _ _ _ E) in Hc as [Hc| ->]; [|done].
    rewrite char_in_app in Hc. apply orb_true_iff in Hc as [->|Hc]; [done|].
    apply char_in_true in Hc. vm_compute in Hc.
    apply elem_of_cons in Hc as [->|Hc]; [done|]. by apply not_elem_of_nil in Hc.
  - intros E Hc. apply (quote_chars _ _ _ _ E) in Hc as [Hc| ->]; [|done].
    rewrite app_nil_r in Hc. by rewrite Hc.
Qed.

Lemma quote_plus_unquote s e :
  quote_plus s = Ok e → unquote (replace_char (ord "+") (ord " ") e) = s.
Proof.
  unfold quote_plus. destruct (char_in (ord " ") s); cbn [negb].
  - destruct (quote s (py " ")) as [e0|] eqn:E; [|done]. cbn. intros [= <-].
    rewrite replace_char_inv.
    + apply (quote_unquote s (py " ")); [| |done].
      * intros c Hc. vm_compute in Hc. apply list_elem_of_singleton in Hc as ->. done.
      * intros Hc. vm_compute in Hc. by apply list_elem_of_singleton in Hc.
    + intros Hc. apply (quote_chars _ _ _ _ E) in Hc as [Hc|Hc]; [|done].
      vm_compute in Hc. done.
  - intros E. rewrite replace_char_id.
    + apply (quote_unquote s []); [by intros c ?%not_elem_of_nil|apply not_elem_of_nil|done].
    + intros Hc. apply (quote_chars _ _ _ _ E) in Hc as [Hc|Hc]; [|done].
      vm_compute in Hc. done.
Qed.

Lemma parse_qsl_items qs :
  parse_qsl qs
  = omap parse_item (if is_empty qs then [] else split_on (ord "&") qs).
Proof. reflexivity. Qed.

Lemma urlencode_inv l q :
  urlencode l = Ok q →
  ∃ items, q = join (py "&") items ∧ Forall2 encoded_item l items.
Proof.
  unfold urlencode.
  set (f := λ kv : pystr * pystr, _).
  destruct (mapM f l) as [items|] eqn:E; [|done]. cbn. intros [= <-].
  exists items. split; [done|]. revert items E.
  induction l as [|kv l IH]; intros items E.
  - injection E as <-. constructor.
  - cbn [mapM] in E. destruct (f kv) as [item|] eqn:Ei; [|done].
    cbn [mbind result_bind] in E.
    destruct (mapM f l) as [items'|] eqn:E'; [|done]. injection E as <-.
    constructor; [|by apply IH]. unfold f in Ei.
    destruct (quote_plus kv.1) as [k|] eqn:Ek; [|done]. cbn [mbind result_bind] in Ei.
    destruct (quote_plus kv.2) as [v|] eqn:Ev; [|done]. injection Ei as <-. by exists k, v.
Qed.

Lemma encoded_item_chars kv item c :
  encoded_item kv item → c ∈ item → char_in c (QUOTED_CHARS ++ py "=") = true.
Proof.
  intros (k & v & Hk & Hv & ->). rewrite char_in_app, !elem_of_app.
  intros [Hc|[Hc|Hc]].
  - by rewrite (quote_plus_chars _ _ _ Hk Hc).
  - vm_compute in Hc. apply list_elem_of_singleton in Hc as ->. by rewrite orb_true_r.
  - by rewrite (quote_plus_chars _ _ _ Hv Hc).
Qed.

Lemma parse_item_encoded kv item :
  encoded_item kv item → parse_item item = Some kv.
Proof.
  intros (k & v & Hk & Hv & ->). unfold parse_item.
  change (py "=" ++ v) with (ord "=" :: v).
  assert (ord "=" ∉ k) as Hn.
  { intros Hc. apply (quote_plus_chars _ _ _ Hk) in Hc. vm_compute in Hc. done. }
  rewrite split_once_app by done.
  replace (is_empty (k ++ ord "=" :: v)) with false by (by destruct k).
  cbn [fst snd]. rewrite (quote_plus_unquote _ _ Hk), (quote_plus_unquote _ _ Hv).
  by destruct kv.
Qed.

Lemma join_chars sep items c :
  c ∈ join sep items → c ∈ sep ∨ ∃ item, item ∈ items ∧ c ∈ item.
Proof.
  induction items as [|x items IH]; [by intros ?%not_elem_of_nil|].
  destruct items as [|y items].
  - cbn [join]. intros Hc. right. exists x. split; [apply list_elem_of_here|done].
  - change (join sep (x :: y :: items)) with (x ++ sep ++ join sep (y :: items)).
    rewrite !elem_of_app. intros [Hc|[Hc|Hc]].
    + right. exists x. split; [apply list_elem_of_here|done].
    + by left.
    + destruct (IH Hc) as [?|(item & Hi & ?)]; [by left|].
      right. exists item. split; [by apply list_elem_of_further|done].
Qed.

(** [parse_qsl] reads back what [urlencode] wrote. *)
Lemma parse_qsl_urlencode l q : urlencode l = Ok q → parse_qsl q = l.
Proof.
  intros (items & -> & Hall)%urlencode_inv. rewrite parse_qsl_items.
  destruct Hall as [|kv item l items Hi Hall]; [done|].
  replace (is_empty (join (py "&") (item :: items))) with false.
  2:{ destruct Hi as (k & v & _ & _ & ->). destruct items; cbn [join]; by destruct k. }
  change (py "&") with [ord "&"]. rewrite split_on_join; [|done|].
  2:{ apply Forall_forall. intros x Hx Hc.
      assert (∃ kv', encoded_item kv' x) as [kv' Hkv'].
      { apply elem_of_cons in Hx as [->|Hx]; [by exists kv|].
        apply list_elem_of_lookup in Hx as [i Hx].
        destruct (Forall2_lookup_r _ _ _ _ _ Hall Hx) as (kv' & _ & ?). by exists kv'. }
      apply (encoded_item_chars _ _ _ Hkv') in Hc. vm_compute in Hc. done. }
  assert (Forall2 encoded_item (kv :: l) (item :: items)) as Hall' by by constructor.
  clear Hi Hall. induction Hall' as [|kv' item' l' items' Hi' _ IH]; [done|].
  cbn [omap list_omap]. rewrite (parse_item_encoded _ _ Hi'). cbn. by rewrite IH.
Qed.

Lemma urlencode_chars l q c :
  urlencode l = Ok q → c ∈ q → char_in c (QUOTED_CHARS ++ py "=&") = true.
Proof.
  intros (items & -> & Hall)%urlencode_inv Hc.
  apply join_chars in Hc as [Hc|(item & Hi & Hc)].
  - vm_compute in Hc. apply list_elem_of_singleton in Hc as ->. done.
  - apply list_elem_of_lookup in Hi as [i Hi].
    destruct (Forall2_lookup_r _ _ _ _ _ Hall Hi) as (kv & _ & Hkv).
    apply (encoded_item_chars _ _ _ Hkv) in Hc.
    rewrite char_in_app in *. apply orb_true_iff in Hc as [->|Hc]; [done|].
    apply char_in_true in Hc. vm_compute in Hc.
    apply list_elem_of_singleton in Hc as ->. by rewrite orb_true_r.
Qed.

(** ** [urlunsplit] writes a URL that [urlsplit] reads back *)

Lemma default_Some {A} (d x : A) : default d (Some x) = x.
Proof. reflexivity. Qed.

Lemma default_None {A} (d : A) : default d None = d.
Proof. reflexivity. Qed.

Lemma default_nonempty s : default [] (nonempty s) = s.
Proof. by destruct s. Qed.

Lemma urlunsplit_assemble sc n p q :
  urlunsplit sc n p q []
  = if with_netloc sc n p
    then assemble (nonempty sc) (Some n) (rooted p) (nonempty q) None
    else assemble (nonempty sc) None p (nonempty q) None.
Proof.
  unfold urlunsplit, assemble. fold (with_netloc sc n p). fold (rooted p).
  cbn [is_empty negb].
  destruct (with_netloc sc n p), sc as [|c sc], q as [|d q];
    cbn [nonempty is_empty negb opt_part app];
    rewrite <-?app_assoc, ?app_nil_r; reflexivity.
Qed.

Lemma rooted_id p : (p = [] ∨ ∃ p', p = ord "/" :: p') → rooted p = p.
Proof. intros [->|[p' ->]]; reflexivity. Qed.

Lemma rooted_cases p :
  rooted p = p ∧ (p = [] ∨ ∃ p', p = ord "/" :: p')
  ∨ rooted p = ord "/" :: p ∧ ∃ c p', p = c :: p' ∧ c ≠ ord "/".
Proof.
  destruct p as [|c p]; [left; split; [done|by left]|].
  destruct (decide (c = ord "/")) as [->|Hne].
  - left. split; [done|]. right. by exists p.
  - right. split; [|by exists c, p]. unfold rooted. cbn [is_empty negb take andb].
    rewrite bool_decide_eq_false_2; [done|]. intros [= ?]. done.
Qed.

Lemma rooted_head p : rooted p = [] ∨ ∃ p', rooted p = ord "/" :: p'.
Proof.
  destruct (rooted_cases p) as [[-> Hp]|[-> _]]; [done|]. right. by eexists.
Qed.

(** ** The trailing-slash step *)

Lemma is_slash_true c : is_slash c = true ↔ c = ord "/".
Proof.
  unfold is_slash. rewrite char_in_true. change (py "/") with [ord "/"].
  apply list_elem_of_singleton.
Qed.

Lemma strip_trailing_slash_unfold p :
  strip_trailing_slash p
  = if endswith (ord "/") p && negb (bool_decide (p = py "/"))
    then rstrip is_slash p else p.
Proof. reflexivity. Qed.

Lemma strip_trailing_slash_prefix p :
  ∃ t, p = strip_trailing_slash p ++ t ∧ forallb is_slash t = true.
Proof.
  rewrite strip_trailing_slash_unfold. destruct (_ && _).
  - apply rstrip_prefix.
  - exists []. by rewrite app_nil_r.
Qed.

Lemma strip_trailing_slash_end p :
  strip_trailing_slash p = py "/" ∨ last (strip_trailing_slash p) ≠ Some (ord "/").
Proof.
  rewrite strip_trailing_slash_unfold.
  destruct (endswith (ord "/") p) eqn:Ee; cbn [andb].
  - destruct (decide (p = py "/")) as [->|Hne]; [by left|].
    rewrite bool_decide_eq_false_2 by done. cbn [negb]. right.
    pose proof (rstrip_last is_slash p) as Hl. intros E. rewrite E in Hl.
    by rewrite (proj2 (is_slash_true _)) in Hl.
  - right. intros E. apply endswith_true in E. congruence.
Qed.

Lemma strip_trailing_slash_id p :
  p = py "/" ∨ last p ≠ Some (ord "/") → strip_trailing_slash p = p.
Proof.
  rewrite strip_trailing_slash_unfold. intros [->|Hl]; [done|].
  destruct (endswith (ord "/") p) eqn:Ee; [|done].
  by apply endswith_true in Ee.
Qed.

Lemma strip_trailing_slash_idemp p :
  strip_trailing_slash (strip_trailing_slash p) = strip_trailing_slash p.
Proof. apply strip_trailing_slash_id, strip_trailing_slash_end. Qed.

Lemma strip_trailing_slash_elem p c : c ∈ strip_trailing_slash p → c ∈ p.
Proof.
  destruct (strip_trailing_slash_prefix p) as (t & E & _). intros Hc.
  rewrite E. apply elem_of_app. by left.
Qed.

Lemma strip_trailing_slash_head p c r :
  strip_trailing_slash p = c :: r → ∃ p', p = c :: p'.
Proof.
  destruct (strip_trailing_slash_prefix p) as (t & E & _). intros Er.
  rewrite Er in E. by eexists.
Qed.

Lemma strip_trailing_slash_rooted p :
  (p = [] ∨ ∃ p', p = ord "/" :: p') →
  strip_trailing_slash p = [] ∨ ∃ p', strip_trailing_slash p = ord "/" :: p'.
Proof.
  intros Hp. destruct (strip_trailing_slash p) as [|c r] eqn:E; [by left|right].
  apply strip_trailing_slash_head in E as [p' ->].
  destruct Hp as [?|[p'' [= -> ->]]]; [done|]. by eexists.
Qed.

(** ** The scheme test *)

Lemma find_char_app_cases c a t :
  find_char c (a ++ t)
  = match find_char c a with
    | Some i => Some i
    | None => (λ j, (length a + j)%nat) <$> find_char c t
    end.
Proof.
  induction a as [|d a IH]; cbn [app find_char length].
  - destruct (find_char c t); done.
  - destruct (d =? c); [done|]. rewrite IH.
    destruct (find_char c a); [done|]. by destruct (find_char c t).
Qed.

Lemma has_scheme_head w :
  match w with
  | c :: _ => isascii c && ascii_isalpha c = false
  | [] => True
  end → has_scheme w = false.
Proof.
  unfold has_scheme. destruct (find_char _ w); [|done].
  destruct w as [|c w]; [by rewrite andb_false_r|]. intros ->.
  by rewrite andb_false_r.
Qed.

Lemma has_scheme_app a t :
  match t with
  | d :: _ => char_in d scheme_chars = false ∧ d ≠ ord ":"
  | [] => True
  end → has_scheme (a ++ t) = has_scheme a.
Proof.
  intros Ht. unfold has_scheme. rewrite find_char_app_cases.
  destruct (find_char (ord ":") a) as [i|] eqn:E.
  - apply find_char_lt in E as Hlt. rewrite take_app_le by lia.
    destruct a as [|c a]; [simpl in Hlt; lia|]. done.
  - destruct t as [|d t]; [done|]. destruct Ht as [Hd Hne]. cbn [find_char].
    rewrite (proj2 (N.eqb_neq d _)) by done.
    destruct (find_char (ord ":") t) as [j|]; [|done]. cbn [fmap option_fmap option_map].
    rewrite take_app_ge by lia.
    replace (length a + S j - length a)%nat with (S j) by lia. cbn [take].
    rewrite forallb_app. cbn [forallb]. rewrite Hd.
    by rewrite andb_false_r, andb_false_r.
Qed.

Lemma scheme_chars_ascii c : char_in c scheme_chars = true → isascii c = true.
Proof. apply char_in_forallb. by vm_compute. Qed.

Lemma scheme_chars_lower c :
  char_in c scheme_chars = true → char_in (ascii_lower c) scheme_chars = true.
Proof.
  apply (char_in_forallb (λ c, char_in (ascii_lower c) scheme_chars)). by vm_compute.
Qed.

Lemma scheme_chars_safe c :
  char_in c scheme_chars = true → char_in c UNSAFE_URL_BYTES_TO_REMOVE = false.
Proof.
  intros Hc. apply negb_true_iff. revert Hc.
  apply (char_in_forallb (λ c, negb (char_in c UNSAFE_URL_BYTES_TO_REMOVE))).
  by vm_compute.
Qed.

Lemma alpha_lower c :
  isascii c && ascii_isalpha c = true →
  isascii (ascii_lower c) && ascii_isalpha (ascii_lower c) = true.
Proof.
  unfold isascii, ascii_isalpha, ascii_lower, ascii_isupper, ascii_islower.
  intros Hc. destruct ((65 <=? c) && (c <=? 90)) eqn:E; nbool; lia.
Qed.

Lemma alpha_head_ok c :
  isascii c && ascii_isalpha c = true →
  char_in c WHATWG_C0_CONTROL_OR_SPACE = false.
Proof.
  intros Hc. apply char_in_false. intros Hin. vm_compute in Hin.
  repeat (apply elem_of_cons in Hin as [->|Hin]); try (vm_compute in Hc; done).
  by apply not_elem_of_nil in Hin.
Qed.

Section lower.
Context `{PyEnv}.

Lemma scheme_ok_lower x : scheme_ok x → scheme_ok (str_lower x).
Proof.
  intros [Hh Hx]. rewrite str_lower_ascii.
  2:{ apply forallb_forall. intros c Hc%list_elem_of_In. by apply scheme_chars_ascii, Hx. }
  split.
  - destruct x as [|c x]; [done|]. rewrite fmap_cons. by apply alpha_lower.
  - intros c (d & -> & Hd)%list_elem_of_fmap. by apply scheme_chars_lower, Hx.
Qed.

Lemma scheme_ok_nonempty x : scheme_ok x → str_lower x ≠ [].
Proof. intros [Hh _] E%str_lower_nil. by subst x. Qed.

(** Lower-casing brings in no delimiter and no control character. *)
Lemma str_lower_avoids (chars s : pystr) :
  (∀ c, c ∈ chars → isascii c = true ∧ ascii_islower c = false) →
  (∀ c, c ∈ s → char_in c chars = false) →
  ∀ c, c ∈ str_lower s → char_in c chars = false.
Proof.
  intros Hchars Hs c Hc. apply char_in_false. intros Hin.
  destruct (Hchars c Hin) as [Ha Hl].
  apply (str_lower_keeps c s Ha Hl) in Hc. apply Hs in Hc.
  by apply char_in_false in Hc.
Qed.
End lower.

(** ** Clean strings *)

Lemma is_clean_iff w : is_clean w ↔ head_ok w ∧ safe_chars w.
Proof. done. Qed.

Lemma safe_chars_app a b : safe_chars (a ++ b) ↔ safe_chars a ∧ safe_chars b.
Proof.
  unfold safe_chars. setoid_rewrite elem_of_app. naive_solver.
Qed.

Lemma safe_chars_nil : safe_chars [].
Proof. by intros c ?%not_elem_of_nil. Qed.

Lemma safe_chars_opt sep x :
  safe_chars (opt_part sep x) ↔ match x with Some s => safe_chars sep ∧ safe_chars s | None => True end.
Proof.
  destruct x as [s|]; cbn [opt_part]; [apply safe_chars_app|].
  split; [done|]. intros _. apply safe_chars_nil.
Qed.

Lemma safe_chars_assemble sx nx p qx fx :
  safe_chars (assemble sx nx p qx fx) ↔
  match sx with Some x => safe_chars x | None => True end ∧
  match nx with Some n => safe_chars n | None => True end ∧
  safe_chars p ∧
  match qx with Some q => safe_chars q | None => True end ∧
  match fx with Some f => safe_chars f | None => True end.
Proof.
  unfold assemble. rewrite !safe_chars_app, !safe_chars_opt.
  assert (∀ s, safe_chars (py s) ↔ (∀ c, c ∈ py s → char_in c UNSAFE_URL_BYTES_TO_REMOVE = false))
    as Hlit by done.
  assert (safe_chars (py ":") ∧ safe_chars (py "//") ∧ safe_chars (py "?") ∧ safe_chars (py "#"))
    as (H1 & H2 & H3 & H4).
  { split_and!; intros c Hc; vm_compute in Hc;
      repeat (apply elem_of_cons in Hc as [->|Hc]); try done; by apply not_elem_of_nil in Hc. }
  destruct sx, nx, qx, fx; rewrite ?safe_chars_app; pose proof safe_chars_nil; naive_solver.
Qed.

Lemma head_ok_assemble sx nx p qx fx :
  match sx with Some x => scheme_ok x | None => True end →
  (sx = None → nx = None → head_ok p) →
  head_ok (assemble sx nx p qx fx).
Proof.
  intros Hx Hp. unfold assemble. destruct sx as [x|].
  - destruct Hx as [Hh _]. destruct x as [|c x]; [done|]. by apply alpha_head_ok.
  - cbn [app]. destruct nx as [n|]; [done|]. cbn [opt_part app].
    specialize (Hp eq_refl eq_refl). destruct p as [|c p]; [|done]. cbn [app].
    pose proof (opt_tail_head qx fx) as Ht.
    destruct (opt_part (py "?") qx ++ opt_part (py "#") fx) as [|c t]; [done|].
    destruct Ht as [-> | ->]; done.
Qed.

Lemma has_scheme_tail p qx fx :
  has_scheme (p ++ opt_part (py "?") qx ++ opt_part (py "#") fx) = has_scheme p.
Proof.
  apply has_scheme_app. pose proof (opt_tail_head qx fx) as Ht.
  destruct (opt_part (py "?") qx ++ opt_part (py "#") fx) as [|c t]; [done|].
  destruct Ht as [-> | ->]; done.
Qed.

Lemma has_scheme_assemble_none nx p qx fx :
  (nx = None → has_scheme p = false) →
  has_scheme (assemble None nx p qx fx) = false.
Proof.
  intros Hp. unfold assemble. cbn [app]. destruct nx as [n|].
  - by apply has_scheme_head.
  - cbn [opt_part app]. rewrite has_scheme_tail. by apply Hp.
Qed.

Lemma has_scheme_slashes p t :
  forallb is_slash t = true → has_scheme (p ++ t) = has_scheme p.
Proof.
  intros Ht. apply has_scheme_app. destruct t as [|d t]; [done|].
  cbn [forallb] in Ht. apply andb_true_iff in Ht as [Hd%is_slash_true _]. by subst d.
Qed.

Lemma filter_idemp {A} (f : A → bool) l :
  List.filter f (List.filter f l) = List.filter f l.
Proof.
  induction l as [|x l IH]; [done|]. cbn [List.filter].
  destruct (f x) eqn:E; [|done]. cbn [List.filter]. by rewrite E, IH.
Qed.

Section idempotence.
Context `{PyEnv}.

Lemma normalize_url_try_unfold u :
  normalize_url_try u
  = s ← urlsplit u;
    query ← urlencode (List.filter keep (parse_qsl (query s)));
    Ok (urlunsplit (str_lower (scheme s)) (str_lower (netloc s))
          (strip_trailing_slash (path s)) query []).
Proof. reflexivity. Qed.

Lemma str_lower_scheme sx :
  str_lower (from_option str_lower [] sx) = from_option str_lower [] sx.
Proof.
  destruct sx as [x|]; cbn [from_option]; [apply str_lower_idemp|apply str_lower_nil_eq].
Qed.

(** A URL that is written as [normalize_url] writes it is left as it is. *)
Lemma normalize_url_fixed sx nx p l q :
  is_clean (assemble sx nx p (nonempty q) None) →
  Shape sx nx p (nonempty q) None →
  str_lower (default [] nx) = default [] nx →
  strip_trailing_slash p = p →
  urlencode l = Ok q → List.filter keep l = l →
  urlunsplit (from_option str_lower [] sx) (default [] nx) p q []
  = assemble sx nx p (nonempty q) None →
  normalize_url (assemble sx nx p (nonempty q) None)
  = assemble sx nx p (nonempty q) None.
Proof.
  intros Hclean Hshape Hn Hp Hq Hl Hr.
  unfold normalize_url. rewrite normalize_url_try_unfold.
  rewrite urlsplit_assemble by done.
  destruct (netloc_ok (default [] nx)) as [[]|e]; [|done].
  cbn [mbind result_bind scheme netloc path query].
  rewrite default_nonempty, (parse_qsl_urlencode _ _ Hq), Hl, Hq.
  cbn [mbind result_bind].
  rewrite str_lower_scheme, Hn, Hp, Hr. by destruct (is_empty _).
Qed.

Lemma normalize_url_try_fixed u s r :
  urlsplit u = Ok s → normalize_url_try u = Ok r →
  (netloc s ≠ [] ∨ take 2 (strip_trailing_slash (path s)) ≠ py "//") →
  normalize_url r = r.
Proof.
  intros Hu Hr Hhyp.
  destruct (urlsplit_Ok u s Hu)
    as (sx & nx & qx & fx & Hc & [Hs Hn Hp Hq] & Esc & En & Eq & Ef & Hok).
  rewrite normalize_url_try_unfold, Hu in Hr. cbn [mbind result_bind] in Hr.
  destruct (urlencode _) as [q'|] eqn:Eq'; [|done].
  cbn [mbind result_bind] in Hr. injection Hr as Hr.
  set (l := List.filter keep (parse_qsl (query s))) in *.
  set (P := strip_trailing_slash (path s)) in *.
  pose proof (clean_url_is_clean u) as Hclean. rewrite Hc in Hclean.
  apply is_clean_iff in Hclean as [Hhead Hsafe].
  apply safe_chars_assemble in Hsafe as (Ssx & Snx & Sp & _ & _).
  assert (∀ c, c ∈ P → char_in c (py "?#") = false) as HPc.
  { intros c Hin. by apply Hp, strip_trailing_slash_elem. }
  assert (safe_chars P) as HPs.
  { intros c Hin. by apply Sp, strip_trailing_slash_elem. }
  assert (ord "#" ∉ q') as Hq'h.
  { intros Hin. apply (urlencode_chars _ _ _ Eq') in Hin. vm_compute in Hin. done. }
  assert (safe_chars q') as Hq's.
  { intros c Hin. apply (urlencode_chars _ _ _ Eq') in Hin.
    apply negb_true_iff. revert Hin.
    apply (char_in_forallb (λ c, negb (char_in c UNSAFE_URL_BYTES_TO_REMOVE))).
    by vm_compute. }
  assert (List.filter keep l = l) as Hl by apply filter_idemp.
  assert (strip_trailing_slash P = P) as HPP by apply strip_trailing_slash_idemp.
  set (sc := scheme s) in *.
  assert (str_lower sc = sc) as Hsc by (rewrite Esc; apply str_lower_scheme).
  rewrite Hsc in Hr.
  assert (from_option str_lower [] (nonempty sc) = sc) as Hsc'.
  { destruct sc; [done|]. cbn [nonempty is_empty from_option]. done. }
  assert (match nonempty sc with Some x => scheme_ok x | None => sx = None end) as Hsx.
  { destruct sx as [x|]; cbn [from_option] in Esc.
    - pose proof (scheme_ok_nonempty x Hs) as Hne. rewrite <-Esc in Hne.
      destruct sc; [done|]. cbn [nonempty is_empty]. rewrite Esc. by apply scheme_ok_lower.
    - by rewrite Esc. }
  assert (match nonempty sc with Some x => scheme_ok x | None => True end) as Hsx1.
  { by destruct (nonempty sc). }
  assert (match nonempty sc with Some x => safe_chars x | None => True end) as Hsx2.
  { destruct (nonempty sc) as [x|]; [|done]. intros c Hin.
    destruct Hsx as [_ Hx]. by apply scheme_chars_safe, Hx. }
  assert (∀ q, nonempty q' = Some q → ord "#" ∉ q) as Hq'.
  { intros q Eqn. destruct q'; [done|]. by injection Eqn as <-. }
  assert (match nonempty q' with Some q => safe_chars q | None => True end) as Hq'2.
  { by destruct q'. }
  rewrite <-Hr, urlunsplit_assemble.
  destruct nx as [n|];
    [change (netloc s = n) in En|change (netloc s = []) in En].
  - (* the URL has an authority part *)
    destruct Hn as [Hn Hroot].
    assert (P = [] ∨ ∃ p', P = ord "/" :: p') as HProot
      by by apply strip_trailing_slash_rooted.
    destruct (with_netloc sc (str_lower (netloc s)) P) eqn:Ew.
    + rewrite (rooted_id P) by done.
      assert (∀ c, c ∈ str_lower (netloc s) → char_in c (py "/?#") = false) as Hn'.
      { rewrite En. apply str_lower_avoids; [|done]. intros c Hin. vm_compute in Hin.
        repeat (apply elem_of_cons in Hin as [->|Hin]); try done.
        by apply not_elem_of_nil in Hin. }
      assert (safe_chars (str_lower (netloc s))) as Hn's.
      { rewrite En. unfold safe_chars.
        apply str_lower_avoids; [|done]. intros c Hin. vm_compute in Hin.
        repeat (apply elem_of_cons in Hin as [->|Hin]); try done.
        by apply not_elem_of_nil in Hin. }
      apply (normalize_url_fixed _ _ _ l).
      * apply is_clean_iff. split; [by apply head_ok_assemble|].
        apply safe_chars_assemble. by split_and!.
      * split; [|done..]. destruct (nonempty sc); [done|].
        by apply has_scheme_assemble_none.
      * rewrite ?default_Some, ?default_None. apply str_lower_idemp.
      * done.
      * done.
      * done.
      * rewrite ?default_Some, ?default_None. rewrite Hsc', urlunsplit_assemble, Ew. by rewrite rooted_id.
    + assert (str_lower (netloc s) = []) as En'.
      { unfold with_netloc in Ew. apply orb_false_iff in Ew as [Ew _].
        by destruct (str_lower (netloc s)). }
      assert (netloc s = []) as En0 by by apply str_lower_nil.
      destruct Hhyp as [?|Htake]; [done|]. rewrite En' in Ew.
      apply (normalize_url_fixed _ _ _ l).
      * apply is_clean_iff. split.
        -- apply head_ok_assemble; [done|]. intros _ _.
           destruct HProot as [->|[p' ->]]; done.
        -- apply safe_chars_assemble. by split_and!.
      * split; [|done..]. destruct (nonempty sc); [done|].
        apply has_scheme_assemble_none. intros _. apply has_scheme_head.
        destruct HProot as [->|[p' ->]]; done.
      * apply str_lower_nil_eq.
      * done.
      * done.
      * done.
      * rewrite ?default_Some, ?default_None. by rewrite Hsc', urlunsplit_assemble, Ew.
  - (* no authority part *)
    rewrite En, str_lower_nil_eq. rewrite En in Hhyp.
    destruct Hhyp as [?|Htake]; [done|].
    destruct (with_netloc sc [] P) eqn:Ew.
    + assert (take 2 P ≠ py "//" ∧ nonempty sc ≠ None) as [_ Hscne].
      { unfold with_netloc in Ew. cbn [is_empty negb orb] in Ew.
        destruct sc; [done|]. done. }
      assert (strip_trailing_slash (rooted P) = rooted P) as Hstrip.
      { destruct (rooted_cases P) as [[-> _]|[-> (c & p' & EP & Hne)]]; [done|].
        apply strip_trailing_slash_id. right.
        destruct (strip_trailing_slash_end (path s)) as [E|E]; fold P in E.
        - rewrite E in EP. by injection EP as <- <-.
        - rewrite EP in *. done. }
      assert (take 2 (rooted P) ≠ py "//") as Htake'.
      { destruct (rooted_cases P) as [[-> _]|[-> (c & p' & -> & Hne)]]; [done|].
        intros [= ?]. done. }
      assert (rooted (rooted P) = rooted P) as Hrr by apply rooted_id, rooted_head.
      apply (normalize_url_fixed _ _ _ l).
      * apply is_clean_iff. split; [by apply head_ok_assemble|].
        apply safe_chars_assemble. split_and!; [done|apply safe_chars_nil| |done..].
        destruct (rooted_cases P) as [[-> _]|[-> _]]; [done|].
        intros c [->|Hin]%elem_of_cons; [by vm_compute|by apply HPs].
      * split; [| | |done].
        -- destruct (nonempty sc); [done|]. by apply has_scheme_assemble_none.
        -- split; [by intros c ?%not_elem_of_nil|apply rooted_head].
        -- destruct (rooted_cases P) as [[-> _]|[-> _]]; [done|].
           intros c [->|Hin]%elem_of_cons; [by vm_compute|by apply HPc].
      * apply str_lower_nil_eq.
      * done.
      * done.
      * done.
      * rewrite ?default_Some, ?default_None. rewrite Hsc', urlunsplit_assemble.
        assert (with_netloc sc [] (rooted P) = true) as ->; [|by rewrite Hrr].
        unfold with_netloc in *. cbn [is_empty negb orb] in *.
        apply andb_true_iff in Ew as [-> _]. cbn [andb].
        by rewrite bool_decide_eq_false_2.
    + destruct (strip_trailing_slash_prefix (path s)) as (t & Et & Ht). fold P in Et.
      apply (normalize_url_fixed _ _ _ l).
      * apply is_clean_iff. split.
        -- apply head_ok_assemble; [done|]. intros Esx _.
           rewrite Esx in Hsx. subst sx. unfold assemble in Hhead.
           cbn [opt_part app] in Hhead. rewrite Et in Hhead.
           destruct P; [done|]. done.
        -- apply safe_chars_assemble. by split_and!.
      * split; [|done..]. destruct (nonempty sc); [done|]. subst sx.
        apply has_scheme_assemble_none. intros _.
        unfold assemble in Hs. cbn [opt_part app] in Hs.
        rewrite has_scheme_tail, Et in Hs. by rewrite has_scheme_slashes in Hs.
      * apply str_lower_nil_eq.
      * done.
      * done.
      * done.
      * rewrite ?default_Some, ?default_None. by rewrite Hsc', urlunsplit_assemble, Ew.
Qed.
End idempotence.

(** ** ASCII URLs without brackets

    On such a URL [normalize_url] consults nothing of the runtime beyond
    [str.lower] on ASCII strings, so that its value is the one computed with
    [ascii_env]. *)

Lemma plain_Forall u : plain u = true ↔ Forall (λ c, plain_char c = true) u.
Proof.
  unfold plain. rewrite forallb_forall, Forall_forall.
  by setoid_rewrite list_elem_of_In.
Qed.

Lemma lstrip_elem p s c : c ∈ lstrip p s → c ∈ s.
Proof.
  induction s as [|d s IH]; [done|]. cbn [lstrip]. destruct (p d); [|done].
  intros Hc. by apply list_elem_of_further, IH.
Qed.

Lemma clean_url_elem u c : c ∈ clean_url u → c ∈ u.
Proof.
  unfold clean_url, UNSAFE_URL_BYTES_TO_REMOVE. cbn [foldl].
  rewrite !elem_of_remove_char. intros [[[Hc _] _] _]. by apply lstrip_elem in Hc.
Qed.

Lemma Forall_assemble (P : N → Prop) sx nx p qx fx :
  Forall P (assemble sx nx p qx fx) →
  Forall P (default [] sx) ∧ Forall P (default [] nx) ∧ Forall P p.
Proof.
  unfold assemble, opt_part. destruct sx, nx; cbn [default]; unfold id;
    rewrite ?Forall_app; cbn [app]; rewrite ?Forall_app; naive_solver.
Qed.

Lemma plain_ascii s : Forall (λ c, plain_char c = true) s → forallb isascii s = true.
Proof.
  intros Hs. apply forallb_forall. intros c Hc%list_elem_of_In.
  rewrite Forall_forall in Hs. apply Hs in Hc. unfold plain_char in Hc.
  by apply andb_true_iff in Hc as [-> _].
Qed.

Lemma plain_no_bracket s c :
  Forall (λ c, plain_char c = true) s → c ∈ py "[]" → char_in c s = false.
Proof.
  intros Hs Hc. apply char_in_false. intros Hin. rewrite Forall_forall in Hs.
  apply Hs in Hin. unfold plain_char in Hin.
  apply andb_true_iff in Hin as [_ Hin]. apply negb_true_iff, char_in_false in Hin. done.
Qed.

Lemma ascii_lower_ascii s :
  forallb isascii s = true → forallb isascii (ascii_lower <$> s) = true.
Proof.
  rewrite !forallb_forall. intros Hs c (d & -> & Hd%list_elem_of_In%Hs)%list_elem_of_In%list_elem_of_fmap.
  unfold isascii, ascii_lower, ascii_isupper in *.
  destruct ((65 <=? d) && (d <=? 90)) eqn:E; nbool; lia.
Qed.

Section plain_parts.
Context `{PyEnv}.

Lemma urlsplit_clean u : urlsplit u = urlsplit (clean_url u).
Proof. by rewrite (urlsplit_unfold (clean_url u)), clean_url_idemp, <-urlsplit_unfold. Qed.

Lemma netloc_ok_plain n :
  Forall (λ c, plain_char c = true) n → netloc_ok n = Ok ().
Proof.
  intros Hn. unfold netloc_ok, bracket_checks.
  rewrite (plain_no_bracket n (ord "[")), (plain_no_bracket n (ord "]")); [|done|..].
  - cbn [andb orb mbind result_bind]. unfold checknetloc.
    by rewrite (plain_ascii n Hn), orb_true_r.
  - vm_compute. apply list_elem_of_further, list_elem_of_here.
  - done.
  - vm_compute. apply list_elem_of_here.
Qed.

End plain_parts.

Section plain.
Context `{PyEnv}.

(** What [urlsplit] finds in a plain URL. *)
Lemma urlsplit_plain u :
  plain u = true →
  ∃ s, urlsplit u = Ok s ∧ @urlsplit ascii_env u = Ok s ∧
       forallb isascii (scheme s) = true ∧ forallb isascii (netloc s) = true.
Proof.
  intros Hu%plain_Forall.
  assert (Forall (λ c, plain_char c = true) (clean_url u)) as Hw.
  { apply Forall_forall. intros c Hc%clean_url_elem. rewrite Forall_forall in Hu. auto. }
  rewrite urlsplit_clean, (@urlsplit_clean ascii_env).
  pose proof (clean_url_is_clean u) as Hclean.
  destruct (assemble_decompose (clean_url u)) as (sx & nx & p & qx & fx & E & Hs).
  rewrite E in *. apply Forall_assemble in Hw as (Hsx & Hnx & Hp).
  rewrite urlsplit_assemble, (@urlsplit_assemble ascii_env) by done.
  rewrite netloc_ok_plain, (@netloc_ok_plain ascii_env) by done.
  cbn [mbind result_bind].
  assert (from_option str_lower [] sx = @from_option _ pystr (@str_lower ascii_env) [] sx) as ->.
  { destruct sx as [x|]; [|done]. cbn [from_option]. apply str_lower_ascii.
    by apply plain_ascii. }
  eexists. split_and!; [done|done|..]; cbn [scheme netloc].
  - destruct sx as [x|]; [|done]. cbn [from_option].
    apply ascii_lower_ascii. by apply plain_ascii.
  - by apply plain_ascii.
Qed.

Lemma normalize_url_plain u :
  plain u = true → normalize_url u = @normalize_url ascii_env u.
Proof.
  intros (s & Hs & Hs' & Hsc & Hn)%urlsplit_plain.
  unfold normalize_url, normalize_url_try. rewrite Hs, Hs'.
  cbn [mbind result_bind]. by rewrite !str_lower_ascii.
Qed.
End plain.

(** ** [normalize_url]: trailing slashes, equivalent URLs, idempotence *)

Lemma forallb_is_slash t :
  forallb is_slash t = true → t = replicate (length t) (ord "/").
Proof.
  induction t as [|c t IH]; [done|]. cbn [forallb length replicate].
  intros [Hc%is_slash_true Ht]%andb_true_iff. by rewrite Hc, <-IH.
Qed.

Lemma strip_trailing_slash_rstrip p :
  p ≠ py "/" →
  strip_trailing_slash p = rstrip is_slash p ∧
  last (strip_trailing_slash p) ≠ Some (ord "/").
Proof.
  intros Hne. rewrite strip_trailing_slash_unfold.
  rewrite bool_decide_eq_false_2 by done. cbn [negb]. rewrite andb_true_r.
  destruct (endswith (ord "/") p) eqn:Ee.
  - split; [done|]. pose proof (rstrip_last is_slash p) as Hl. intros E.
    rewrite E in Hl. by rewrite (proj2 (is_slash_true _)) in Hl.
  - assert (last p ≠ Some (ord "/")) as Hl.
    { intros E. apply endswith_true in E. congruence. }
    split; [|done]. symmetry. apply rstrip_id.
    destruct (last p) as [c|]; [|done]. destruct (is_slash c) eqn:Ec; [|done].
    apply is_slash_true in Ec. by subst c.
Qed.

(** Evaluates [normalize_url] on plain literals. *)
Ltac eval_plain :=
  repeat match goal with
    | |- context [@normalize_url ?E ?u] =>
        lazymatch E with
        | ascii_env => fail
        | _ => rewrite (@normalize_url_plain E u) by (vm_compute; reflexivity)
        end
    end;
  vm_compute.

Section normalize.
Context `{PyEnv}.

Lemma normalize_url_Ok u r :
  normalize_url_try u = Ok r → r ≠ [] → normalize_url u = r.
Proof. unfold normalize_url. intros -> Hr. by destruct r. Qed.

Lemma example_slash :
  normalize_url (py "http://ex.com/a/") = py "http://ex.com/a" ∧
  normalize_url (py "http://ex.com/a") = py "http://ex.com/a" ∧
  normalize_url (py "http://ex.com/") = py "http://ex.com/" ∧
  normalize_url (py "http://ex.com") = py "http://ex.com" ∧
  normalize_url (py "http://ex.com/a//") = py "http://ex.com/a".
Proof.
  eval_plain. done.
Qed.


(** C5 (amended): [normalize_url] takes every trailing slash off the parsed
    path, not a single one.  For a URL that parses, the path [P] that is
    written back is the parsed path when this is exactly ["/"]; otherwise
    it is the parsed path without its trailing slashes: [P] does not end
    with a slash and the parsed path is [P] followed by slashes only, at
    least one when the parsed path ends with a slash.  So
    [http://ex.com/a/] and [http://ex.com/a] normalize identically,
    [http://ex.com/] is unchanged, and [http://ex.com/a//] loses both
    slashes. *)
Theorem strip_all_trailing_slashes :
  (∀ u s,
     urlsplit u = Ok s →
     let P := strip_trailing_slash (path s) in
     (path s = py "/" → P = py "/") ∧
     (path s ≠ py "/" →
      P = rstrip is_slash (path s) ∧ last P ≠ Some (ord "/")) ∧
     (∃ n, path s = P ++ replicate n (ord "/") ∧
           (path s ≠ py "/" → last (path s) = Some (ord "/") → (0 < n)%nat)) ∧
     (∀ q, urlencode (List.filter keep (parse_qsl (query s))) = Ok q →
           normalize_url_try u
           = Ok (urlunsplit (str_lower (scheme s)) (str_lower (netloc s))
                   P q []))) ∧
  normalize_url (py "http://ex.com/a/") = normalize_url (py "http://ex.com/a") ∧
  normalize_url (py "http://ex.com/") = py "http://ex.com/" ∧
  normalize_url (py "http://ex.com/a//") = py "http://ex.com/a".
Proof.
  pose proof example_slash as (E1 & E2 & E3 & _ & E5).
  split_and!; [|by rewrite E1, E2|done|done].
  intros u s Hu P. split_and!.
  - intros E. unfold P. by rewrite E.
  - apply strip_trailing_slash_rstrip.
  - destruct (strip_trailing_slash_prefix (path s)) as (t & Et & Ht).
    exists (length t). rewrite <-(forallb_is_slash t Ht). split; [done|].
    intros Hne Hl. destruct t as [|c t]; [|simpl; lia].
    rewrite app_nil_r in Et. rewrite Et in Hl.
    by destruct (strip_trailing_slash_rstrip _ Hne) as [_ ?].
  - intros q Hq. rewrite normalize_url_try_unfold, Hu. cbn [mbind result_bind].
    by rewrite Hq.
Qed.


(** C7 (amended): normalizing a normalized URL changes nothing, for every
    URL that, when it parses, has an authority part or a path that, once
    its trailing slashes are off, does not begin with two slashes. *)
Theorem normalize_url_idempotent (u : pystr) :
  (∀ s, urlsplit u = Ok s →
        netloc s ≠ [] ∨ take 2 (strip_trailing_slash (path s)) ≠ py "//") →
  normalize_url (normalize_url u) = normalize_url u.
Proof.
  intros Hu. destruct (normalize_url_try u) as [r|e] eqn:E.
  - destruct (is_empty r) eqn:Er.
    + assert (normalize_url u = u) as Eu by (unfold normalize_url; by rewrite E, Er).
      by rewrite !Eu.
    + assert (normalize_url u = r) as -> by (unfold normalize_url; by rewrite E, Er).
      destruct (urlsplit u) as [s|e] eqn:Es.
      * apply (normalize_url_try_fixed u s); [done|done|by apply Hu].
      * rewrite normalize_url_try_unfold, Es in E. done.
  - assert (normalize_url u = u) as Eu by (unfold normalize_url; by rewrite E).
    by rewrite !Eu.
Qed.
End normalize.

Lemma strip_all_trailing_slashes_witness :
  @urlsplit ascii_env (py "http://ex.com/a//?b=1")
  = Ok (mkSplitResult (py "http") (py "ex.com") (py "/a//") (py "b=1") []) ∧
  strip_trailing_slash (py "/a//") = py "/a" ∧
  py "/a//" = py "/a" ++ replicate 2 (ord "/") ∧
  @normalize_url_try ascii_env (py "http://ex.com/a//?b=1")
  = Ok (py "http://ex.com/a?b=1").
Proof.
  assert (@urlsplit ascii_env (py "http://ex.com/a//?b=1")
          = Ok (mkSplitResult (py "http") (py "ex.com") (py "/a//") (py "b=1") []))
    as Hu by (vm_compute; reflexivity).
  destruct (proj1 (@strip_all_trailing_slashes ascii_env) _ _ Hu) as (_ & _ & _ & Hq).
  split_and!; [exact Hu|vm_compute; reflexivity|vm_compute; reflexivity|].
  rewrite (Hq (py "b=1")) by (vm_compute; reflexivity). vm_compute. reflexivity.
Defined.

(** C5 as stated fails: the parsed path of [http://ex.com/a//] is [/a//],
    which ends with a slash and is not ["/"]; taking a single slash off it
    would leave [/a/], and [normalize_url] writes [/a]. *)
Lemma single_trailing_slash_counterexample :
  @urlsplit ascii_env (py "http://ex.com/a//")
  = Ok (mkSplitResult (py "http") (py "ex.com") (py "/a//") [] []) ∧
  strip_trailing_slash (py "/a//") = py "/a" ∧
  @normalize_url ascii_env (py "http://ex.com/a//") = py "http://ex.com/a" ∧
  @normalize_url ascii_env (py "http://ex.com/a//") ≠ py "http://ex.com/a/" ∧
  ¬ ∃ E : PyEnv, @normalize_url E (py "http://ex.com/a//") = py "http://ex.com/a/".
Proof.
  split_and!; [by vm_compute..|].
  intros [E He]. rewrite normalize_url_plain in He by (vm_compute; reflexivity).
  vm_compute in He. done.
Qed.



Lemma normalize_url_idempotent_witness :
  (∀ s, @urlsplit ascii_env (py "HTTP://EX.com/a/b//?utm_source=x&q=1+2#top") = Ok s →
        netloc s ≠ [] ∨ take 2 (strip_trailing_slash (path s)) ≠ py "//") ∧
  @normalize_url ascii_env
    (@normalize_url ascii_env (py "HTTP://EX.com/a/b//?utm_source=x&q=1+2#top"))
  = @normalize_url ascii_env (py "HTTP://EX.com/a/b//?utm_source=x&q=1+2#top").
Proof.
  assert (∀ s, @urlsplit ascii_env (py "HTTP://EX.com/a/b//?utm_source=x&q=1+2#top") = Ok s →
               netloc s ≠ [] ∨ take 2 (strip_trailing_slash (path s)) ≠ py "//") as Hyp.
  { intros s E. vm_compute in E. injection E as <-. left. vm_compute. done. }
  split; [exact Hyp|]. exact (@normalize_url_idempotent ascii_env _ Hyp).
Defined.

(** C7 as stated fails: [////X] normalizes to [//X], and [//X], whose
    authority part is [X], to [//x]. *)
Lemma normalize_url_not_idempotent :
  @normalize_url ascii_env (py "////X") = py "//X" ∧
  @normalize_url ascii_env (py "//X") = py "//x" ∧
  @normalize_url ascii_env (@normalize_url ascii_env (py "////X"))
  ≠ @normalize_url ascii_env (py "////X") ∧
  ¬ ∃ E : PyEnv,
      @normalize_url E (@normalize_url E (py "////X")) = @normalize_url E (py "////X").
Proof.
  split_and!; [by vm_compute..|].
  intros [E He]. rewrite (@normalize_url_plain E (py "////X")) in He by (vm_compute; reflexivity).
  assert (@normalize_url ascii_env (py "////X") = py "//X") as E1 by (vm_compute; reflexivity).
  rewrite E1 in He. rewrite (@normalize_url_plain E (py "//X")) in He by (vm_compute; reflexivity).
  vm_compute in He. done.
Qed.

(** ** The two engines on one tree *)


(** C4 as stated fails: the first folder met with the name [work] is
    [Work], which has no attributes, and the bucket carries the attributes
    of [WORK ], met later; a folder whose name normalizes to nothing is
    filed under [Unsorted], whatever its name; and so is a folder called
    [__Unsorted__], whose normalized name is the reserved key: no bucket
    has its name, and the bucket it is filed in carries the attributes of
    [---], met before. *)
Lemma first_seen_attributes_counterexample :
  @folders_of_bucket ascii_env (py "work") example_tree
  = [work_folder; work_again_folder] ∧
  fattrs work_folder = [] ∧
  dict_get (py "work") (@collect_flat_buckets ascii_env example_tree)
  = Some (mkBucket (py "Work")
            [bm "http://y.org/" "Y"; bm "http://x.org/a/?utm_source=n" "second"]
            [(py "ADD_DATE", py "1")]) ∧
  h3_attrs <$> dict_get (py "work") (@collect_flat_buckets ascii_env example_tree)
  ≠ Some (fattrs work_folder) ∧
  display_name <$>
    dict_get (@bucket_key ascii_env (py "---"))
      (@collect_flat_buckets ascii_env
         (mkFolder (py "ROOT") [] [NFolder (mkFolder (py "---") [] [])]))
  = Some (py "Unsorted") ∧
  @norm_folder_name ascii_env (name dashes_folder) = [] ∧
  @norm_folder_name ascii_env (name reserved_name_folder) = unsorted_key ∧
  @folders_of_bucket ascii_env unsorted_key collision_tree
  = [dashes_folder; reserved_name_folder] ∧
  @collect_flat_buckets ascii_env collision_tree
  = [(unsorted_key,
      mkBucket (py "Unsorted")
        [bm "http://a.org/" "A"; bm "http://b.org/" "B"]
        [(py "ADD_DATE", py "7")])].
Proof. vm_compute. done. Qed.

(** * Further properties *)

(** ** [escape_html] *)

Lemma occurrences_nil c : occurrences c [] = 0%nat.
Proof. done. Qed.

Lemma occurrences_cons c d s :
  occurrences c (d :: s) = ((if (d =? c)%N then 1 else 0) + occurrences c s)%nat.
Proof. unfold occurrences. cbn [List.filter]. by destruct (d =? c). Qed.

Lemma occurrences_app c s t :
  occurrences c (s ++ t) = (occurrences c s + occurrences c t)%nat.
Proof. unfold occurrences. by rewrite List.filter_app, length_app. Qed.

Lemma occurrences_zero c s : occurrences c s = 0%nat ↔ c ∉ s.
Proof.
  induction s as [|d s IH]; [split; [intros _; apply not_elem_of_nil|done]|].
  rewrite occurrences_cons, not_elem_of_cons. destruct (N.eqb_spec d c) as [->|Hne].
  - split; [lia|]. by intros [? _].
  - rewrite <-IH. split; [intros ?; split; [done|lia]|intros [_ ?]; lia].
Qed.

Lemma replace_with_cons a new c s :
  replace_with a new (c :: s) = (if c =? a then new else [c]) ++ replace_with a new s.
Proof. reflexivity. Qed.

Lemma replace_with_app a new s t :
  replace_with a new (s ++ t) = replace_with a new s ++ replace_with a new t.
Proof. unfold replace_with. by rewrite fmap_app, concat_app. Qed.

Lemma replace_with_single a new c : c ≠ a → replace_with a new [c] = [c].
Proof.
  intros Hne. rewrite replace_with_cons. by rewrite (proj2 (N.eqb_neq c a)) by done.
Qed.

Lemma escape_html_app s t : escape_html (s ++ t) = escape_html s ++ escape_html t.
Proof. unfold escape_html. by rewrite !replace_with_app. Qed.

Lemma escape_html_char c :
  escape_html [c]
  = if c =? ord "&" then py "&amp;"
    else if c =? ord "<" then py "&lt;"
    else if c =? ord ">" then py "&gt;"
    else if c =? DQUOTE then py "&quot;"
    else [c].
Proof.
  destruct (N.eqb_spec c (ord "&")) as [->|H1]; [by vm_compute|].
  destruct (N.eqb_spec c (ord "<")) as [->|H2]; [by vm_compute|].
  destruct (N.eqb_spec c (ord ">")) as [->|H3]; [by vm_compute|].
  destruct (N.eqb_spec c DQUOTE) as [->|H4]; [by vm_compute|].
  unfold escape_html. by rewrite !replace_with_single.
Qed.

Lemma escape_html_cons c t : escape_html (c :: t) = escape_html [c] ++ escape_html t.
Proof. by rewrite <-escape_html_app. Qed.

Lemma escape_html_avoids t c :
  c ∈ escape_html t → c ≠ ord "<" ∧ c ≠ ord ">" ∧ c ≠ DQUOTE.
Proof.
  induction t as [|d t IH]; [by intros ?%not_elem_of_nil|].
  rewrite escape_html_cons, elem_of_app. intros [Hc|Hc]; [|by apply IH].
  rewrite escape_html_char in Hc.
  destruct (N.eqb_spec d (ord "&")) as [->|H1];
    [vm_compute in Hc; repeat (apply elem_of_cons in Hc as [->|Hc]); try done;
     by apply not_elem_of_nil in Hc|].
  destruct (N.eqb_spec d (ord "<")) as [->|H2];
    [vm_compute in Hc; repeat (apply elem_of_cons in Hc as [->|Hc]); try done;
     by apply not_elem_of_nil in Hc|].
  destruct (N.eqb_spec d (ord ">")) as [->|H3];
    [vm_compute in Hc; repeat (apply elem_of_cons in Hc as [->|Hc]); try done;
     by apply not_elem_of_nil in Hc|].
  destruct (N.eqb_spec d DQUOTE) as [->|H4];
    [vm_compute in Hc; repeat (apply elem_of_cons in Hc as [->|Hc]); try done;
     by apply not_elem_of_nil in Hc|].
  apply list_elem_of_singleton in Hc as ->. done.
Qed.

(** X1: escaped text holds no [<], no [>] and no double quote, so that it
    can neither open nor close a tag nor end an attribute value. *)
Theorem escape_html_no_markup (t : pystr) :
  ord "<" ∉ escape_html t ∧ ord ">" ∉ escape_html t ∧ DQUOTE ∉ escape_html t.
Proof.
  split_and!; intros Hc; apply escape_html_avoids in Hc; naive_solver.
Qed.

(** X2: the four replacements act character by character: the ampersand
    of an entity that one replacement writes is not escaped again, so that
    [escape_html] goes through concatenation and each character has one
    image. *)
Theorem escape_html_characterwise :
  (∀ s t, escape_html (s ++ t) = escape_html s ++ escape_html t) ∧
  escape_html [] = [] ∧
  (∀ c, escape_html [c]
        = if c =? ord "&" then py "&amp;"
          else if c =? ord "<" then py "&lt;"
          else if c =? ord ">" then py "&gt;"
          else if c =? DQUOTE then py "&quot;"
          else [c]) ∧
  (∀ t, escape_html t = concat ((λ c, escape_html [c]) <$> t)).
Proof.
  split_and!; [apply escape_html_app|done|apply escape_html_char|].
  induction t as [|c t IH]; [done|]. rewrite escape_html_cons, fmap_cons.
  cbn [concat]. by rewrite <-IH.
Qed.

Lemma escape_html_char_cases c :
  (c = ord "&" ∧ escape_html [c] = py "&amp;") ∨
  (c = ord "<" ∧ escape_html [c] = py "&lt;") ∨
  (c = ord ">" ∧ escape_html [c] = py "&gt;") ∨
  (c = DQUOTE ∧ escape_html [c] = py "&quot;") ∨
  (c ≠ ord "&" ∧ c ≠ ord "<" ∧ c ≠ ord ">" ∧ c ≠ DQUOTE ∧ escape_html [c] = [c]).
Proof.
  rewrite escape_html_char.
  destruct (N.eqb_spec c (ord "&")) as [->|H1]; [by left|].
  destruct (N.eqb_spec c (ord "<")) as [->|H2]; [by right; left|].
  destruct (N.eqb_spec c (ord ">")) as [->|H3]; [by right; right; left|].
  destruct (N.eqb_spec c DQUOTE) as [->|H4]; [by right; right; right; left|].
  by right; right; right; right.
Qed.

(** The images of the characters form a prefix code. *)
Lemma escape_html_prefix c d x y :
  escape_html [c] ++ x = escape_html [d] ++ y → c = d ∧ x = y.
Proof.
  destruct (escape_html_char_cases c) as [[-> ->]|[[-> ->]|[[-> ->]|[[-> ->]|(?&?&?&?& ->)]]]];
    destruct (escape_html_char_cases d) as [[-> ->]|[[-> ->]|[[-> ->]|[[-> ->]|(?&?&?&?& ->)]]]];
    vm_compute; intros E; simplify_eq; done.
Qed.

(** X3: nothing is lost in escaping: texts with the same escape are the
    same. *)
Theorem escape_html_injective (s t : pystr) :
  escape_html s = escape_html t → s = t.
Proof.
  revert t. induction s as [|c s IH]; intros [|d t].
  - done.
  - rewrite escape_html_cons.
    destruct (escape_html_char_cases d) as [[-> ->]|[[-> ->]|[[-> ->]|[[-> ->]|(?&?&?&?& ->)]]]];
      vm_compute; done.
  - rewrite escape_html_cons.
    destruct (escape_html_char_cases c) as [[-> ->]|[[-> ->]|[[-> ->]|[[-> ->]|(?&?&?&?& ->)]]]];
      vm_compute; done.
  - rewrite (escape_html_cons c), (escape_html_cons d).
    intros [-> E]%escape_html_prefix. f_equal. by apply IH.
Qed.

Lemma escape_html_injective_witness :
  escape_html (py "a<b & c") = escape_html (py "a<b & c") ∧ py "a<b & c" = py "a<b & c".
Proof.
  split; [reflexivity|]. apply escape_html_injective. reflexivity.
Defined.

Lemma escape_html_char_length c :
  length (escape_html [c])
  = (1 + 4 * (if (c =? ord "&")%N then 1 else 0) + 3 * (if (c =? ord "<")%N then 1 else 0)
     + 3 * (if (c =? ord ">")%N then 1 else 0) + 5 * (if (c =? DQUOTE)%N then 1 else 0))%nat.
Proof.
  destruct (escape_html_char_cases c) as [[-> ->]|[[-> ->]|[[-> ->]|[[-> ->]|(?&?&?&?& ->)]]]];
    [by vm_compute..|].
  by rewrite !(proj2 (N.eqb_neq c _)) by done.
Qed.

(** X4: the length of the escape: four more for an ampersand, three for
    [<] and for [>], five for a double quote; so that a text is its own
    escape exactly when it holds none of the four. *)
Theorem escape_html_length (t : pystr) :
  length (escape_html t)
  = (length t + 4 * occurrences (ord "&") t + 3 * occurrences (ord "<") t
     + 3 * occurrences (ord ">") t + 5 * occurrences DQUOTE t)%nat ∧
  (escape_html t = t ↔
   ord "&" ∉ t ∧ ord "<" ∉ t ∧ ord ">" ∉ t ∧ DQUOTE ∉ t).
Proof.
  assert (length (escape_html t)
          = (length t + 4 * occurrences (ord "&") t + 3 * occurrences (ord "<") t
             + 3 * occurrences (ord ">") t + 5 * occurrences DQUOTE t)%nat) as Hlen.
  { induction t as [|c t IH]; [done|].
    rewrite escape_html_cons, length_app, IH, escape_html_char_length, !occurrences_cons.
    cbn [length]. repeat case_match; lia. }
  split; [done|]. rewrite <-!occurrences_zero. split.
  - intros E. rewrite E in Hlen. lia.
  - intros (H1 & H2 & H3 & H4). rewrite !occurrences_zero in *. clear Hlen.
    induction t as [|c t IH]; [done|].
    apply not_elem_of_cons in H1 as [? ?], H2 as [? ?], H3 as [? ?], H4 as [? ?].
    rewrite escape_html_cons, IH by done.
    destruct (escape_html_char_cases c) as [[-> _]|[[-> _]|[[-> _]|[[-> _]|(?&?&?&?& ->)]]]];
      done.
Qed.

(** ** The writers: how many tags they write *)

Lemma occurrences_join c sep l :
  occurrences c sep = 0%nat →
  occurrences c (join sep l) = sum_list_with (occurrences c) l.
Proof.
  intros Hsep. induction l as [|x [|y l] IH]; [done| |].
  - cbn [join sum_list_with]. lia.
  - change (join sep (x :: y :: l)) with (x ++ sep ++ join sep (y :: l)).
    rewrite !occurrences_app, IH, Hsep. done.
Qed.

Lemma occurrences_escape c t : bracket c → occurrences c (escape_html t) = 0%nat.
Proof.
  intros Hc. apply occurrences_zero. intros Hin%escape_html_avoids.
  destruct Hc; naive_solver.
Qed.

Lemma bracket_cases (P : N → Prop) c : bracket c → P (ord "<") → P (ord ">") → P c.
Proof. by intros [-> | ->]. Qed.

Lemma occurrences_indent c indent :
  bracket c → occurrences c (concat (replicate indent (py "  "))) = 0%nat.
Proof.
  intros Hc. induction indent as [|n IH]; [done|].
  cbn [replicate concat]. rewrite occurrences_app, IH.
  by destruct Hc as [-> | ->].
Qed.

(** Evaluates the counts of the literals of a goal. *)
Ltac count_py :=
  repeat match goal with
    | |- context [occurrences ?c (py ?s)] =>
        let v := eval vm_compute in (occurrences c (py s)) in
        change (occurrences c (py s)) with v
    | |- context [occurrences ?c []] => change (occurrences c []) with 0%nat
    end.

Section dump.
Context `{PyEnv}.

Lemma occurrences_attr_strings c d ks :
  bracket c →
  Forall (λ k, occurrences c k = 0%nat) ks →
  occurrences c (join (py " ") (attr_strings d ks)) = 0%nat.
Proof.
  intros Hc Hks. rewrite occurrences_join by (by destruct Hc as [-> | ->]).
  unfold attr_strings. induction Hks as [|k ks Hk Hks IH]; [done|].
  cbn [omap list_omap]. destruct (attr_value d k) as [v|]; cbn [fmap option_fmap option_map];
    [|done].
  cbn [sum_list_with]. rewrite IH, !occurrences_app, Hk, occurrences_escape by done.
  by destruct Hc as [-> | ->].
Qed.

Lemma H3_ATTRS_plain c : bracket c → Forall (λ k, occurrences c k = 0%nat) H3_ATTRS.
Proof. intros [-> | ->]; repeat constructor. Qed.

Lemma A_ATTRS_plain c : bracket c → Forall (λ k, occurrences c k = 0%nat) A_ATTRS.
Proof. intros [-> | ->]; repeat constructor. Qed.

Lemma occurrences_h3_line c ind n a :
  bracket c → occurrences c (h3_line ind n a) = (occurrences c ind + 3)%nat.
Proof.
  intros Hc. unfold h3_line. cbv zeta. rewrite !occurrences_app, occurrences_escape by done.
  pose proof (occurrences_attr_strings c a H3_ATTRS Hc (H3_ATTRS_plain c Hc)) as Ha.
  destruct (is_empty _); [|rewrite occurrences_app, Ha];
    destruct Hc as [-> | ->]; count_py; lia.
Qed.

Lemma occurrences_a_line c ind b :
  bracket c → occurrences c (a_line ind b) = (occurrences c ind + 3)%nat.
Proof.
  intros Hc. unfold a_line. cbv zeta.
  rewrite !occurrences_app.
  assert (∀ x l, occurrences c x = 0%nat → occurrences c (join (py " ") l) = 0%nat →
                 occurrences c (join (py " ") (x :: l)) = 0%nat) as Hj.
  { intros x [|y l] Hx Hl; [done|].
    change (join (py " ") (x :: y :: l)) with (x ++ py " " ++ join (py " ") (y :: l)).
    rewrite !occurrences_app, Hx, Hl. by destruct Hc as [-> | ->]. }
  rewrite Hj, !occurrences_escape; [| done.. | | by auto using occurrences_attr_strings, A_ATTRS_plain].
  - destruct Hc as [-> | ->]; count_py; lia.
  - rewrite !occurrences_app, occurrences_escape by done.
    by destruct Hc as [-> | ->].
Qed.

Lemma dump_folder_unfold n a cs indent :
  dump_folder (mkFolder n a cs) indent
  = join [LF] (dump_loop dump_folder indent (concat (replicate indent (py "  "))) cs).
Proof. reflexivity. Qed.

Lemma dump_loop_cons_b rec indent ind b cs :
  dump_loop rec indent ind (NBookmark b :: cs)
  = a_line ind b :: dump_loop rec indent ind cs.
Proof. reflexivity. Qed.

Lemma dump_loop_cons_f rec indent ind g cs :
  dump_loop rec indent ind (NFolder g :: cs)
  = [h3_line ind (name g) (fattrs g); ind ++ py "<DL><p>"; rec g (indent + 1)%nat;
     ind ++ py "</DL><p>"] ++ dump_loop rec indent ind cs.
Proof. reflexivity. Qed.

Lemma dump_folder_brackets c f :
  bracket c →
  ∀ indent, occurrences c (dump_folder f indent)
            = (7 * length (subfolders f) + 3 * length (doc_bookmarks f))%nat.
Proof.
  intros Hc. induction f as [n a cs IH] using Folder_nested_ind. intros indent.
  rewrite dump_folder_unfold, occurrences_join by (by destruct Hc as [-> | ->]).
  change (subfolders (mkFolder n a cs)) with (nodes_folders subfolders cs).
  change (doc_bookmarks (mkFolder n a cs)) with (nodes_bookmarks doc_bookmarks cs).
  pose proof (occurrences_indent c indent Hc) as Hind.
  generalize dependent (concat (replicate indent (py "  "))). intros ind Hind.
  induction IH as [|[b|g] cs Hg _ IHcs].
  - done.
  - rewrite dump_loop_cons_b, nodes_bookmarks_cons_b. cbn [sum_list_with length].
    change (nodes_folders subfolders (NBookmark b :: cs)) with (nodes_folders subfolders cs).
    rewrite IHcs, occurrences_a_line, Hind by done. lia.
  - rewrite dump_loop_cons_f, nodes_bookmarks_cons_f, nodes_folders_cons_f.
    rewrite sum_list_with_app, IHcs. cbn [sum_list_with length].
    rewrite Hg, occurrences_h3_line, !occurrences_app, Hind by done.
    rewrite !length_app. cbn [length].
    destruct Hc as [-> | ->]; count_py; lia.
Qed.

Lemma occurrences_header c t :
  bracket c → occurrences c t = 0%nat → occurrences c (file_header t) = 8%nat.
Proof.
  intros Hc Ht. unfold file_header. rewrite !occurrences_app, Ht.
  by destruct Hc as [-> | ->].
Qed.

Lemma occurrences_footer c : bracket c → occurrences c file_footer = 2%nat.
Proof. by intros [-> | ->]. Qed.

Lemma write_netscape_html_brackets c f :
  bracket c →
  occurrences c (write_netscape_html f)
  = (10 + 7 * length (subfolders f) + 3 * length (doc_bookmarks f))%nat.
Proof.
  intros Hc. unfold write_netscape_html.
  rewrite !occurrences_app, occurrences_header, occurrences_footer, dump_folder_brackets;
    [lia|done..|by destruct Hc as [-> | ->]].
Qed.

Lemma flat_lines_brackets c bs :
  bracket c →
  sum_list_with (occurrences c) (flat_lines bs)
  = (7 * nonempty_buckets bs + 3 * length (all_bookmarks bs))%nat.
Proof.
  intros Hc. induction bs as [|[k b] bs IH]; [done|].
  rewrite all_bookmarks_cons, length_app. unfold nonempty_buckets in *.
  cbn [flat_lines List.filter snd]. destruct (bookmarks b) as [|x l] eqn:E.
  - cbn [is_empty negb length]. rewrite IH. lia.
  - cbn [is_empty negb]. rewrite <-E. clear E.
    rewrite !sum_list_with_app, IH. cbn [sum_list_with length].
    rewrite occurrences_h3_line by done.
    assert (sum_list_with (occurrences c) (a_line (py "  ") <$> bookmarks b)
            = (3 * length (bookmarks b))%nat) as ->.
    { induction (bookmarks b) as [|y l' IHl]; [done|].
      cbn [fmap list_fmap sum_list_with length]. rewrite occurrences_a_line by done.
      fold (fmap (M:=list) (a_line (py "  ")) l'). rewrite IHl.
      destruct Hc as [-> | ->]; count_py; lia. }
    destruct Hc as [-> | ->]; count_py; lia.
Qed.

Lemma write_flat_file_brackets c bs :
  bracket c →
  occurrences c (write_flat_file bs)
  = (10 + 7 * nonempty_buckets bs + 3 * length (all_bookmarks bs))%nat.
Proof.
  intros Hc. unfold write_flat_file, dump_flat_html.
  rewrite !occurrences_app, occurrences_header, occurrences_footer, occurrences_join,
    flat_lines_brackets; [lia|done|by destruct Hc as [-> | ->]|done..|by destruct Hc as [-> | ->]].
Qed.

(** X5: whatever the names, titles, addresses and attribute values of a
    tree are, and whatever the indentation, [dump_folder] writes seven
    [<] and seven [>] for every folder below the one it is given and three
    for every bookmark: no text of the tree opens or closes a tag. *)
Theorem dump_folder_markup (f : Folder) (indent : nat) :
  occurrences (ord "<") (dump_folder f indent)
  = (7 * length (subfolders f) + 3 * length (doc_bookmarks f))%nat ∧
  occurrences (ord ">") (dump_folder f indent)
  = (7 * length (subfolders f) + 3 * length (doc_bookmarks f))%nat.
Proof. split; apply dump_folder_brackets; [by left|by right]. Qed.

(** X6: the file that the prune tool writes for a tree has as many tags as
    its statistics say: ten brackets of each kind for the frame, seven for
    every folder of the input that was not pruned, three for every address
    that was kept. *)
Theorem prune_output_markup (root : Folder) :
  ∃ text, prune_output root = Some text ∧
    let stats := (run_prune root).2 in
    let tags := (10 + 7 * (length (subfolders root) - folders_pruned stats)
                 + 3 * urls_kept stats)%nat in
    occurrences (ord "<") text = tags ∧ occurrences (ord ">") text = tags.
Proof.
  destruct (run_prune_spec root) as (Hout & Hk & _ & Hp). cbv zeta in *.
  unfold prune_output. rewrite Hout. eexists; split; [done|]. cbv zeta.
  rewrite (write_netscape_html_brackets (ord "<")) by (by left).
  rewrite (write_netscape_html_brackets (ord ">")) by (by right).
  rewrite Hk. split; lia.
Qed.

(** X7: the file that the flatten tool writes has ten brackets of each
    kind for the frame, seven for every bucket that it counts in
    [folders_total] and three for every address that it counts in
    [urls_kept]; a bucket that lost all its bookmarks is not written. *)
Theorem flatten_output_markup (root : Folder) :
  let stats := (run_flatten root).2 in
  let tags := (10 + 7 * folders_total stats + 3 * flat_kept stats)%nat in
  occurrences (ord "<") (flatten_output root) = tags ∧
  occurrences (ord ">") (flatten_output root) = tags.
Proof.
  destruct (run_flatten_spec root) as (_ & Hk & _ & Hf). cbv zeta.
  unfold flatten_output.
  rewrite (write_flat_file_brackets (ord "<")) by (by left).
  rewrite (write_flat_file_brackets (ord ">")) by (by right).
  rewrite Hk, Hf. done.
Qed.

End dump.

(** ** The engines: what their output is like, and running them again *)

Lemma select_sublist {A} keep (l : list A) : select keep l `sublist_of` l.
Proof.
  revert keep. induction l as [|x l IH]; intros keep; [constructor|].
  cbn [select]. destruct (keep 0%nat); cbn [app].
  - apply sublist_skip, IH.
  - apply sublist_cons, IH.
Qed.

Lemma select_full {A} keep (l : list A) :
  select keep l = l → ∀ i, (i < length l)%nat → keep i = true.
Proof.
  revert keep. induction l as [|x l IH]; intros keep E i Hi; [simpl in Hi; lia|].
  cbn [select] in E. destruct (keep 0%nat) eqn:E0; cbn [app] in E.
  - injection E as E. destruct i as [|i]; [done|].
    apply (IH (keep ∘ S) E i). simpl in Hi. lia.
  - pose proof (select_length_le (keep ∘ S) l) as Hle. rewrite E in Hle.
    simpl in Hle. lia.
Qed.

Lemma structural_children_id keep cs :
  Forall (λ c, match c with
     | NFolder g => ∀ keep,
         (∀ i, (i < length (doc_bookmarks g))%nat → keep i = true) →
         Forall (λ h, children h ≠ []) (subfolders g) →
         structural_prune keep g = g
     | NBookmark _ => True end) cs →
  (∀ i, (i < length (nodes_bookmarks doc_bookmarks cs))%nat → keep i = true) →
  Forall (λ h, children h ≠ []) (nodes_folders subfolders cs) →
  structural_children structural_prune keep cs = cs.
Proof.
  intros Hall. revert keep. induction Hall as [|[b|g] cs Hg Hall IH]; intros keep Hk Hne.
  - done.
  - rewrite structural_children_cons_b. rewrite nodes_bookmarks_cons_b in Hk.
    rewrite (Hk 0%nat) by (simpl; lia). cbn [app]. f_equal.
    apply IH; [|done]. intros i Hi. apply (Hk (S i)). simpl. lia.
  - rewrite structural_children_cons_f. rewrite nodes_bookmarks_cons_f, length_app in Hk.
    rewrite nodes_folders_cons_f in Hne. apply Forall_app in Hne as [Hne1 Hne2].
    apply Forall_cons in Hne1 as [Hg1 Hg2].
    rewrite (Hg keep) by (auto with lia).
    rewrite (proj2 (is_empty_false (children g))) by done. cbn [app]. f_equal.
    apply IH; [|done]. intros i Hi. apply Hk. lia.
Qed.

(** Pruning changes nothing in a tree in which every bookmark stays and no
    folder is empty. *)
Lemma structural_prune_id f : ∀ keep,
  (∀ i, (i < length (doc_bookmarks f))%nat → keep i = true) →
  Forall (λ h, children h ≠ []) (subfolders f) →
  structural_prune keep f = f.
Proof.
  induction f as [n a cs IH] using Folder_nested_ind. intros keep Hk Hne.
  cbn [structural_prune]. f_equal. by apply structural_children_id.
Qed.

Section engines_again.
Context `{PyEnv}.

Lemma elem_of_seen_after k seen ks :
  k ∈ seen_after seen ks ↔ k ∈ seen ∨ (k ∈ ks ∧ k ≠ []).
Proof.
  revert seen. induction ks as [|k' ks IH]; intros seen.
  - cbn. split; [by left|]. intros [?|[?%not_elem_of_nil ?]]; done.
  - unfold seen_after. cbn [foldl]. fold (seen_after (see seen k') ks).
    rewrite IH, elem_of_see, elem_of_cons. naive_solver.
Qed.

Lemma first_occurrences_sublist seen l : first_occurrences seen l `sublist_of` l.
Proof. apply select_sublist. Qed.

Lemma first_occurrences_keys seen l k :
  k ∈ key <$> first_occurrences seen l ↔ k ≠ [] ∧ k ∉ seen ∧ k ∈ key <$> l.
Proof.
  revert seen. induction l as [|b l IH]; intros seen.
  { unfold first_occurrences. cbn. split; [by intros ?%not_elem_of_nil|].
    by intros (_ & _ & ?%not_elem_of_nil). }
  rewrite first_occurrences_cons, fmap_app, elem_of_app, IH, fmap_cons, elem_of_cons.
  rewrite elem_of_see.
  destruct (is_empty (key b)) eqn:Eb.
  { apply is_empty_true in Eb. cbn [negb andb fmap list_fmap].
    rewrite elem_of_nil. naive_solver. }
  apply is_empty_false in Eb. cbn [negb andb].
  destruct (decide (key b ∈ seen)) as [Es|Es].
  - rewrite bool_decide_eq_true_2 by done. cbn [negb fmap list_fmap].
    rewrite elem_of_nil. naive_solver.
  - rewrite bool_decide_eq_false_2 by done. cbn [negb fmap list_fmap].
    rewrite list_elem_of_singleton.
    destruct (decide (k = key b)) as [->|Hne]; naive_solver.
Qed.

Lemma first_occurrences_NoDup seen l : NoDup (key <$> first_occurrences seen l).
Proof.
  revert seen. induction l as [|b l IH]; intros seen; [constructor|].
  rewrite first_occurrences_cons, fmap_app.
  destruct (negb (is_empty (key b)) && negb (bool_decide (key b ∈ seen))) eqn:E;
    [|apply IH].
  cbn [fmap list_fmap app]. constructor; [|apply IH].
  rewrite first_occurrences_keys, elem_of_see.
  apply andb_true_iff in E as [E _]. apply negb_true_iff, is_empty_false in E.
  naive_solver.
Qed.

Lemma first_occurrences_id seen l :
  NoDup (key <$> l) → (∀ b, b ∈ l → key b ≠ [] ∧ key b ∉ seen) →
  first_occurrences seen l = l.
Proof.
  revert seen. induction l as [|b l IH]; intros seen Hnd Hall; [done|].
  rewrite fmap_cons in Hnd. apply NoDup_cons in Hnd as [Hb Hnd].
  destruct (Hall b) as [Hb1 Hb2]; [by left|].
  rewrite first_occurrences_cons.
  rewrite (proj2 (is_empty_false (key b))), bool_decide_eq_false_2 by done.
  cbn [negb andb app]. f_equal. apply IH; [done|].
  intros b' Hb'. destruct (Hall b') as [? ?]; [by right|]. split; [done|].
  rewrite elem_of_see. intros [?|[E _]]; [done|].
  apply Hb. rewrite <-E. apply list_elem_of_fmap. by exists b'.
Qed.

Lemma first_occurrences_idemp seen l :
  first_occurrences seen (first_occurrences seen l) = first_occurrences seen l.
Proof.
  apply first_occurrences_id; [apply first_occurrences_NoDup|].
  intros b Hb.
  assert (key b ∈ key <$> first_occurrences seen l) as Hk.
  { apply list_elem_of_fmap. by exists b. }
  apply first_occurrences_keys in Hk. naive_solver.
Qed.

Lemma seen_after_first_occurrences seen l :
  seen_after seen (key <$> first_occurrences seen l) = seen_after seen (key <$> l).
Proof.
  apply set_eq. intros k. rewrite !elem_of_seen_after, first_occurrences_keys.
  destruct (decide (k ∈ seen)); naive_solver.
Qed.

Lemma buckets_survivors_idemp seen bs :
  buckets_survivors seen (buckets_survivors seen bs) = buckets_survivors seen bs.
Proof.
  revert seen. induction bs as [|[k b] bs IH]; intros seen; [done|].
  cbn [buckets_survivors bookmarks display_name h3_attrs].
  rewrite first_occurrences_idemp, seen_after_first_occurrences, IH. done.
Qed.

Lemma dedupe_globally_spec bs :
  let r := dedupe_bookmarks_globally bs in
  r.1 = buckets_survivors ∅ bs ∧
  flat_kept r.2 = length (all_bookmarks r.1) ∧
  (flat_removed r.2 + length (all_bookmarks r.1) = length (all_bookmarks bs))%nat ∧
  folders_total r.2 = nonempty_buckets r.1.
Proof.
  pose proof (dedupe_buckets_spec bs ∅ (mkFlatStats 0 0 0)) as P.
  cbv zeta in P |- *. unfold dedupe_bookmarks_globally.
  destruct (dedupe_buckets _ ∅ _) as [[bs' seen] stats].
  simpl in *. destruct P as (-> & _ & -> & ? & ->). done.
Qed.

Lemma prune_output_bookmarks root out :
  (run_prune root).1 = Some out →
  out = structural_prune (survives ∅ (key <$> doc_bookmarks root)) root ∧
  doc_bookmarks out = first_occurrences ∅ (doc_bookmarks root).
Proof.
  destruct (run_prune_spec root) as (Hout & _). cbv zeta in Hout. rewrite Hout.
  intros [= <-]. split; [done|]. apply structural_prune_bookmarks.
Qed.

(** X8: running the prune engine on its own output changes nothing: the
    same tree comes back, every address is kept, none is removed and no
    folder is pruned. *)
Theorem prune_idempotent (root : Folder) :
  ∃ out, (run_prune root).1 = Some out ∧
    run_prune out = (Some out, mkStats (urls_kept (run_prune root).2) 0 0).
Proof.
  destruct (run_prune_spec root) as (Hout & Hk & _). cbv zeta in *.
  eexists. split; [exact Hout|].
  set (out := structural_prune _ root) in *.
  assert (doc_bookmarks out = first_occurrences ∅ (doc_bookmarks root)) as Hb
    by apply structural_prune_bookmarks.
  assert (structural_prune (survives ∅ (key <$> doc_bookmarks out)) out = out) as Hid.
  { apply structural_prune_id.
    - apply select_full. change (select _ _) with (first_occurrences ∅ (doc_bookmarks out)).
      rewrite Hb. apply first_occurrences_idemp.
    - eapply Forall_impl; [apply structural_prune_nonempty|]. by intros h [? _]. }
  destruct (run_prune_spec out) as (Hout2 & Hk2 & Hr2 & Hp2). cbv zeta in *.
  rewrite Hid in *. rewrite Hk.
  destruct (run_prune out) as [o [k r p]]. simpl in *. subst o.
  do 2 f_equal; lia.
Qed.

(** X9: in the tree that the prune engine returns no two bookmarks have
    the same key and no key is empty; every key of the input that is not
    empty is still there; and the bookmarks stand in the order in which
    they stood, none of them new. *)
Theorem prune_output_keys (root : Folder) :
  ∃ out, (run_prune root).1 = Some out ∧
    NoDup (key <$> doc_bookmarks out) ∧
    (∀ k, k ∈ key <$> doc_bookmarks out ↔ k ≠ [] ∧ k ∈ key <$> doc_bookmarks root) ∧
    doc_bookmarks out `sublist_of` doc_bookmarks root.
Proof.
  destruct (run_prune_spec root) as (Hout & _). cbv zeta in *.
  eexists. split; [exact Hout|]. rewrite structural_prune_bookmarks.
  change (select _ _) with (first_occurrences ∅ (doc_bookmarks root)).
  split_and!.
  - apply first_occurrences_NoDup.
  - intros k. rewrite first_occurrences_keys.
    pose proof (not_elem_of_empty (C:=gset pystr) k). naive_solver.
  - apply first_occurrences_sublist.
Qed.

(** X10: the two engines keep the same addresses: the keys of the
    bookmarks that the prune engine keeps are, up to their order, the keys
    of the bookmarks that the flatten engine keeps, and the two tools
    report the same numbers of kept and of removed addresses. *)
Theorem engines_keep_the_same_keys (root : Folder) :
  ∃ out, (run_prune root).1 = Some out ∧
    key <$> doc_bookmarks out ≡ₚ key <$> all_bookmarks (run_flatten root).1 ∧
    urls_kept (run_prune root).2 = flat_kept (run_flatten root).2 ∧
    urls_removed (run_prune root).2 = flat_removed (run_flatten root).2.
Proof.
  destruct (run_prune_spec root) as (Hout & Hk & Hr & _). cbv zeta in *.
  destruct (run_flatten_spec root) as (Fout & Fk & Fr & _).
  eexists. split; [exact Hout|].
  rewrite structural_prune_bookmarks in *.
  change (select _ _) with (first_occurrences ∅ (doc_bookmarks root)) in *.
  rewrite Fout, buckets_survivors_all in *.
  change (all_bookmarks (collect_flat_buckets root)) with (flat_order root) in *.
  pose proof (flat_order_perm root) as Hp.
  assert (key <$> first_occurrences ∅ (doc_bookmarks root)
          ≡ₚ key <$> first_occurrences ∅ (flat_order root)) as Hperm.
  { apply NoDup_Permutation; [apply first_occurrences_NoDup..|].
    intros k. rewrite !first_occurrences_keys. by rewrite Hp. }
  split; [done|].
  apply Permutation_length in Hperm. rewrite !length_fmap in Hperm.
  apply Permutation_length in Hp. lia.
Qed.

(** X11: the global dedupe of the flatten tool changes nothing when it is
    run on its own result: the same buckets, every address kept, none
    removed, and the same number of buckets that are not empty. *)
Theorem dedupe_bookmarks_globally_idempotent (buckets : Buckets) :
  let r := dedupe_bookmarks_globally buckets in
  dedupe_bookmarks_globally r.1
  = (r.1, mkFlatStats (flat_kept r.2) 0 (folders_total r.2)).
Proof.
  cbv zeta.
  destruct (dedupe_globally_spec buckets) as (Hb & Hk & _ & Hf). cbv zeta in *.
  destruct (dedupe_globally_spec (dedupe_bookmarks_globally buckets).1)
    as (Hb2 & Hk2 & Hr2 & Hf2). cbv zeta in *.
  rewrite Hb in Hb2 at 2. rewrite buckets_survivors_idemp, <-Hb in Hb2.
  rewrite Hb2 in *. rewrite Hk, Hf.
  destruct (dedupe_bookmarks_globally (dedupe_bookmarks_globally buckets).1)
    as [bs' [k r f]]. simpl in *. subst bs'. do 2 f_equal; lia.
Qed.

End engines_again.

(** ** [norm_folder_name]: which names are filed together *)

Lemma collapse_spaces_cons c n :
  collapse_spaces (c :: n)
  = if isspace c then space_then n else c :: collapse_spaces n.
Proof. by destruct n. Qed.

Lemma isspace_space : isspace (ord " ") = true.
Proof. reflexivity. Qed.

Lemma blank_cons w ws : blank (w :: ws) ↔ isspace w = true ∧ blank ws.
Proof. unfold blank. cbn [forallb]. apply andb_true_iff. Qed.

Lemma blank_app ws1 ws2 : blank (ws1 ++ ws2) ↔ blank ws1 ∧ blank ws2.
Proof. unfold blank. rewrite forallb_app. apply andb_true_iff. Qed.

Lemma space_then_blank d n :
  isspace d = true → space_then (d :: n) = collapse_spaces (d :: n).
Proof. intros Hd. unfold space_then. by rewrite Hd. Qed.

Lemma collapse_blank ws b :
  ws ≠ [] → blank ws → collapse_spaces (ws ++ b) = space_then b.
Proof.
  induction ws as [|w ws IH]; [done|]. intros _ [Hw Hws]%blank_cons.
  cbn [app]. rewrite collapse_spaces_cons, Hw.
  destruct ws as [|w' ws']; [done|].
  apply blank_cons in Hws as Hw'. destruct Hw' as [Hw' _].
  cbn [app]. rewrite space_then_blank by done. by apply IH.
Qed.

(** A run of whitespace counts as one space. *)
Lemma collapse_run a ws b :
  ws ≠ [] → blank ws →
  collapse_spaces (a ++ ws ++ b) = collapse_spaces (a ++ ord " " :: b) ∧
  space_then (a ++ ws ++ b) = space_then (a ++ ord " " :: b).
Proof.
  intros Hne Hws.
  assert (collapse_spaces (ord " " :: b) = space_then b) as Hsp
    by (by rewrite collapse_spaces_cons, isspace_space).
  induction a as [|c a [IH1 IH2]].
  - cbn [app]. rewrite collapse_blank, Hsp by done. split; [done|].
    rewrite (space_then_blank (ord " ")), Hsp by apply isspace_space.
    destruct ws as [|w ws']; [done|]. apply blank_cons in Hws as Hw. destruct Hw as [Hw _].
    cbn [app]. rewrite space_then_blank by done.
    by apply (collapse_blank (w :: ws')).
  - cbn [app].
    assert (collapse_spaces (c :: a ++ ws ++ b) = collapse_spaces (c :: a ++ ord " " :: b))
      as Hc by (by rewrite !collapse_spaces_cons, IH1, IH2).
    split; [done|]. unfold space_then. by rewrite Hc.
Qed.

(** Whitespace at the end adds whitespace at the end, if anything. *)
Lemma collapse_snoc s :
  (∃ t, collapse_spaces (s ++ [ord " "]) = collapse_spaces s ++ t ∧ blank t) ∧
  (∃ t, space_then (s ++ [ord " "]) = space_then s ++ t ∧ blank t).
Proof.
  induction s as [|c s [(t1 & IH1 & Ht1) (t2 & IH2 & Ht2)]].
  - split; [by exists [ord " "]|by exists []].
  - cbn [app].
    assert (∃ t, collapse_spaces (c :: s ++ [ord " "]) = collapse_spaces (c :: s) ++ t
                 ∧ blank t) as (t & Hc & Ht).
    { rewrite !collapse_spaces_cons. destruct (isspace c).
      - by exists t2.
      - exists t1. by rewrite IH1. }
    split; [by exists t|]. exists t. split; [|done].
    unfold space_then. rewrite Hc. by destruct (isspace c).
Qed.

Lemma lstrip_app_strip p s t :
  forallb p t = true → ∃ t', lstrip p (s ++ t) = lstrip p s ++ t' ∧ forallb p t' = true.
Proof.
  intros Ht. induction s as [|c s (t' & IH & Ht')].
  - exists []. split; [|done]. cbn [app lstrip].
    induction t as [|d t IHt]; [done|]. cbn [forallb] in Ht.
    apply andb_true_iff in Ht as [Hd Ht]. cbn [lstrip]. rewrite Hd. by apply IHt.
  - cbn [app lstrip]. destruct (p c); [by exists t'|by exists t].
Qed.

Lemma strip_app_strip p s t : forallb p t = true → strip p (s ++ t) = strip p s.
Proof.
  intros Ht. unfold strip. destruct (lstrip_app_strip p s t Ht) as (t' & -> & Ht').
  by apply rstrip_app_strip.
Qed.

Lemma strip_space_then s :
  strip isspace (space_then s) = strip isspace (collapse_spaces s).
Proof.
  destruct s as [|d s]; [done|]. unfold space_then.
  destruct (isspace d); [done|]. unfold strip. cbn [lstrip]. by rewrite isspace_space.
Qed.

Lemma strip_collapse_leading ws s :
  blank ws →
  strip isspace (collapse_spaces (ws ++ s)) = strip isspace (collapse_spaces s).
Proof.
  intros Hws. destruct ws as [|w ws]; [done|].
  rewrite collapse_blank by done. apply strip_space_then.
Qed.

Lemma strip_collapse_trailing s ws :
  blank ws →
  strip isspace (collapse_spaces (s ++ ws)) = strip isspace (collapse_spaces s).
Proof.
  intros Hws. destruct ws as [|w ws]; [by rewrite app_nil_r|].
  rewrite <-(app_nil_r (w :: ws)).
  destruct (collapse_run s (w :: ws) []) as [-> _]; [done..|].
  destruct (collapse_snoc s) as [(t & -> & Ht) _]. by apply strip_app_strip.
Qed.

Lemma replace_char_app a b s t :
  replace_char a b (s ++ t) = replace_char a b s ++ replace_char a b t.
Proof. apply fmap_app. Qed.

Lemma blank_replace ws : blank ws → blank (replace_char NBSP (ord " ") ws).
Proof.
  unfold blank, replace_char. induction ws as [|w ws IH]; [done|].
  cbn [forallb fmap list_fmap]. intros [Hw Hws]%andb_true_iff.
  fold (fmap (M:=list) (λ c, if c =? NBSP then ord " " else c) ws).
  rewrite IH by done. by destruct (w =? NBSP); [|rewrite Hw].
Qed.

Lemma replace_char_nonempty a b s : s ≠ [] → replace_char a b s ≠ [].
Proof. by destruct s. Qed.

(** Whitespace is below 33 or above 132; ASCII letters are not. *)
Lemma isspace_bound c : isspace c = true → c ≤ 32 ∨ 133 ≤ c.
Proof. unfold isspace. nbool. lia. Qed.

Lemma isspace_ascii_lower c : isspace (ascii_lower c) = isspace c.
Proof.
  unfold ascii_lower, ascii_isupper. destruct ((65 <=? c) && (c <=? 90)) eqn:E; [|done].
  apply andb_true_iff in E as [E1%N.leb_le E2%N.leb_le].
  destruct (isspace (c + 32)) eqn:F1; [apply isspace_bound in F1; lia|].
  destruct (isspace c) eqn:F2; [apply isspace_bound in F2; lia|]. done.
Qed.

Lemma collapse_fmap (f : N → N) s :
  (∀ c, isspace (f c) = isspace c) → f (ord " ") = ord " " →
  collapse_spaces (f <$> s) = f <$> collapse_spaces s ∧
  space_then (f <$> s) = f <$> space_then s.
Proof.
  intros Hf Hsp. induction s as [|c s [IH1 IH2]].
  - split; [done|]. cbn. by rewrite Hsp.
  - rewrite fmap_cons.
    assert (collapse_spaces (f c :: (f <$> s)) = f <$> collapse_spaces (c :: s)) as Hc.
    { rewrite !collapse_spaces_cons, Hf, IH1, IH2. by destruct (isspace c). }
    split; [done|]. unfold space_then. rewrite Hc, Hf.
    destruct (isspace c); [done|]. by rewrite fmap_cons, Hsp.
Qed.

Lemma lstrip_fmap p (f : N → N) s :
  (∀ c, p (f c) = p c) → lstrip p (f <$> s) = f <$> lstrip p s.
Proof.
  intros Hf. induction s as [|c s IH]; [done|].
  rewrite fmap_cons. cbn [lstrip]. rewrite Hf. by destruct (p c).
Qed.

Lemma rstrip_fmap p (f : N → N) s :
  (∀ c, p (f c) = p c) → rstrip p (f <$> s) = f <$> rstrip p s.
Proof.
  intros Hf. induction s as [|c s IH]; [done|].
  rewrite fmap_cons. cbn [rstrip]. rewrite IH, Hf.
  destruct (rstrip p s); [by destruct (p c)|done].
Qed.

Lemma collapse_elem s c :
  (c ∈ collapse_spaces s → c ∈ s ∨ c = ord " ") ∧
  (c ∈ space_then s → c ∈ s ∨ c = ord " ").
Proof.
  induction s as [|d s [IH1 IH2]].
  - split; [by intros ?%not_elem_of_nil|]. intros ->%list_elem_of_singleton. by right.
  - assert (c ∈ collapse_spaces (d :: s) → c ∈ d :: s ∨ c = ord " ") as Hc.
    { rewrite collapse_spaces_cons. destruct (isspace d).
      - intros [?| ->]%IH2; [left; by right|by right].
      - intros [->|[?| ->]%IH1]%elem_of_cons; [left; by left|left; by right|by right]. }
    split; [done|]. unfold space_then. destruct (isspace d); [done|].
    intros [->|?]%elem_of_cons; [by right|auto].
Qed.

Lemma rstrip_elem p s c : c ∈ rstrip p s → c ∈ s.
Proof.
  destruct (rstrip_prefix p s) as (t & E & _). intros Hc. rewrite E.
  apply elem_of_app. by left.
Qed.

Lemma strip_collapse_ascii s :
  forallb isascii s = true → forallb isascii (strip isspace (collapse_spaces s)) = true.
Proof.
  rewrite !forallb_forall. intros Hs c Hc%list_elem_of_In.
  apply rstrip_elem, lstrip_elem, collapse_elem in Hc as [Hc| ->]; [|done].
  by apply Hs, list_elem_of_In.
Qed.

Section names.
Context `{PyEnv}.

(** X13: a run of whitespace inside a folder name counts for one space:
    two names that differ in the whitespace characters of one run (a
    no-break space for a space, a tab, several spaces for one) have the
    same normalized name. *)
Theorem norm_folder_name_whitespace (a b ws1 ws2 : pystr) :
  ws1 ≠ [] → ws2 ≠ [] → blank ws1 → blank ws2 →
  norm_folder_name (a ++ ws1 ++ b) = norm_folder_name (a ++ ws2 ++ b).
Proof.
  intros N1 N2 B1 B2. unfold norm_folder_name. cbv zeta.
  rewrite !replace_char_app.
  destruct (collapse_run (replace_char NBSP (ord " ") a) (replace_char NBSP (ord " ") ws1)
              (replace_char NBSP (ord " ") b)) as [-> _];
    [by apply replace_char_nonempty|by apply blank_replace|].
  destruct (collapse_run (replace_char NBSP (ord " ") a) (replace_char NBSP (ord " ") ws2)
              (replace_char NBSP (ord " ") b)) as [-> _];
    [by apply replace_char_nonempty|by apply blank_replace|].
  done.
Qed.

(** X14: whitespace before and after a folder name does not count: the
    name has the normalized name that it has without it. *)
Theorem norm_folder_name_trim (name ws1 ws2 : pystr) :
  blank ws1 → blank ws2 →
  norm_folder_name (ws1 ++ name ++ ws2) = norm_folder_name name.
Proof.
  intros B1 B2. unfold norm_folder_name. cbv zeta.
  rewrite !replace_char_app.
  rewrite strip_collapse_leading, strip_collapse_trailing by (by apply blank_replace).
  done.
Qed.

(** X15: the letter case of an ASCII folder name does not count: two
    ASCII names that are the same once their capital letters are made
    small have the same normalized name. *)
Theorem norm_folder_name_ascii_case (a b : pystr) :
  forallb isascii a = true → forallb isascii b = true →
  ascii_lower <$> a = ascii_lower <$> b →
  norm_folder_name a = norm_folder_name b.
Proof.
  intros Ha Hb E.
  assert (∀ s, forallb isascii s = true →
               norm_folder_name s
               = strip (λ c, char_in c FOLDER_STRIP_CHARS)
                   (strip isspace (collapse_spaces (ascii_lower <$> s)))) as Hn.
  { intros s Hs. unfold norm_folder_name. cbv zeta.
    rewrite replace_char_id.
    2:{ intros Hin. rewrite forallb_forall in Hs.
        by apply list_elem_of_In, Hs in Hin. }
    rewrite str_lower_ascii by (by apply strip_collapse_ascii).
    unfold strip at 2 4.
    rewrite <-rstrip_fmap, <-lstrip_fmap by apply isspace_ascii_lower.
    by destruct (collapse_fmap ascii_lower s isspace_ascii_lower eq_refl) as [-> _]. }
  by rewrite !Hn, E.
Qed.

End names.

Lemma norm_folder_name_whitespace_witness :
  py " " ≠ [] ∧ [NBSP; 9; ord " "] ≠ [] ∧ blank (py " ") ∧ blank [NBSP; 9; ord " "] ∧
  @norm_folder_name ascii_env (py "My" ++ py " " ++ py "Links")
  = @norm_folder_name ascii_env (py "My" ++ [NBSP; 9; ord " "] ++ py "Links").
Proof.
  split_and!; [done|done|reflexivity|reflexivity|].
  apply (@norm_folder_name_whitespace ascii_env); [done|done|reflexivity|reflexivity].
Defined.

Lemma norm_folder_name_trim_witness :
  blank [9; ord " "] ∧ blank [NBSP; 10] ∧
  @norm_folder_name ascii_env ([9; ord " "] ++ py "News" ++ [NBSP; 10])
  = @norm_folder_name ascii_env (py "News").
Proof.
  split_and!; [reflexivity|reflexivity|].
  apply (@norm_folder_name_trim ascii_env); reflexivity.
Defined.

Lemma norm_folder_name_ascii_case_witness :
  forallb isascii (py "Dev Tools") = true ∧ forallb isascii (py "DEV tools") = true ∧
  ascii_lower <$> py "Dev Tools" = ascii_lower <$> py "DEV tools" ∧
  @norm_folder_name ascii_env (py "Dev Tools") = @norm_folder_name ascii_env (py "DEV tools").
Proof.
  split_and!; [reflexivity|reflexivity|reflexivity|].
  apply (@norm_folder_name_ascii_case ascii_env); reflexivity.
Defined.

(** ** The buckets have a key and a name *)

Lemma dict_get_Some k b d : dict_get k d = Some b → (k, b) ∈ d.
Proof.
  induction d as [|[k1 b1] d IH]; [done|]. cbn [dict_get].
  destruct (decide (k1 = k)) as [->|Hne].
  - rewrite bool_decide_eq_true_2 by done. intros [= ->]. by left.
  - rewrite bool_decide_eq_false_2 by done. intros ?%IH. by right.
Qed.

Lemma dict_set_Forall (P : pystr * Bucket → Prop) k b d :
  Forall P d → P (k, b) → Forall P (dict_set k b d).
Proof.
  intros Hd Hb. induction Hd as [|[k1 b1] d H1 Hd IH]; [by repeat constructor|].
  cbn [dict_set]. destruct (decide (k1 = k)) as [->|Hne].
  - rewrite bool_decide_eq_true_2 by done. by constructor.
  - rewrite bool_decide_eq_false_2 by done. by constructor.
Qed.

Section named.
Context `{PyEnv}.

Lemma bucket_key_nonempty n : bucket_key n ≠ [].
Proof.
  unfold bucket_key. cbv zeta. destruct (is_empty _) eqn:E; [done|].
  by apply is_empty_false.
Qed.

Lemma fresh_bucket_named f : display_name (fresh_bucket f) ≠ [].
Proof.
  unfold fresh_bucket. cbn [display_name].
  destruct (is_empty (name f)) eqn:E; [done|]. by apply is_empty_false.
Qed.

Lemma add_folder_named bs f :
  Forall (λ kb : pystr * Bucket, kb.1 ≠ [] ∧ display_name kb.2 ≠ []) bs →
  Forall (λ kb : pystr * Bucket, kb.1 ≠ [] ∧ display_name kb.2 ≠ []) (add_folder bs f).
Proof.
  intros Hbs. rewrite add_folder_unfold.
  destruct (dict_get (bucket_key (name f)) bs) as [b|] eqn:E.
  - apply dict_set_Forall; [done|]. split; [apply bucket_key_nonempty|].
    apply dict_get_Some in E. rewrite Forall_forall in Hbs.
    by destruct (Hbs _ E) as [_ ?].
  - repeat apply dict_set_Forall; [done|..];
      (split; [apply bucket_key_nonempty|apply fresh_bucket_named]).
Qed.

Lemma collect_flat_buckets_named root :
  Forall (λ kb : pystr * Bucket, kb.1 ≠ [] ∧ display_name kb.2 ≠ [])
         (collect_flat_buckets root).
Proof.
  rewrite collect_flat_buckets_foldl.
  generalize (subfolders root). intros fs.
  assert (Forall (λ kb : pystr * Bucket, kb.1 ≠ [] ∧ display_name kb.2 ≠ [])
            [(unsorted_key, mkBucket (py "Unsorted") (bookmarks_of (children root)) [])])
    as Hinit by (by repeat constructor).
  revert Hinit. generalize [(unsorted_key, mkBucket (py "Unsorted") (bookmarks_of (children root)) [])].
  induction fs as [|f fs IH]; intros bs Hbs; [done|].
  cbn [foldl]. by apply IH, add_folder_named.
Qed.

Lemma buckets_survivors_named seen bs :
  Forall (λ kb : pystr * Bucket, kb.1 ≠ [] ∧ display_name kb.2 ≠ []) bs →
  Forall (λ kb : pystr * Bucket, kb.1 ≠ [] ∧ display_name kb.2 ≠ [])
         (buckets_survivors seen bs).
Proof.
  intros Hbs. revert seen. induction Hbs as [|[k b] bs Hb Hbs IH]; intros seen;
    [constructor|].
  cbn [buckets_survivors]. constructor; [done|apply IH].
Qed.

(** X12: every bucket that the flatten tool collects, and every bucket
    that it writes, has a key and a display name that are not empty: so
    the heading that [dump_flat_html] writes for a bucket is its display
    name, never the substitute [Untitled]. *)
Theorem flat_bucket_names (root : Folder) :
  Forall (λ kb : pystr * Bucket, kb.1 ≠ [] ∧ display_name kb.2 ≠ [])
         (collect_flat_buckets root) ∧
  Forall (λ kb : pystr * Bucket,
            kb.1 ≠ [] ∧ display_name kb.2 ≠ [] ∧
            or_else (display_name kb.2) (py "Untitled") = display_name kb.2)
         (run_flatten root).1.
Proof.
  split; [apply collect_flat_buckets_named|].
  destruct (run_flatten_spec root) as (-> & _).
  eapply Forall_impl; [apply buckets_survivors_named, collect_flat_buckets_named|].
  intros [k b] [Hk Hd]. split_and!; [done..|].
  unfold or_else. cbn [snd] in *. by destruct (display_name b).
Qed.

End named.

(** ** [normalize_url]: what the key is made of *)

Lemma hash_elem_of_urlunsplit sc n p q :
  ord "#" ∈ urlunsplit sc n p q [] →
  ord "#" ∈ sc ∨ ord "#" ∈ n ∨ ord "#" ∈ p ∨ ord "#" ∈ q.
Proof.
  assert (∀ s : pystr, char_in (ord "#") s = false → ord "#" ∈ s → False) as Hlit.
  { intros s Hs. by apply char_in_false. }
  unfold urlunsplit. cbv zeta. cbn [is_empty negb].
  intros Hin.
  repeat match type of Hin with
    | context [if ?b then _ else _] => destruct b
    end;
    repeat (rewrite elem_of_app in Hin);
    repeat match goal with
      | Hor : _ ∨ _ |- _ => destruct Hor as [Hor|Hor]
      end;
    try (by auto 6);
    exfalso; revert Hin; apply Hlit; by vm_compute.
Qed.

Section key.
Context `{PyEnv}.

Lemma hash_not_lower s : ord "#" ∈ str_lower s → ord "#" ∈ s.
Proof. by apply str_lower_keeps. Qed.

Lemma hash_not_in_key u s q :
  urlsplit u = Ok s → urlencode (List.filter keep (parse_qsl (query s))) = Ok q →
  ord "#" ∉ urlunsplit (str_lower (scheme s)) (str_lower (netloc s))
              (strip_trailing_slash (path s)) q [].
Proof.
  intros Hu Hq.
  destruct (urlsplit_Ok u s Hu)
    as (sx & nx & qx & fx & _ & [Hs Hn Hp _] & Esc & En & _ & _ & _).
  intros [Hin|[Hin|[Hin|Hin]]]%hash_elem_of_urlunsplit.
  - apply hash_not_lower in Hin. rewrite Esc in Hin.
    destruct sx as [x|]; cbn [from_option] in Hin; [|by apply not_elem_of_nil in Hin].
    apply hash_not_lower in Hin. destruct Hs as [_ Hs]. by apply Hs in Hin.
  - apply hash_not_lower in Hin. rewrite En in Hin.
    destruct nx as [n|]; [|by apply not_elem_of_nil in Hin].
    destruct Hn as [Hn _]. by apply Hn in Hin.
  - apply strip_trailing_slash_elem in Hin. by apply Hp in Hin.
  - by apply (urlencode_chars _ _ _ Hq) in Hin.
Qed.

(** X16: a key that [normalize_url] builds holds no [#]: the fragment of
    the address is gone, and nothing that is written back can start one.
    (When the [try] raises or builds the empty string the key is the
    address itself, with what it holds.) *)
Theorem normalize_url_no_fragment (u r : pystr) :
  normalize_url_try u = Ok r →
  ord "#" ∉ r ∧ (r ≠ [] → normalize_url u = r ∧ ord "#" ∉ normalize_url u).
Proof.
  intros Hr.
  assert (ord "#" ∉ r) as Hn.
  { rewrite normalize_url_try_unfold in Hr.
    destruct (urlsplit u) as [s|e] eqn:Hu; [|done]. cbn [mbind result_bind] in Hr.
    destruct (urlencode _) as [q|e] eqn:Hq; [|done]. cbn [mbind result_bind] in Hr.
    injection Hr as <-. by apply (hash_not_in_key u). }
  split; [done|]. intros Hne. rewrite (normalize_url_Ok u r) by done. done.
Qed.

(** X17: the query of a key that [normalize_url] builds, read again with
    [parse_qsl], gives the pairs of the query of the address that are not
    tracking parameters, in their order and with their values, and nothing
    else: writing them with [urlencode] loses nothing of them. *)
Theorem normalize_url_query (u r : pystr) :
  normalize_url_try u = Ok r →
  ∃ s q,
    urlsplit u = Ok s ∧
    r = urlunsplit (str_lower (scheme s)) (str_lower (netloc s))
          (strip_trailing_slash (path s)) q [] ∧
    parse_qsl q = List.filter keep (parse_qsl (query s)) ∧
    ∀ k v, (k, v) ∈ parse_qsl q →
           k ∉ COMMON_TRACKING_PARAMS ∧ (k, v) ∈ parse_qsl (query s).
Proof.
  intros Hr. rewrite normalize_url_try_unfold in Hr.
  destruct (urlsplit u) as [s|e] eqn:Hu; [|done]. cbn [mbind result_bind] in Hr.
  destruct (urlencode _) as [q|e] eqn:Hq; [|done]. cbn [mbind result_bind] in Hr.
  injection Hr as <-. exists s, q. split_and!; [done|done|by apply parse_qsl_urlencode|].
  intros k v. rewrite (parse_qsl_urlencode _ _ Hq).
  intros [Hin Hk]%list_elem_of_In%filter_In. split; [|by apply list_elem_of_In].
  unfold keep in Hk. cbn [fst] in Hk. by apply negb_true_iff, bool_decide_eq_false in Hk.
Qed.

End key.

Lemma normalize_url_no_fragment_witness :
  @normalize_url_try ascii_env (py "HTTP://EX.com/a/b//?utm_source=x&q=1+2#top")
  = Ok (py "http://ex.com/a/b?q=1+2") ∧
  ord "#" ∉ py "http://ex.com/a/b?q=1+2" ∧
  (py "http://ex.com/a/b?q=1+2" ≠ [] →
   @normalize_url ascii_env (py "HTTP://EX.com/a/b//?utm_source=x&q=1+2#top")
   = py "http://ex.com/a/b?q=1+2" ∧
   ord "#" ∉ @normalize_url ascii_env (py "HTTP://EX.com/a/b//?utm_source=x&q=1+2#top")).
Proof.
  split; [vm_compute; reflexivity|].
  apply (@normalize_url_no_fragment ascii_env). vm_compute. reflexivity.
Defined.

Lemma normalize_url_query_witness :
  @normalize_url_try ascii_env (py "http://ex.com/?b=&utm_source=x&a=1+2&ref=y")
  = Ok (py "http://ex.com/?b=&a=1+2") ∧
  ∃ s q,
    @urlsplit ascii_env (py "http://ex.com/?b=&utm_source=x&a=1+2&ref=y") = Ok s ∧
    py "http://ex.com/?b=&a=1+2"
    = urlunsplit (@str_lower ascii_env (scheme s)) (@str_lower ascii_env (netloc s))
        (strip_trailing_slash (path s)) q [] ∧
    parse_qsl q = List.filter keep (parse_qsl (query s)) ∧
    ∀ k v, (k, v) ∈ parse_qsl q →
           k ∉ COMMON_TRACKING_PARAMS ∧ (k, v) ∈ parse_qsl (query s).
Proof.
  split; [vm_compute; reflexivity|].
  apply (@normalize_url_query ascii_env). vm_compute. reflexivity.
Defined.
